(** * Grid filling of pyinterp: relaxation (Gauss-Seidel) and LOESS

    Shallow embedding of [src/pyinterp/core/include/pyinterp/fill.hpp].
    The template parameter [Type] is instantiated at [double]: values are
    the binary64 floats of Rocq's kernel ([PrimFloat.float]), so every
    definition below computes.  Indices are mathematical integers: the
    64-bit index types of the source never wrap on a grid that fits in
    memory, and the index [ix] of the sweep, an [int] in the source, is
    taken below [2^31].

    A function of the source that can leave the defined behaviour of C++
    (an Eigen coefficient read or written out of range) returns an
    [option], [None] standing for the fault.

    The threads of a sweep are modelled by interleaving: a state holds the
    shared grid, the atomics of the pipeline and the position of every
    worker, and a step is taken by one thread at a time.  A step is one
    access to the shared memory: a poll of [pipe_in], the test of the mask
    at a pixel, the read of one operand of the residual, the store of the
    relaxed value, or the store to [pipe_out] that ends an iteration.  The
    atomics are sequentially consistent, as the operators of
    [std::atomic] are. *)

From Stdlib Require Import ZArith Lia Bool List Floats Uint63.
From stdpp Require Import base tactics option list.

Local Open Scope Z_scope.

(** ** Eigen matrices *)

(** [Eigen::Matrix<A, Dynamic, Dynamic>]: a dense matrix stored column by
    column.  [m(ix, iy)] is the coefficient of row [ix] and column [iy]. *)
Record Matrix (A : Type) : Type := mkMatrix
  { rows : Z; cols : Z; coeffs : list A }.
Arguments mkMatrix {A} _ _ _.
Arguments rows {A} _.
Arguments cols {A} _.
Arguments coeffs {A} _.

(** The storage of a matrix has exactly [rows * cols] coefficients. *)
Definition wf_matrix {A} (m : Matrix A) : Prop :=
  0 <= rows m /\ 0 <= cols m /\ length (coeffs m) = Z.to_nat (rows m * cols m).

Definition in_range {A} (m : Matrix A) (ix iy : Z) : bool :=
  (0 <=? ix) && (ix <? rows m) && (0 <=? iy) && (iy <? cols m).

Definition offset {A} (m : Matrix A) (ix iy : Z) : nat :=
  Z.to_nat (ix + iy * rows m).

(** Read access [m(ix, iy)].  Eigen asserts the index range and the access
    is undefined outside it: the model returns [None] there. *)
Definition coeff {A} (m : Matrix A) (ix iy : Z) : option A :=
  if in_range m ix iy then coeffs m !! offset m ix iy else None.

(** Write access [m(ix, iy) = v]. *)
Definition set_coeff {A} (m : Matrix A) (ix iy : Z) (v : A) : option (Matrix A) :=
  if in_range m ix iy && (offset m ix iy <? length (coeffs m))%nat
  then Some (mkMatrix (rows m) (cols m) (<[offset m ix iy := v]> (coeffs m)))
  else None.

(** [m.hasNaN()] and [m.array().isNaN()]. *)
Definition hasNaN (m : Matrix float) : bool := existsb is_nan (coeffs m).

Definition isNaN (m : Matrix float) : Matrix bool :=
  mkMatrix (rows m) (cols m) (map is_nan (coeffs m)).

(** [mask.array().select(v, m)]: [v] where the mask holds, [m] elsewhere. *)
Definition select (mask : Matrix bool) (v : float) (m : Matrix float) : Matrix float :=
  mkMatrix (rows m) (cols m)
    (zip_with (fun (b : bool) x => if b then v else x) (coeffs mask) (coeffs m)).

(** ** C++ library functions on [double] *)

(** [std::max(a, b)] is [(a < b) ? b : a]. *)
Definition std_max (a b : float) : float := if (a <? b)%float then b else a.

Definition fabs (x : float) : float := abs x.

(** [*std::max_element(first, last)]: the first element no later element
    exceeds; [None] on an empty range. *)
Definition max_element (l : list float) : option float :=
  match l with
  | [] => None
  | x :: l' => Some (fold_left std_max l' x)
  end.

(** Conversion of an unsigned integer to [double]. *)
Definition of_N (n : N) : float := of_uint63 (Uint63.of_Z (Z.of_N n)).

(** ** Loops *)

(** [for (i = lo; i < hi; ++i) body], the body working on a state [S] and
    able to fail. *)
Fixpoint for_n {S : Type} (n : nat) (i : Z) (body : Z -> S -> option S) (s : S)
  : option S :=
  match n with
  | O => Some s
  | Datatypes.S n' => s' ← body i s; for_n n' (i + 1) body s'
  end.

Definition for_range {S : Type} (lo hi : Z) (body : Z -> S -> option S) (s : S)
  : option S :=
  for_n (Z.to_nat (hi - lo)) lo body s.

(** Range-based [for (auto x : l) body]. *)
Fixpoint for_each {A S : Type} (l : list A) (body : A -> S -> option S) (s : S)
  : option S :=
  match l with
  | [] => Some s
  | x :: l' => s' ← body x s; for_each l' body s'
  end.

(** ** namespace [pyinterp::detail] *)

Module detail.

(** Arguments of one call of the [worker] lambda: the band
    [y_start, y_end) along the y-axis and the pipeline cells it publishes
    to and waits on (positions in the [pipeline] vector; [None] is
    [nullptr]). *)
Record worker_args : Type := mkArgs
  { y_start : Z; y_end : Z; pipe_out : option nat; pipe_in : option nat }.

(** Where a running worker stands: the index [ix] of its outer loop, and
    inside one iteration the wait on [pipe_in], the inner loop at index
    [iy] before the test of the mask (the publication to [pipe_out] closes
    the iteration, once [iy] has reached [y_end]), or [cell_fill] at the
    pixel [(ix, iy)]: while it evaluates the residual, with the values it
    has read so far, and then before [grid(ix, iy) += residual]. *)
Inductive phase : Type :=
  | Waiting
  | Filling (iy : Z)
  | Reading (iy : Z) (loaded : list float)
  | Storing (iy : Z) (residual : float).

Record worker_pc : Type := mkPc
  { pc_ix : Z; pc_phase : phase; pc_max_residual : float }.

(** The memory the threads of one sweep share: the grid and the atomics of
    the pipeline, with the local state of every worker. *)
Record sweep_state : Type := mkSweep
  { s_grid : Matrix float; s_workers : list worker_pc; s_pipeline : list Z }.

(** [coordinates]: "Gets the index of the pixel (ix, iy) in the matrix". *)
Definition coordinates (ix iy size : Z) : Z := iy * size + ix.

(** [std::numeric_limits<int>::min()]. *)
Definition int_min : Z := - 2 ^ 31.

Section sweep.
(** What the lambdas of [gauss_seidel] capture. *)
Variables (mask : Matrix bool) (is_circle : bool) (relaxation : float).
Variables (x_size y_size : Z).

(** Neighbours of a pixel, as the loops of [worker] compute them. *)
Definition ix0 (ix : Z) : Z :=
  if ix =? 0 then (if is_circle then x_size - 1 else 1) else ix - 1.
Definition ix1 (ix : Z) : Z :=
  if ix =? x_size - 1 then (if is_circle then 0 else x_size - 2) else ix + 1.
Definition iy0 (iy : Z) : Z := if iy =? 0 then 1 else iy - 1.
Definition iy1 (iy : Z) : Z := if iy =? y_size - 1 then y_size - 2 else iy + 1.

(** The residual of a pixel from the values of its four neighbours and
    its own. *)
Definition residual_of (left right below above current : float) : float :=
  ((0.25 * (left + right + below + above) - current) * relaxation)%float.

(** [cell_fill]: "Modifies the value of a masked pixel".  The state is
    the grid and [*max_residual]. *)
Definition cell_fill (ix0 ix ix1 iy0 iy iy1 : Z) (st : Matrix float * float)
  : option (Matrix float * float) :=
  let '(grid, max_residual) := st in
  left ← coeff grid ix0 iy;
  right ← coeff grid ix1 iy;
  below ← coeff grid ix iy0;
  above ← coeff grid ix iy1;
  current ← coeff grid ix iy;
  let residual := residual_of left right below above current in
  grid' ← set_coeff grid ix iy (current + residual)%float;
  Some (grid', std_max max_residual (fabs residual)).

(** The pixels [cell_fill] reads for the residual, in the order of the
    expression. *)
Definition operands (ix iy : Z) : list (Z * Z) :=
  [(ix0 ix, iy); (ix1 ix, iy); (ix, iy0 iy); (ix, iy1 iy); (ix, iy)].

(** The residual, once the five values are read. *)
Definition residual_from (loaded : list float) : option float :=
  match loaded with
  | [vl; vr; vb; va; vc] => Some (residual_of vl vr vb va vc)
  | _ => None
  end.

(** Body of the inner loop of [worker]. *)
Definition visit (ix iy : Z) (st : Matrix float * float)
  : option (Matrix float * float) :=
  masked ← coeff mask ix iy;
  if masked : bool then cell_fill (ix0 ix) ix (ix1 ix) (iy0 iy) iy (iy1 iy) st
  else Some st.

(** [worker(y_start, y_end, &max_residual, nullptr, nullptr)]: the call
    of the sequential path, both loops run to their end. *)
Definition worker (y_start y_end : Z) (grid : Matrix float)
  : option (Matrix float * float) :=
  for_range 0 x_size
    (fun ix => for_range y_start y_end (fun iy => visit ix iy))
    (grid, 0%float).

(** *** The threads of the parallel path *)

(** The loop that starts the threads: every band but the last has
    [shift] columns, publishes to [pipeline[index]] and, the first one
    apart, waits on [pipeline[index - 1]]. *)
Fixpoint spawn_loop (count index : nat) (start shift : Z)
  : list worker_args * Z :=
  match count with
  | O => ([], start)
  | S count' =>
      let '(l, last) := spawn_loop count' (S index) (start + shift) shift in
      (mkArgs start (start + shift) (Some index)
         (match index with O => None | S i => Some i end) :: l, last)
  end.

Definition spawn (num_threads : nat) : list worker_args :=
  let shift := y_size / Z.of_nat num_threads in
  let '(l, start) := spawn_loop (num_threads - 1) 0 0 shift in
  l ++ [mkArgs start y_size None (Some (num_threads - 2)%nat)].

Section threads.
Variable args : list worker_args.

(** The test of the [while] that polls [*pipe_in]. *)
Definition ready (a : worker_args) (ix : Z) (pipeline : list Z) : option bool :=
  match pipe_in a with
  | None => Some true
  | Some j =>
      p ← pipeline !! j;
      Some (negb (p <? coordinates ix (y_start a) y_size))
  end.

Definition publish (a : worker_args) (ix : Z) (pipeline : list Z) : list Z :=
  match pipe_out a with
  | None => pipeline
  | Some j => <[j := coordinates ix (y_end a) y_size]> pipeline
  end.

Definition finished_pc (pc : worker_pc) : bool := x_size <=? pc_ix pc.

(** One step of thread [k]: one access to the memory the threads share,
    with the computation that follows it in the thread.  The thread
    leaves the wait (or polls again, which changes nothing); tests the
    mask at the next pixel of its band (or, the band done, publishes the
    end of the iteration and moves to the next [ix]); reads one more
    operand of the residual; or adds the residual to the pixel.  A thread
    that has returned does nothing, and neither does a number that names
    no thread. *)
Definition thread_step (k : nat) (st : sweep_state) : option sweep_state :=
  match args !! k, s_workers st !! k with
  | Some a, Some pc =>
      if finished_pc pc then Some st
      else
        match pc_phase pc with
        | Waiting =>
            go ← ready a (pc_ix pc) (s_pipeline st);
            if go : bool then
              Some (mkSweep (s_grid st)
                      (<[k := mkPc (pc_ix pc) (Filling (y_start a))
                               (pc_max_residual pc)]> (s_workers st))
                      (s_pipeline st))
            else Some st
        | Filling iy =>
            if iy <? y_end a then
              masked ← coeff mask (pc_ix pc) iy;
              Some (mkSweep (s_grid st)
                      (<[k := mkPc (pc_ix pc)
                               (if masked : bool then Reading iy [] else Filling (iy + 1))
                               (pc_max_residual pc)]> (s_workers st))
                      (s_pipeline st))
            else
              Some (mkSweep (s_grid st)
                      (<[k := mkPc (pc_ix pc + 1) Waiting
                               (pc_max_residual pc)]> (s_workers st))
                      (publish a (pc_ix pc) (s_pipeline st)))
        | Reading iy loaded =>
            n ← operands (pc_ix pc) iy !! length loaded;
            v ← coeff (s_grid st) n.1 n.2;
            Some (mkSweep (s_grid st)
                    (<[k := mkPc (pc_ix pc)
                             (match residual_from (loaded ++ [v]) with
                              | Some residual => Storing iy residual
                              | None => Reading iy (loaded ++ [v])
                              end)
                             (pc_max_residual pc)]> (s_workers st))
                    (s_pipeline st))
        | Storing iy residual =>
            current ← coeff (s_grid st) (pc_ix pc) iy;
            grid' ← set_coeff (s_grid st) (pc_ix pc) iy (current + residual)%float;
            Some (mkSweep grid'
                    (<[k := mkPc (pc_ix pc) (Filling (iy + 1))
                             (std_max (pc_max_residual pc) (fabs residual))]>
                       (s_workers st))
                    (s_pipeline st))
        end
  | _, _ => Some st
  end.

(** The threads run in the order the scheduler chooses. *)
Definition run (schedule : list nat) (st : sweep_state) : option sweep_state :=
  for_each schedule thread_step st.

(** [item.join()] for every thread: the threads still running are run
    to their end. *)
Definition next_thread (workers : list worker_pc) : option nat :=
  fst <$> list_find (fun pc => finished_pc pc = false) workers.

Fixpoint join (fuel : nat) (st : sweep_state) : option sweep_state :=
  match fuel with
  | O => Some st
  | S fuel' =>
      match next_thread (s_workers st) with
      | None => Some st
      | Some k => st' ← thread_step k st; join fuel' st'
      end
  end.
End threads.

(** The memory when the threads start: every atomic of the pipeline holds
    [int_min], every worker is at [ix = 0] with [*max_residual = 0]. *)
Definition start_state (num_threads : nat) (grid : Matrix float) : sweep_state :=
  mkSweep grid
    (replicate num_threads (mkPc 0 Waiting 0%float))
    (replicate num_threads int_min).

(** A number of steps in which all the threads return: for each value of
    [ix] a thread makes at most seven of them per pixel, and two more. *)
Definition steps_bound (num_threads : nat) : nat :=
  Z.to_nat (Z.of_nat num_threads * (x_size * (7 * y_size + 2))).

End sweep.

(** [detail::gauss_seidel]: one sweep.  [schedule] is the interleaving the
    operating system chose for the threads of this call (it plays no role
    with one thread); when it is spent the threads are joined.  The
    parallel path starts with [assert(num_threads >= 2)], and without the
    assertion it divides [y_size] by [num_threads]: zero threads is a
    fault. *)
Definition gauss_seidel (schedule : list nat) (grid : Matrix float)
    (mask : Matrix bool) (is_circle : bool) (relaxation : float)
    (num_threads : N) : option (Matrix float * float) :=
  let x_size := rows grid in
  let y_size := cols grid in
  if (num_threads =? 1)%N then
    '(grid', m) ← worker mask is_circle relaxation x_size y_size 0 y_size grid;
    r ← max_element [m];
    Some (grid', r)
  else if (num_threads =? 0)%N then None
  else
    let n := N.to_nat num_threads in
    let args := spawn y_size n in
    st ← run mask is_circle relaxation x_size y_size args schedule
           (start_state n grid);
    st' ← join mask is_circle relaxation x_size y_size args
            (steps_bound x_size y_size n) st;
    if forallb (finished_pc x_size) (s_workers st') then
      r ← max_element (pc_max_residual <$> s_workers st');
      Some (s_grid st', r)
    else None.

(** *** First guess by zonal average *)

(** [boost::accumulators::accumulator_set] with the statistics [count] and
    [mean]: the samples are counted and summed, the mean is the sum divided
    by the count. *)
Record accumulator_set : Type := mkAcc { acc_count : N; acc_sum : float }.

Definition acc_empty : accumulator_set := mkAcc 0 0%float.

Definition acc_push (acc : accumulator_set) (sample : float) : accumulator_set :=
  mkAcc (acc_count acc + 1) (acc_sum acc + sample)%float.

Definition acc_mean (acc : accumulator_set) : float :=
  (acc_sum acc / of_N (acc_count acc))%float.

(** Modelled from the spec: [detail::dispatch] ([pyinterp/detail/thread.hpp]
    is not among the sources) hands consecutive parts of [0, size) to
    threads that need no synchronisation; the parts are run here one after
    the other, which is the whole range treated in order. *)
Definition dispatch {S : Type} (worker : Z -> Z -> S -> option S) (size : Z)
    (num_threads : N) (s : S) : option S :=
  worker 0 size s.

(** Body of the loop over [iy] in [set_zonal_average]: the mean of the
    defined pixels of the line, then the assignment of the masked ones. *)
Definition zonal_line (mask : Matrix bool) (iy : Z) (grid : Matrix float)
  : option (Matrix float) :=
  acc ← for_range 0 (rows grid)
          (fun ix acc =>
             masked ← coeff mask ix iy;
             if masked : bool then Some acc
             else v ← coeff grid ix iy; Some (acc_push acc v))
          acc_empty;
  let first_guess :=
    if (acc_count acc =? 0)%N then 0%float else acc_mean acc in
  for_range 0 (rows grid)
    (fun ix grid =>
       masked ← coeff mask ix iy;
       if masked : bool then set_coeff grid ix iy first_guess else Some grid)
    grid.

Definition set_zonal_average (grid : Matrix float) (mask : Matrix bool)
    (num_threads : N) : option (Matrix float) :=
  dispatch
    (fun y_start y_end => for_range y_start y_end (zonal_line mask))
    (cols grid) num_threads grid.

End detail.

(** ** namespace [pyinterp::fill] *)

Module fill.

(** "Type of first guess grid." *)
Inductive FirstGuess : Type :=
  | kZero
  | kZonalAverage.

Section relaxation.
(** [std::thread::hardware_concurrency()], and the interleaving of the
    threads in each sweep ([schedule it] for the sweep of iteration
    [it]). *)
Variable hardware_concurrency : N.
Variable schedule : N -> list nat.

(** The [for] loop of [gauss_seidel]: [budget] sweeps are left, the state
    is the grid with [iteration] and [max_residual]. *)
Fixpoint sweeps (budget : nat) (mask : Matrix bool) (is_circle : bool)
    (epsilon relaxation : float) (num_threads : N)
    (st : Matrix float * N * float) : option (Matrix float * N * float) :=
  match budget with
  | O => Some st
  | S budget' =>
      let '(grid, iteration, _) := st in
      '(grid', max_residual) ←
        detail.gauss_seidel (schedule iteration) grid mask is_circle
          relaxation num_threads;
      if (max_residual <? epsilon)%float
      then Some (grid', (iteration + 1)%N, max_residual)
      else sweeps budget' mask is_circle epsilon relaxation num_threads
             (grid', (iteration + 1)%N, max_residual)
  end.

(** [fill::gauss_seidel]: the grid after the call, the number of
    iterations and the maximum residual. *)
Definition gauss_seidel (grid : Matrix float) (first_guess : FirstGuess)
    (is_circle : bool) (max_iterations : N) (epsilon relaxation : float)
    (num_threads : N) : option (Matrix float * N * float) :=
  if negb (hasNaN grid) then Some (grid, 0%N, 0%float)
  else
    let num_threads :=
      if (num_threads =? 0)%N then hardware_concurrency else num_threads in
    let mask := isNaN grid in
    grid ←
      match first_guess with
      | kZero => Some (select mask 0%float grid)
      | kZonalAverage => detail.set_zonal_average grid mask num_threads
      end;
    sweeps (N.to_nat max_iterations) mask is_circle epsilon relaxation
      num_threads (grid, 0%N, 0%float).
End relaxation.

(** *** LOESS *)

(** Modelled from the spec: the axis collaborator ([pyinterp/axis.hpp] is
    not among the sources), a capability set with the coordinate lookup
    [axis(i)], the size, and the windowed index search
    [find_indexes(coordinate, size, Axis::kSym)], which the fill core only
    consumes. *)
Record Axis : Type := mkAxis
  { points : list float; find_indexes : float -> N -> list Z }.

Definition axis_size (a : Axis) : Z := Z.of_nat (length (points a)).

Definition coordinate (a : Axis) (i : Z) : option float :=
  if 0 <=? i then points a !! Z.to_nat i else None.

(** Modelled from the spec: the grid collaborator ([pyinterp/grid.hpp] is
    not among the sources): two axes and the values, read by
    [value(ix, iy)]. *)
Record Grid2D : Type := mkGrid2D { x : Axis; y : Axis; array : Matrix float }.

Definition value (grid : Grid2D) (ix iy : Z) : option float :=
  coeff (array grid) ix iy.

(** Modelled from the spec: [detail::math::sqr] ([pyinterp/detail/math.hpp]
    is not among the sources), the square of its argument. *)
Definition sqr (v : float) : float := (v * v)%float.

(** [pybind11::array_t<Type>] of a given shape; the content before the
    first write is not specified and stands here as zeros. *)
Definition array_t (nx ny : Z) : Matrix float :=
  mkMatrix nx ny (replicate (Z.to_nat (nx * ny)) 0%float).

Section loess.
(** [std::pow] of the C library. *)
Variable pow : float -> float -> float.

(** The tri-cube weight of a distance, with [power = 3.0]. *)
Definition tri_cube (d : float) : float :=
  if (d <=? 1)%float then pow (1 - pow d 3) 3 else 0%float.

(** The distance [d] of the pixel [(wx, wy)] of the frame to the masked
    point of coordinates [(px, py)]. *)
Definition distance (grid : Grid2D) (nx ny : N) (px py : float) (wx wy : Z)
  : option float :=
  cx ← coordinate (x grid) wx;
  cy ← coordinate (y grid) wy;
  Some (PrimFloat.sqrt (sqr ((cx - px) / of_N nx) + sqr ((cy - py) / of_N ny)))%float.

(** Body of the two loops over the frame; the state is [value] and
    [weight]. *)
Definition frame_step (grid : Grid2D) (nx ny : N) (px py : float) (wx wy : Z)
    (st : float * float) : option (float * float) :=
  let '(val, weight) := st in
  zi ← value grid wx wy;
  if negb (is_nan zi) then
    d ← distance grid nx ny px py wx wy;
    let wi := tri_cube d in
    Some ((val + wi * zi)%float, (weight + wi)%float)
  else Some st.

(** What [loess] stores in [_result(ix, iy)]. *)
Definition loess_cell (grid : Grid2D) (nx ny : N) (ix iy : Z) : option float :=
  px ← coordinate (x grid) ix;
  z ← value grid ix iy;
  if is_nan z then
    py ← coordinate (y grid) iy;
    let x_frame := find_indexes (x grid) px nx in
    let y_frame := find_indexes (y grid) py ny in
    '(val, weight) ←
      for_each x_frame
        (fun wx => for_each y_frame (fun wy => frame_step grid nx ny px py wx wy))
        (0%float, 0%float);
    Some (if negb (weight =? 0)%float then (val / weight)%float else z)
  else Some z.

Definition loess (grid : Grid2D) (nx ny : N) (num_threads : N)
  : option (Matrix float) :=
  detail.dispatch
    (fun start end_ =>
       for_range start end_
         (fun ix => for_range 0 (axis_size (y grid))
            (fun iy result =>
               z ← loess_cell grid nx ny ix iy;
               set_coeff result ix iy z)))
    (axis_size (x grid)) num_threads
    (array_t (axis_size (x grid)) (axis_size (y grid))).
End loess.

End fill.

(** ** Vocabulary of the statements *)

(** A float that is the absolute value of a number: not a NaN, and its own
    absolute value. *)
Definition magnitude (v : float) : Prop := fabs v = v /\ is_nan v = false.

(** The integers [i, i + 1, ...], [n] of them: the indices a [for] loop
    goes through. *)
Fixpoint zrange (i : Z) (n : nat) : list Z :=
  match n with
  | O => []
  | S n' => i :: zrange (i + 1) n'
  end.

(** The pixels of the band [y_start, y_end) in the order of the two loops
    of [worker]: [ix] outside, [iy] inside. *)
Definition scan (x_size y_start y_end : Z) : list (Z * Z) :=
  ix ← zrange 0 (Z.to_nat x_size);
  (fun iy => (ix, iy)) <$> zrange y_start (Z.to_nat (y_end - y_start)).

(** [earlier n c]: the single-threaded scan reaches [n] before [c]. *)
Definition earlier (n c : Z * Z) : bool :=
  (n.1 <? c.1) || ((n.1 =? c.1) && (n.2 <? c.2)).

Fixpoint ascending (l : list (Z * Z)) : Prop :=
  match l with
  | [] => True
  | c :: l' => Forall (fun c' => earlier c c' = true) l' /\ ascending l'
  end.

Definition at_ {A : Type} (m : Matrix A) (c : Z * Z) : option A := coeff m c.1 c.2.

Definition same_shape {A B : Type} (m : Matrix A) (m' : Matrix B) : Prop :=
  rows m = rows m' /\ cols m = cols m' /\ length (coeffs m) = length (coeffs m').

Section relaxed.
Variables (mask : Matrix bool) (is_circle : bool) (relaxation : float).
Variables (x_size y_size : Z).
(** The grid before a sweep and after it. *)
Variables (before after : Matrix float).

(** The value the sweep finds in pixel [n] when it treats pixel [c]: the
    new one if the scan went through [n] already, the old one if not. *)
Definition seen (c n : Z * Z) : option float :=
  if earlier n c then at_ after n else at_ before n.

(** The residual the sweep computes at [c]. *)
Definition residual_at (c : Z * Z) : option float :=
  left ← seen c (detail.ix0 is_circle x_size c.1, c.2);
  right ← seen c (detail.ix1 is_circle x_size c.1, c.2);
  below ← seen c (c.1, detail.iy0 c.2);
  above ← seen c (c.1, detail.iy1 y_size c.2);
  current ← at_ before c;
  Some (detail.residual_of relaxation left right below above current).

(** What one sweep does to the pixel [c]. *)
Definition relaxed_cell (c : Z * Z) : Prop :=
  match at_ mask c with
  | Some true =>
      exists residual current,
        residual_at c = Some residual /\ at_ before c = Some current /\
        at_ after c = Some (current + residual)%float
  | Some false => at_ after c = at_ before c
  | None => False
  end.

(** [m] is the largest of [m0] and the absolute residuals of the masked
    pixels that satisfy [P]. *)
Definition max_residual_over (P : Z * Z -> Prop) (m0 m : float) : Prop :=
  magnitude m /\
  (m = m0 \/
   exists c residual,
     P c /\ at_ mask c = Some true /\ residual_at c = Some residual /\
     m = fabs residual) /\
  (m <? m0)%float = false /\
  (forall c residual,
     P c -> at_ mask c = Some true -> residual_at c = Some residual ->
     (m <? fabs residual)%float = false).
End relaxed.

(** *** The bands and the state of the threads *)

(** The bands cut [0, y_size) into consecutive parts, each thread waits on
    the thread of the band before its own and publishes to the one after
    it. *)
Definition bands_ok (args : list detail.worker_args) (y_size : Z) : Prop :=
  (forall k a, args !! k = Some a ->
     0 <= detail.y_start a <= detail.y_end a /\ detail.y_end a <= y_size /\
     detail.pipe_in a = match k with O => None | S j => Some j end /\
     detail.pipe_out a = if decide (S k = length args) then None else Some k) /\
  (forall k a b, args !! k = Some a -> args !! S k = Some b ->
     detail.y_end a = detail.y_start b) /\
  (forall iy, 0 <= iy < y_size ->
     exists k a, args !! k = Some a /\ detail.y_start a <= iy < detail.y_end a).

(** The index of the inner loop of a worker that is in it. *)
Definition phase_iy (ph : detail.phase) : option Z :=
  match ph with
  | detail.Waiting => None
  | detail.Filling iy | detail.Reading iy _ | detail.Storing iy _ => Some iy
  end.

(** [treated pc c]: the worker at [pc] went through the pixel [c] of its
    band. *)
Definition treated (pc : detail.worker_pc) (c : Z * Z) : bool :=
  (c.1 <? detail.pc_ix pc) ||
  ((c.1 =? detail.pc_ix pc) &&
   match phase_iy (detail.pc_phase pc) with
   | Some iy => c.2 <? iy
   | None => false
   end).

(** What a thread last stored in its [pipe_out]. *)
Definition published (y_size : Z) (a : detail.worker_args) (pc : detail.worker_pc) : Z :=
  if detail.pc_ix pc =? 0 then detail.int_min
  else detail.coordinates (detail.pc_ix pc - 1) (detail.y_end a) y_size.

(** A bound on the steps a worker still has to make: per value of [ix]
    the wait, seven steps for each pixel of the band (the test of the
    mask, five reads and the store) and the publication. *)
Definition remaining (x_size : Z) (a : detail.worker_args) (pc : detail.worker_pc) : Z :=
  if detail.finished_pc x_size pc then 0
  else
    (x_size - detail.pc_ix pc) * (7 * (detail.y_end a - detail.y_start a) + 2) -
    match detail.pc_phase pc with
    | detail.Waiting => 0
    | detail.Filling iy => 1 + 7 * (iy - detail.y_start a)
    | detail.Reading iy loaded =>
        2 + 7 * (iy - detail.y_start a) + Z.of_nat (length loaded)
    | detail.Storing iy _ => 7 + 7 * (iy - detail.y_start a)
    end.

Fixpoint total_remaining (x_size : Z) (args : list detail.worker_args)
    (workers : list detail.worker_pc) : Z :=
  match args, workers with
  | a :: args', pc :: workers' =>
      remaining x_size a pc + total_remaining x_size args' workers'
  | _, _ => 0
  end.

Section sweep_inv.
Variables (mask : Matrix bool) (is_circle : bool) (relaxation : float).
Variables (x_size y_size : Z) (args : list detail.worker_args).
Variables (before after : Matrix float).

(** The values [loaded] are those the single-threaded sweep finds in the
    first operands of the residual at [c]. *)
Definition loaded_ok (c : Z * Z) (loaded : list float) : Prop :=
  forall j v, loaded !! j = Some v ->
    exists n, detail.operands is_circle x_size y_size c.1 c.2 !! j = Some n /\
              seen before after c n = Some v.

Definition pc_ok (a : detail.worker_args) (pc : detail.worker_pc) : Prop :=
  0 <= detail.pc_ix pc <= x_size /\
  match detail.pc_phase pc with
  | detail.Waiting => True
  | detail.Filling iy =>
      detail.pc_ix pc < x_size /\ detail.y_start a <= iy <= detail.y_end a
  | detail.Reading iy loaded =>
      (detail.pc_ix pc < x_size /\ detail.y_start a <= iy < detail.y_end a) /\
      at_ mask (detail.pc_ix pc, iy) = Some true /\
      (length loaded < 5)%nat /\ loaded_ok (detail.pc_ix pc, iy) loaded
  | detail.Storing iy residual =>
      (detail.pc_ix pc < x_size /\ detail.y_start a <= iy < detail.y_end a) /\
      at_ mask (detail.pc_ix pc, iy) = Some true /\
      residual_at is_circle relaxation x_size y_size before after (detail.pc_ix pc, iy) =
        Some residual
  end.

(** What holds of the shared memory whatever the interleaving, [after]
    being the grid the single-threaded sweep makes of [before]. *)
Record sweep_inv (st : detail.sweep_state) : Prop := mkInv
  { inv_workers : length (detail.s_workers st) = length args;
    inv_pipeline : length (detail.s_pipeline st) = length args;
    inv_shape : same_shape (detail.s_grid st) before;
    inv_pc : forall k a pc,
        args !! k = Some a -> detail.s_workers st !! k = Some pc -> pc_ok a pc;
    inv_order : forall j k pj pk,
        (j < k)%nat ->
        detail.s_workers st !! j = Some pj -> detail.s_workers st !! k = Some pk ->
        detail.pc_ix pk <= detail.pc_ix pj /\
        (detail.pc_phase pk <> detail.Waiting -> detail.pc_ix pk < detail.pc_ix pj);
    inv_published : forall k a pc j,
        args !! k = Some a -> detail.s_workers st !! k = Some pc ->
        detail.pipe_out a = Some j ->
        detail.s_pipeline st !! j = Some (published y_size a pc);
    inv_grid : forall k a pc c,
        args !! k = Some a -> detail.s_workers st !! k = Some pc ->
        0 <= c.1 < x_size -> detail.y_start a <= c.2 < detail.y_end a ->
        at_ (detail.s_grid st) c =
        if treated pc c then at_ after c else at_ before c;
    inv_max : forall k a pc,
        args !! k = Some a -> detail.s_workers st !! k = Some pc ->
        max_residual_over mask is_circle relaxation x_size y_size before after
          (fun c => (0 <= c.1 < x_size /\
                     detail.y_start a <= c.2 < detail.y_end a) /\
                    treated pc c = true)
          0%float (detail.pc_max_residual pc) }.
End sweep_inv.

(** *** Accesses in range *)

(** [safe grid c]: the visit of the pixel [c] stays inside the mask and,
    when the pixel is masked, the five accesses of [cell_fill] stay inside
    the grid. *)
Definition safe (mask : Matrix bool) (is_circle : bool) (x_size y_size : Z)
    (grid : Matrix float) (c : Z * Z) : bool :=
  match at_ mask c with
  | Some true =>
      in_range grid (detail.ix0 is_circle x_size c.1) c.2 &&
      in_range grid (detail.ix1 is_circle x_size c.1) c.2 &&
      in_range grid c.1 (detail.iy0 c.2) &&
      in_range grid c.1 (detail.iy1 y_size c.2) &&
      in_range grid c.1 c.2
  | Some false => true
  | None => false
  end.

(** What holds of the visits the threads have made, faults or not: they
    stayed in range. *)
Section visits_ok.
Variables (mask : Matrix bool) (is_circle : bool).
Variables (x_size y_size : Z) (args : list detail.worker_args).
Variable grid : Matrix float.

(** The reads a worker inside [cell_fill] has made were in range. *)
Definition reads_ok (pc : detail.worker_pc) : Prop :=
  match detail.pc_phase pc with
  | detail.Reading iy loaded =>
      at_ mask (detail.pc_ix pc, iy) = Some true /\
      forall j n, (j < length loaded)%nat ->
        detail.operands is_circle x_size y_size (detail.pc_ix pc) iy !! j = Some n ->
        in_range grid n.1 n.2 = true
  | detail.Storing iy _ =>
      at_ mask (detail.pc_ix pc, iy) = Some true /\
      forall j n,
        detail.operands is_circle x_size y_size (detail.pc_ix pc) iy !! j = Some n ->
        in_range grid n.1 n.2 = true
  | _ => True
  end.

Record visits_ok (st : detail.sweep_state) : Prop := mkVisits
  { vo_workers : length (detail.s_workers st) = length args;
    vo_shape : same_shape (detail.s_grid st) grid;
    vo_safe : forall k a pc c,
        args !! k = Some a -> detail.s_workers st !! k = Some pc ->
        detail.y_start a <= c.2 < detail.y_end a -> 0 <= c.1 ->
        treated pc c = true ->
        safe mask is_circle x_size y_size grid c = true;
    vo_reads : forall k pc, detail.s_workers st !! k = Some pc -> reads_ok pc }.
End visits_ok.

(** *** Sample inputs *)

(** An 8 x 8 grid with holes on a checkerboard and on every fifth pixel, so
    that some holes are neighbours of one another. *)
Definition checkerboard : Matrix float :=
  mkMatrix 8 8
    ((fun i => if Z.even (i mod 8 + i / 8) || (i mod 5 =? 0) then nan
               else (of_N (Z.to_N (i * i mod 11)) / 3)%float)
       <$> zrange 0 64).

Definition checkerboard_mask : Matrix bool := isNaN checkerboard.

Definition checkerboard_seeded : Matrix float :=
  select checkerboard_mask 0%float checkerboard.

Definition round_robin : list nat :=
  mjoin (replicate 60 [2; 1; 0; 1; 2; 0; 0]%nat).

Definition checkerboard_swept : Matrix float * float :=
  Eval vm_compute in
    default (checkerboard_seeded, 0%float)
      (detail.gauss_seidel [] checkerboard_seeded checkerboard_mask true 1 1).

(** The defined values of the line [iy], in the order of [ix]. *)
Definition line_values (grid : Matrix float) (mask : Matrix bool) (iy : Z) : list float :=
  omap (fun ix => match coeff mask ix iy with
                  | Some false => coeff grid ix iy
                  | _ => None
                  end)
    (zrange 0 (Z.to_nat (rows grid))).

(** Their mean: the sum from left to right over the count, zero when there
    is none. *)
Definition zonal_mean (values : list float) : float :=
  match values with
  | [] => 0%float
  | _ => (fold_left PrimFloat.add values 0 / of_N (N.of_nat (length values)))%float
  end.

Definition sparse_grid : Matrix float := mkMatrix 2 2 [1%float; nan; nan; nan].

(** *** The iterations of the relaxation *)

(** The number of threads [fill::gauss_seidel] works with. *)
Definition effective_threads (hardware_concurrency num_threads : N) : N :=
  if (num_threads =? 0)%N then hardware_concurrency else num_threads.

(** The grid after the first guess. *)
Definition seeded (grid : Matrix float) (first_guess : fill.FirstGuess)
    (num_threads : N) : option (Matrix float) :=
  match first_guess with
  | fill.kZero => Some (select (isNaN grid) 0%float grid)
  | fill.kZonalAverage => detail.set_zonal_average grid (isNaN grid) num_threads
  end.

(** The grid and the residual after [k] sweeps of the grid [start] (the
    residual is zero as long as no sweep was made). *)
Fixpoint after_sweeps (schedule : N -> list nat) (mask : Matrix bool)
    (is_circle : bool) (relaxation : float) (num_threads : N)
    (start : Matrix float) (k : nat) : option (Matrix float * float) :=
  match k with
  | O => Some (start, 0%float)
  | S k' =>
      '(grid, _) ← after_sweeps schedule mask is_circle relaxation num_threads start k';
      detail.gauss_seidel (schedule (N.of_nat k')) grid mask is_circle relaxation
        num_threads
  end.

(** The grid of the example: 5 x 5, all ones, the centre undefined. *)
Definition flat_field : Matrix float :=
  mkMatrix 5 5 (<[12%nat := nan]> (replicate 25 1%float)).

(** [1e-6] as a [double]. *)
Definition epsilon_1e_6 : float := 0x1.0c6f7a0b5ed8dp-20%float.

(** The grid of ones the example ends with. *)
Definition flat_field_filled : Matrix float := mkMatrix 5 5 (replicate 25 1%float).

(** Grids of two pixels, the first one undefined: one line ([x_size = 1])
    and one column ([y_size = 1]). *)
Definition one_line : Matrix float := mkMatrix 1 2 [nan; 1%float].
Definition one_column : Matrix float := mkMatrix 2 1 [nan; 1%float].

(** *** LOESS *)

(** What the fill core expects of its collaborators: the values have the
    shape of the axes and the index search returns indices of the axis. *)
Definition grid2d_ok (grid : fill.Grid2D) : Prop :=
  wf_matrix (fill.array grid) /\
  rows (fill.array grid) = fill.axis_size (fill.x grid) /\
  cols (fill.array grid) = fill.axis_size (fill.y grid) /\
  (forall c n wx, wx ∈ fill.find_indexes (fill.x grid) c n ->
     0 <= wx < fill.axis_size (fill.x grid)) /\
  (forall c n wy, wy ∈ fill.find_indexes (fill.y grid) c n ->
     0 <= wy < fill.axis_size (fill.y grid)).

(** The pixels of the frame around the point of coordinates [(px, py)], in
    the order of the two loops. *)
Definition window (grid : fill.Grid2D) (nx ny : N) (px py : float) : list (Z * Z) :=
  wx ← fill.find_indexes (fill.x grid) px nx;
  (fun wy => (wx, wy)) <$> fill.find_indexes (fill.y grid) py ny.

(** The defined pixels among [cells], each with its distance. *)
Definition samples (grid : fill.Grid2D) (dist : Z * Z -> option float)
    (cells : list (Z * Z)) : list (float * float) :=
  omap (fun c =>
          zi ← fill.value grid c.1 c.2;
          if is_nan zi then None else d ← dist c; Some (d, zi))
    cells.

(** The sums of the weighted values and of the weights of the samples, from
    left to right. *)
Definition weighted_sums (pow : float -> float -> float)
    (l : list (float * float)) (start : float * float) : float * float :=
  fold_left
    (fun (st : float * float) (s : float * float) =>
       (st.1 + fill.tri_cube pow s.1 * s.2, st.2 + fill.tri_cube pow s.1)%float)
    l start.

(** The weighted average of the samples, or [z] when the weights sum to
    zero. *)
Definition weighted_average (pow : float -> float -> float)
    (l : list (float * float)) (z : float) : float :=
  let sums := weighted_sums pow l (0%float, 0%float) in
  if negb (sums.2 =? 0)%float then (sums.1 / sums.2)%float else z.

(** Conversion of a signed integer to [double]. *)
Definition of_Z (z : Z) : float :=
  if z <? 0 then (- of_N (Z.to_N (- z)))%float else of_N (Z.to_N z).

(** The reading of the claim: the distance of the pixel [(wx, wy)] to the
    pixel [(ix, iy)] counted in grid indices. *)
Definition index_distance (nx ny : N) (ix iy wx wy : Z) : float :=
  PrimFloat.sqrt (fill.sqr (of_Z (wx - ix) / of_N nx) +
                  fill.sqr (of_Z (wy - iy) / of_N ny))%float.

(** The output the claim describes for the pixel [(ix, iy)]: the weighted
    average with the distances in grid indices. *)
Definition loess_cell_claimed (pow : float -> float -> float) (grid : fill.Grid2D)
    (nx ny : N) (ix iy : Z) : option float :=
  px ← fill.coordinate (fill.x grid) ix;
  z ← fill.value grid ix iy;
  if is_nan z then
    py ← fill.coordinate (fill.y grid) iy;
    Some (weighted_average pow
            (samples grid (fun c => Some (index_distance nx ny ix iy c.1 c.2))
               (window grid nx ny px py)) z)
  else Some z.

(** A line of three pixels four units apart, the middle one undefined;
    the index search returns the whole axis. *)
Definition wide_axis : fill.Axis := fill.mkAxis [0; 4; 8]%float (fun _ _ => [0; 1; 2]).
Definition point_axis : fill.Axis := fill.mkAxis [0%float] (fun _ _ => [0]).
Definition wide_grid : fill.Grid2D :=
  fill.mkGrid2D wide_axis point_axis (mkMatrix 3 1 [1%float; nan; 1%float]).

(** The same pixels one unit apart. *)
Definition unit_axis : fill.Axis := fill.mkAxis [0; 1; 2]%float (fun _ _ => [0; 1; 2]).
Definition unit_grid : fill.Grid2D :=
  fill.mkGrid2D unit_axis point_axis (mkMatrix 3 1 [1%float; nan; 3%float]).

(** The pixels of [wide_grid], with the same values, one unit apart. *)
Definition narrow_grid : fill.Grid2D :=
  fill.mkGrid2D unit_axis point_axis (mkMatrix 3 1 [1%float; nan; 1%float]).

(** A stand-in for [std::pow] with the exponent 3. *)
Definition cube (b e : float) : float := (b * b * b)%float.

(** *** Sample inputs of the further properties *)

(** A 3 x 3 grid whose centre is undefined, between an infinity and its
    opposite. *)
Definition opposite_infinities : Matrix float :=
  mkMatrix 3 3 [1; 1; 1; infinity; nan; neg_infinity; 1; 1; 1]%float.

(** *** The accesses of the threads to the grid *)

(** The pixel of the grid that the next step of a worker reads, and the
    pixel it writes (see [detail.thread_step]). *)
Definition next_read (is_circle : bool) (x_size y_size : Z) (pc : detail.worker_pc)
  : option (Z * Z) :=
  if detail.finished_pc x_size pc then None
  else
    match detail.pc_phase pc with
    | detail.Reading iy loaded =>
        detail.operands is_circle x_size y_size (detail.pc_ix pc) iy !! length loaded
    | detail.Storing iy _ => Some (detail.pc_ix pc, iy)
    | _ => None
    end.

Definition next_write (x_size : Z) (pc : detail.worker_pc) : option (Z * Z) :=
  if detail.finished_pc x_size pc then None
  else
    match detail.pc_phase pc with
    | detail.Storing iy _ => Some (detail.pc_ix pc, iy)
    | _ => None
    end.

(** What holds of the positions of the threads and of the atomics of the
    pipeline whatever the values of the grid: every worker is in its band,
    no worker is ahead of the worker of an earlier band, and every atomic
    holds what its worker published last. *)
Section handshake_inv.
Variables (x_size y_size : Z) (args : list detail.worker_args).

Definition position_ok (a : detail.worker_args) (pc : detail.worker_pc) : Prop :=
  0 <= detail.pc_ix pc <= x_size /\
  match detail.pc_phase pc with
  | detail.Waiting => True
  | detail.Filling iy =>
      detail.pc_ix pc < x_size /\ detail.y_start a <= iy <= detail.y_end a
  | detail.Reading iy _ | detail.Storing iy _ =>
      detail.pc_ix pc < x_size /\ detail.y_start a <= iy < detail.y_end a
  end.

Record handshake_inv (st : detail.sweep_state) : Prop := mkHandshake
  { hs_workers : length (detail.s_workers st) = length args;
    hs_pipeline : length (detail.s_pipeline st) = length args;
    hs_position : forall k a pc,
        args !! k = Some a -> detail.s_workers st !! k = Some pc -> position_ok a pc;
    hs_order : forall j k pj pk,
        (j < k)%nat ->
        detail.s_workers st !! j = Some pj -> detail.s_workers st !! k = Some pk ->
        detail.pc_ix pk <= detail.pc_ix pj /\
        (detail.pc_phase pk <> detail.Waiting -> detail.pc_ix pk < detail.pc_ix pj);
    hs_published : forall k a pc j,
        args !! k = Some a -> detail.s_workers st !! k = Some pc ->
        detail.pipe_out a = Some j ->
        detail.s_pipeline st !! j = Some (published y_size a pc) }.
End handshake_inv.

(** A state three threads reach on the checkerboard: the first worker is
    about to store the pixel [(2, 1)] of its band while the second reads
    the pixel [(0, 1)] of that band. *)
Definition thread_0_first : list nat := replicate 34 0%nat ++ replicate 4 1%nat.

Definition storing_state : detail.sweep_state :=
  Eval vm_compute in
    default (detail.start_state 3 checkerboard_seeded)
      (detail.run checkerboard_mask true 1 8 8 (detail.spawn 8 3) thread_0_first
         (detail.start_state 3 checkerboard_seeded)).

(** A distance no window reaches: an infinity or a NaN. *)
Definition unbounded (d : float) : Prop :=
  Prim2SF d = S754_nan \/ Prim2SF d = S754_infinity false.

(** ** [pyinterp/detail/math/linear.hpp] *)

(** namespace [pyinterp::detail::math]. *)
Module math.

(** [linear]: "Linear interpolation" of the value at [x] between the
    points [(x0, y0)] and [(x1, y1)]; the template at [double]. *)
Definition linear (x x0 x1 y0 y1 : float) : float :=
  let dx := (x1 - x0)%float in
  let t := ((x1 - x) / dx)%float in
  let u := ((x - x0) / dx)%float in
  (t * y0 + u * y1 / (t + u))%float.

End math.

(** * Properties *)

(** ** Matrices *)

Section matrix_facts.
Context {A : Type}.
Implicit Types (m : Matrix A) (ix iy : Z).

Lemma in_range_spec m ix iy :
  in_range m ix iy = true <-> 0 <= ix < rows m /\ 0 <= iy < cols m.
Proof. unfold in_range. rewrite !andb_true_iff. lia. Qed.

Lemma in_range_false m ix iy :
  in_range m ix iy = false <-> ~ (0 <= ix < rows m /\ 0 <= iy < cols m).
Proof. rewrite <- in_range_spec. destruct (in_range m ix iy); intuition congruence. Qed.

Lemma offset_lt m ix iy :
  wf_matrix m -> in_range m ix iy = true ->
  (offset m ix iy < length (coeffs m))%nat.
Proof.
  intros (Hr & Hc & Hlen) Hin%in_range_spec. unfold offset. rewrite Hlen.
  apply Z2Nat.inj_lt; nia.
Qed.

Lemma offset_inj m ix iy ix' iy' :
  in_range m ix iy = true -> in_range m ix' iy' = true ->
  offset m ix iy = offset m ix' iy' -> ix = ix' /\ iy = iy'.
Proof.
  intros H1%in_range_spec H2%in_range_spec Heq. unfold offset in Heq.
  apply Z2Nat.inj in Heq; [| nia | nia].
  assert (iy = iy') by nia. subst. lia.
Qed.

Lemma coeff_in_range m ix iy v :
  coeff m ix iy = Some v -> in_range m ix iy = true.
Proof. unfold coeff. destruct (in_range m ix iy); [done | discriminate]. Qed.

Lemma coeff_out_of_range m ix iy :
  in_range m ix iy = false -> coeff m ix iy = None.
Proof. unfold coeff. by intros ->. Qed.

Lemma coeff_is_Some m ix iy :
  wf_matrix m -> in_range m ix iy = true -> is_Some (coeff m ix iy).
Proof.
  intros Hwf Hin. unfold coeff. rewrite Hin.
  apply lookup_lt_is_Some. by apply offset_lt.
Qed.

Lemma set_coeff_shape m ix iy v m' :
  set_coeff m ix iy v = Some m' ->
  rows m' = rows m /\ cols m' = cols m /\
  length (coeffs m') = length (coeffs m).
Proof.
  unfold set_coeff. case_match; [| discriminate].
  intros [= <-]. simpl. by rewrite length_insert.
Qed.

Lemma set_coeff_in_range m ix iy v m' :
  set_coeff m ix iy v = Some m' -> in_range m ix iy = true.
Proof.
  unfold set_coeff. destruct (in_range m ix iy); [done | discriminate].
Qed.

Lemma set_coeff_wf m ix iy v m' :
  set_coeff m ix iy v = Some m' -> wf_matrix m -> wf_matrix m'.
Proof.
  intros (Hr & Hc & Hl)%set_coeff_shape. unfold wf_matrix.
  rewrite Hr, Hc, Hl. done.
Qed.

Lemma set_coeff_is_Some m ix iy v :
  wf_matrix m -> in_range m ix iy = true -> is_Some (set_coeff m ix iy v).
Proof.
  intros Hwf Hin. unfold set_coeff. rewrite Hin.
  pose proof (offset_lt m ix iy Hwf Hin) as Hlt.
  apply Nat.ltb_lt in Hlt. rewrite Hlt. simpl. eauto.
Qed.

Lemma coeff_set_eq m ix iy v m' :
  set_coeff m ix iy v = Some m' -> coeff m' ix iy = Some v.
Proof.
  unfold set_coeff. case_match eqn:Hc; [| discriminate].
  apply andb_true_iff in Hc as [Hin Hlt%Nat.ltb_lt].
  intros [= <-]. unfold coeff, in_range, offset in *. simpl.
  rewrite Hin. by apply list_lookup_insert_eq.
Qed.

Lemma coeff_set_ne m ix iy v m' ix' iy' :
  set_coeff m ix iy v = Some m' -> (ix', iy') <> (ix, iy) ->
  coeff m' ix' iy' = coeff m ix' iy'.
Proof.
  unfold set_coeff. case_match eqn:Hc; [| discriminate].
  apply andb_true_iff in Hc as [Hin Hlt%Nat.ltb_lt].
  intros [= <-] Hne. unfold coeff. 
  change (in_range (mkMatrix (rows m) (cols m) (<[offset m ix iy:=v]> (coeffs m))) ix' iy')
    with (in_range m ix' iy').
  destruct (in_range m ix' iy') eqn:Hin'; [| done].
  change (offset (mkMatrix (rows m) (cols m) (<[offset m ix iy:=v]> (coeffs m))) ix' iy')
    with (offset m ix' iy'). simpl.
  apply list_lookup_insert_ne. intros Heq.
  destruct (offset_inj m ix iy ix' iy' Hin Hin' Heq). congruence.
Qed.

(** Two well-formed matrices of one shape with the same coefficients are
    the same matrix. *)
Lemma matrix_ext m m' :
  wf_matrix m -> wf_matrix m' ->
  rows m' = rows m -> cols m' = cols m ->
  (forall ix iy, in_range m ix iy = true -> coeff m' ix iy = coeff m ix iy) ->
  m' = m.
Proof.
  intros (Hr & Hc & Hl) (Hr' & Hc' & Hl') Hrows Hcols Hco.
  destruct m as [r c l], m' as [r' c' l']. simpl in *. subst r' c'.
  f_equal. apply list_eq. intros i.
  destruct (decide (i < length l)%nat) as [Hi | Hi].
  - assert (0 < r) by (destruct (decide (0 < r)); [done | ];
      rewrite Hl in Hi; assert (r * c <= 0) by nia; lia).
    set (ix := Z.of_nat i mod r). set (iy := Z.of_nat i / r).
    assert (Hdm : Z.of_nat i = ix + iy * r).
    { unfold ix, iy. rewrite (Z.div_mod (Z.of_nat i) r) at 1 by lia. lia. }
    assert (0 <= ix < r) by (apply Z.mod_pos_bound; lia).
    assert (0 <= iy) by (apply Z.div_pos; lia).
    assert (iy < c).
    { rewrite Hl in Hi. apply Z.div_lt_upper_bound; [lia |]. nia. }
    specialize (Hco ix iy).
    unfold coeff, in_range, offset in Hco. simpl in Hco.
    assert (Hb : (0 <=? ix) && (ix <? r) && (0 <=? iy) && (iy <? c) = true).
    { rewrite !andb_true_iff. lia. }
    rewrite Hb in Hco. specialize (Hco eq_refl).
    rewrite <- Hdm, Nat2Z.id in Hco. done.
  - rewrite !lookup_ge_None_2; [done | lia | lia].
Qed.
End matrix_facts.

(** ** The order of binary64 floats *)

Lemma SFltb_trans a b c : SFltb a b = true -> SFltb b c = true -> SFltb a c = true.
Proof.
  unfold SFltb.
  destruct a as [[]|[]| |[] ma ea], b as [[]|[]| |[] mb eb], c as [[]|[]| |[] mc ec];
    simpl; try discriminate; try reflexivity;
    rewrite ?Pos.compare_cont_spec; simpl;
    destruct (Z.compare_spec ea eb), (Z.compare_spec eb ec), (Z.compare_spec ea ec);
    simpl; try discriminate; try reflexivity; try lia; subst;
    destruct (Pos.compare_spec ma mb), (Pos.compare_spec mb mc), (Pos.compare_spec ma mc);
    simpl; try discriminate; try reflexivity; lia.
Qed.

Lemma SFltb_irrefl a : SFltb a a = false.
Proof.
  unfold SFltb. destruct a as [[]|[]| |[] m e]; simpl; try reflexivity;
    rewrite Z.compare_refl, Pos.compare_cont_refl; reflexivity.
Qed.

Lemma ltb_trans (x y z : float) :
  (x <? y)%float = true -> (y <? z)%float = true -> (x <? z)%float = true.
Proof. rewrite !FloatAxioms.ltb_spec. apply SFltb_trans. Qed.

Lemma ltb_irrefl (x : float) : (x <? x)%float = false.
Proof. rewrite FloatAxioms.ltb_spec. apply SFltb_irrefl. Qed.

Lemma is_nan_spec (x : float) : is_nan x = true <-> Prim2SF x = S754_nan.
Proof.
  unfold is_nan. rewrite FloatAxioms.eqb_spec. unfold SFeqb.
  destruct (Prim2SF x) as [[]|[]| |[] m e]; simpl;
    rewrite ?Z.compare_refl, ?Pos.compare_cont_refl; simpl; split; congruence.
Qed.

Lemma ltb_not_nan (x y : float) :
  (x <? y)%float = true -> is_nan x = false /\ is_nan y = false.
Proof.
  rewrite FloatAxioms.ltb_spec. intros H.
  split; apply not_true_is_false; rewrite is_nan_spec; intros E; rewrite E in H;
    unfold SFltb in H; simpl in H; [| destruct (Prim2SF x)]; discriminate.
Qed.

Lemma fabs_idem (x : float) : fabs (fabs x) = fabs x.
Proof.
  unfold fabs. apply Prim2SF_inj. rewrite !abs_spec.
  destruct (Prim2SF x); reflexivity.
Qed.

Lemma magnitude_zero : magnitude 0%float.
Proof. split; reflexivity. Qed.

Lemma magnitude_fabs (x : float) : is_nan (fabs x) = false -> magnitude (fabs x).
Proof. intros H. split; [apply fabs_idem | done]. Qed.

Lemma magnitude_eq (x y : float) :
  magnitude x -> magnitude y ->
  (x <? y)%float = false -> (y <? x)%float = false -> x = y.
Proof.
  intros [Hx Nx] [Hy Ny]. rewrite !FloatAxioms.ltb_spec.
  apply not_true_iff_false in Nx, Ny. rewrite is_nan_spec in Nx, Ny.
  unfold fabs in *. apply (f_equal Prim2SF) in Hx, Hy. rewrite abs_spec in Hx, Hy.
  intros H1 H2. apply Prim2SF_inj. revert Hx Hy Nx Ny H1 H2. unfold SFltb.
  destruct (Prim2SF x) as [[]|[]| |[] mx ex], (Prim2SF y) as [[]|[]| |[] my ey];
    simpl; try discriminate; try congruence; intros _ _ _ _.
  rewrite !Pos.compare_cont_spec. simpl.
  destruct (Z.compare_spec ex ey), (Z.compare_spec ey ex); try discriminate; try lia.
  subst. destruct (Pos.compare_spec mx my), (Pos.compare_spec my mx);
    simpl; try discriminate; try lia. congruence.
Qed.

Lemma magnitude_nonneg (x y : float) :
  magnitude x -> magnitude y -> (x <? y)%float = false -> (y <? x)%float = true \/ x = y.
Proof.
  intros Hx Hy H. destruct (y <? x)%float eqn:E; [by left | right].
  by apply magnitude_eq.
Qed.

Lemma magnitude_le_lt (x y z : float) :
  magnitude y -> magnitude z ->
  (x <? y)%float = true -> (z <? y)%float = false -> (x <? z)%float = true.
Proof.
  intros Hy Hz Hxy Hzy.
  destruct (magnitude_nonneg z y Hz Hy Hzy) as [H | ->]; [| done].
  by apply ltb_trans with y.
Qed.

Lemma std_max_magnitude (m r : float) :
  magnitude m -> magnitude (std_max m (fabs r)).
Proof.
  intros Hm. unfold std_max. destruct (m <? fabs r)%float eqn:E; [| done].
  apply magnitude_fabs. by apply ltb_not_nan in E as [_ ?].
Qed.

Lemma std_max_cases (m v : float) : std_max m v = m \/ std_max m v = v.
Proof. unfold std_max. destruct (m <? v)%float; auto. Qed.

Lemma std_max_ge_l (M m v : float) :
  (M <? std_max m v)%float = false -> (M <? m)%float = false.
Proof.
  unfold std_max. destruct (m <? v)%float eqn:E; [| done].
  intros H. apply not_true_is_false. intros H'.
  by rewrite (ltb_trans _ _ _ H' E) in H.
Qed.

Lemma std_max_ge_r (M m r : float) :
  magnitude m ->
  (M <? std_max m (fabs r))%float = false -> (M <? fabs r)%float = false.
Proof.
  intros Hm. unfold std_max. destruct (m <? fabs r)%float eqn:E; [done |].
  intros H. apply not_true_is_false. intros H'.
  assert (magnitude (fabs r)) by (apply magnitude_fabs; by apply ltb_not_nan in H' as [_ ?]).
  by rewrite (magnitude_le_lt M (fabs r) m) in H.
Qed.

(** ** Loops and the order of the scan *)

Lemma for_n_each {S : Type} n i (body : Z -> S -> option S) s :
  for_n n i body s = for_each (zrange i n) body s.
Proof.
  revert i s. induction n as [| n IH]; intros i s; simpl; [done |].
  destruct (body i s); simpl; [apply IH | done].
Qed.

Lemma for_each_app {A S : Type} (l1 l2 : list A) (body : A -> S -> option S) s :
  for_each (l1 ++ l2) body s = s' ← for_each l1 body s; for_each l2 body s'.
Proof.
  revert s. induction l1 as [| a l1 IH]; intros s; simpl; [done |].
  destruct (body a s); simpl; [apply IH | done].
Qed.

Lemma for_each_fmap {A B S : Type} (f : A -> B) l (body : B -> S -> option S) s :
  for_each (f <$> l) body s = for_each l (fun a => body (f a)) s.
Proof.
  revert s. induction l as [| a l IH]; intros s; simpl; [done |].
  destruct (body (f a) s); simpl; [apply IH | done].
Qed.

Lemma for_each_bind {A B S : Type} (f : A -> list B) l (body : B -> S -> option S) s :
  for_each (l ≫= f) body s = for_each l (fun a => for_each (f a) body) s.
Proof.
  revert s. induction l as [| a l IH]; intros s; simpl; [done |].
  rewrite for_each_app. destruct (for_each (f a) body s); simpl; [apply IH | done].
Qed.

Lemma for_each_ext {A S : Type} (l : list A) (body body' : A -> S -> option S) s :
  (forall a s, a ∈ l -> body a s = body' a s) ->
  for_each l body s = for_each l body' s.
Proof.
  revert s. induction l as [| a l IH]; intros s H; simpl; [done |].
  rewrite H by left. destruct (body' a s); simpl; [| done].
  apply IH. intros. apply H. by right.
Qed.

Lemma elem_of_zrange i n k : k ∈ zrange i n <-> i <= k < i + Z.of_nat n.
Proof.
  revert i. induction n as [| n IH]; intros i; simpl.
  - rewrite elem_of_nil. lia.
  - rewrite elem_of_cons, IH. lia.
Qed.

Lemma elem_of_scan x_size y_start y_end c :
  c ∈ scan x_size y_start y_end <->
  0 <= c.1 < x_size /\ y_start <= c.2 < y_end.
Proof.
  unfold scan. rewrite list_elem_of_bind. split.
  - intros (ix & Hc & Hix). apply list_elem_of_fmap in Hc as (iy & -> & Hiy).
    apply elem_of_zrange in Hix, Hiy. simpl. lia.
  - intros [Hx Hy]. exists c.1. split.
    + apply list_elem_of_fmap. exists c.2. split; [by destruct c |].
      apply elem_of_zrange. lia.
    + apply elem_of_zrange. lia.
Qed.

Lemma earlier_irrefl c : earlier c c = false.
Proof. unfold earlier. lia. Qed.

Lemma earlier_asym n c : earlier n c = true -> earlier c n = false.
Proof. unfold earlier. lia. Qed.

Lemma ascending_app l1 l2 :
  ascending l1 -> ascending l2 ->
  (forall a b, a ∈ l1 -> b ∈ l2 -> earlier a b = true) ->
  ascending (l1 ++ l2).
Proof.
  induction l1 as [| a l1 IH]; intros H1 H2 H; simpl; [done |].
  destruct H1 as [Ha H1]. split.
  - apply Forall_app. split; [done |].
    apply Forall_forall. intros b Hb. apply H; [by left | done].
  - apply IH; [done | done |]. intros. apply H; [by right | done].
Qed.

Lemma ascending_row ix iy n : ascending ((fun iy => (ix, iy)) <$> zrange iy n).
Proof.
  revert iy. induction n as [| n IH]; intros iy; simpl; [done |].
  split; [| apply IH].
  apply Forall_forall. intros c (iy' & -> & H%elem_of_zrange)%list_elem_of_fmap.
  unfold earlier. simpl. lia.
Qed.

Lemma ascending_rows ix n iy m :
  ascending (zrange ix n ≫= fun ix => (fun iy => (ix, iy)) <$> zrange iy m).
Proof.
  revert ix. induction n as [| n IH]; intros ix; simpl; [done |].
  apply ascending_app; [apply ascending_row | apply IH |].
  intros a b (ya & -> & _)%list_elem_of_fmap Hb.
  apply list_elem_of_bind in Hb as (ix' & (yb & -> & _)%list_elem_of_fmap & Hx%elem_of_zrange).
  unfold earlier. simpl. lia.
Qed.

Lemma ascending_scan x_size y_start y_end : ascending (scan x_size y_start y_end).
Proof. apply ascending_rows. Qed.

Lemma same_shape_in_range {A B : Type} (m : Matrix A) (m' : Matrix B) ix iy :
  same_shape m m' -> in_range m ix iy = in_range m' ix iy.
Proof. intros (Hr & Hc & _). unfold in_range. by rewrite Hr, Hc. Qed.

Lemma same_shape_wf {A B : Type} (m : Matrix A) (m' : Matrix B) :
  same_shape m m' -> wf_matrix m' -> wf_matrix m.
Proof. intros (Hr & Hc & Hl). unfold wf_matrix. by rewrite Hr, Hc, Hl. Qed.

(** Two matrices of the shape of a third have the same shape. *)
Lemma same_shape_common {A B C : Type} (m1 : Matrix A) (m2 : Matrix B) (m3 : Matrix C) :
  same_shape m1 m3 -> same_shape m2 m3 -> same_shape m1 m2.
Proof. intros (? & ? & ?) (? & ? & ?). repeat split; congruence. Qed.

(** ** The sequential sweep *)

Section sequential.
Variables (mask : Matrix bool) (is_circle : bool) (relaxation : float).
Variables (x_size y_size : Z).

Abbreviation visit := (detail.visit mask is_circle relaxation x_size y_size).
Abbreviation ix0 := (detail.ix0 is_circle x_size).
Abbreviation ix1 := (detail.ix1 is_circle x_size).
Abbreviation iy1 := (detail.iy1 y_size).
Abbreviation residual_of := (detail.residual_of relaxation).
Abbreviation residual_at := (residual_at is_circle relaxation x_size y_size).
Abbreviation relaxed_cell := (relaxed_cell mask is_circle relaxation x_size y_size).
Abbreviation max_residual_over := (max_residual_over mask is_circle relaxation x_size y_size).

(** What a visit of a pixel reads and writes. *)
Lemma visit_eq ix iy cur m :
  visit ix iy (cur, m) =
  match coeff mask ix iy with
  | Some true =>
      left ← coeff cur (ix0 ix) iy;
      right ← coeff cur (ix1 ix) iy;
      below ← coeff cur ix (detail.iy0 iy);
      above ← coeff cur ix (iy1 iy);
      current ← coeff cur ix iy;
      grid' ← set_coeff cur ix iy
                (current + residual_of left right below above current)%float;
      Some (grid', std_max m (fabs (residual_of left right below above current)))
  | Some false => Some (cur, m)
  | None => None
  end.
Proof. unfold detail.visit, detail.cell_fill. by destruct (coeff mask ix iy) as [[] |]. Qed.

Lemma visit_frame ix iy cur m cur' m' :
  visit ix iy (cur, m) = Some (cur', m') ->
  same_shape cur' cur /\ forall n, n <> (ix, iy) -> at_ cur' n = at_ cur n.
Proof.
  rewrite visit_eq. destruct (coeff mask ix iy) as [[] |]; [| | done].
  - intros H. simplify_option_eq. split.
    + by eapply set_coeff_shape.
    + intros [nx ny] Hn. unfold at_. simpl. by eapply coeff_set_ne.
  - intros [= <- <-]. done.
Qed.

Lemma residual_at_frame cur cur' after c0 c :
  (forall n, n <> c0 -> at_ cur' n = at_ cur n) ->
  earlier c0 c = true ->
  residual_at cur' after c = residual_at cur after c.
Proof.
  intros Hfr Hc0.
  assert (Hseen : forall n, seen cur' after c n = seen cur after c n).
  { intros n. unfold seen. destruct (earlier n c) eqn:E; [done |].
    apply Hfr. intros ->. congruence. }
  unfold residual_at. rewrite !Hseen, Hfr; [done |].
  intros ->. by rewrite earlier_irrefl in Hc0.
Qed.

(** The sweep from any point on: the pixels still to come are relaxed,
    the others are left alone, and the running maximum ends as the
    largest absolute residual. *)
Lemma sweep_suffix l :
  ascending l ->
  forall cur m after r,
    magnitude m ->
    for_each l (fun c => visit c.1 c.2) (cur, m) = Some (after, r) ->
    same_shape after cur /\
    (forall n, n ∉ l -> at_ after n = at_ cur n) /\
    (forall c, c ∈ l -> relaxed_cell cur after c) /\
    max_residual_over cur after (fun c => c ∈ l) m r.
Proof.
  induction l as [| c0 l IH]; intros Hasc cur m after r Hm Hrun.
  { simpl in Hrun. injection Hrun as <- <-. split; [done |].
    split; [done |]. split; [by intros c H%elem_of_nil |].
    split; [done |]. split; [by left |]. split; [apply ltb_irrefl |].
    by intros c ? H%elem_of_nil. }
  destruct Hasc as [Hc0 Hasc]. rewrite Forall_forall in Hc0.
  simpl in Hrun.
  destruct (visit c0.1 c0.2 (cur, m)) as [[cur1 m1] |] eqn:Hv; [| done].
  simpl in Hrun.
  assert (Hc0l : c0 ∉ l).
  { intros H%Hc0. by rewrite earlier_irrefl in H. }
  assert (Hbefore : forall n, earlier n c0 = true -> n ∉ c0 :: l).
  { intros n Hn [-> | H%Hc0]%elem_of_cons.
    - by rewrite earlier_irrefl in Hn.
    - apply earlier_asym in H. congruence. }
  destruct (visit_frame _ _ _ _ _ _ Hv) as [Hsh1 Hfr1].
  replace (c0.1, c0.2) with c0 in Hfr1 by by destruct c0.
  assert (Hm1 : magnitude m1).
  { rewrite visit_eq in Hv. destruct (coeff mask c0.1 c0.2) as [[] |]; [| | done].
    - simplify_option_eq. by apply std_max_magnitude.
    - by injection Hv as <- <-. }
  destruct (IH Hasc cur1 m1 after r Hm1 Hrun) as (Hsh & Hfr & Hrel & Hmax).
  assert (Hfr0 : forall n, n ∉ c0 :: l -> at_ after n = at_ cur n).
  { intros n [Hn0 Hnl]%not_elem_of_cons. rewrite Hfr by done. by apply Hfr1. }
  assert (Hres : forall c, c ∈ l -> residual_at cur1 after c = residual_at cur after c).
  { intros c Hc. apply residual_at_frame with c0; [done | by apply Hc0]. }
  (* the pixel visited first *)
  assert (Hseen0 : forall n, seen cur after c0 n = at_ cur n).
  { intros n. unfold seen. destruct (earlier n c0) eqn:E; [| done].
    by apply Hfr0, Hbefore. }
  assert (Hrel0 : relaxed_cell cur after c0 /\
                 match at_ mask c0 with
                 | Some true =>
                     exists residual, residual_at cur after c0 = Some residual /\
                                      m1 = std_max m (fabs residual)
                 | _ => m1 = m
                 end).
  { unfold relaxed_cell. rewrite visit_eq in Hv.
    change (coeff mask c0.1 c0.2) with (at_ mask c0) in Hv.
    destruct (at_ mask c0) as [[] |]; [| | done].
    - simplify_option_eq.
      match goal with
      | H : set_coeff _ _ _ (?v + ?rho)%float = Some _ |- _ =>
          assert (Hr0 : residual_at cur after c0 = Some rho)
      end.
      { unfold residual_at. rewrite !Hseen0. unfold at_; simpl.
        by simplify_option_eq. }
      split.
      + eexists _, _. split; [exact Hr0 |]. split; [done |].
        rewrite Hfr by done. unfold at_. by eapply coeff_set_eq.
      + eexists. by split.
    - injection Hv as <- <-. split; [| done].
      rewrite Hfr by done. done. }
  destruct Hrel0 as [Hrel0 Hm1eq].
  split; [| split; [| split]].
  - destruct Hsh as (? & ? & ?), Hsh1 as (? & ? & ?). repeat split; congruence.
  - exact Hfr0.
  - intros c [-> | Hc]%elem_of_cons; [done |].
    specialize (Hrel c Hc). unfold relaxed_cell in *.
    destruct (at_ mask c) as [[] |]; [| | done].
    + destruct Hrel as (rho & v & H1 & H2 & H3). exists rho, v.
      rewrite <- Hres by done. split; [done |]. split; [| done].
      rewrite <- Hfr1; [done |]. intros ->. done.
    + rewrite Hrel. apply Hfr1. intros ->. done.
  - destruct Hmax as (Hmag & Hwit & Hge & Hall). split; [done |].
    split; [| split].
    + destruct Hwit as [-> | (c & rho & Hc & Hmc & Hrc & ->)].
      * destruct (at_ mask c0) as [[] |] eqn:Hmc0; [| by left | by left].
        destruct Hm1eq as (rho & Hrc & ->).
        destruct (std_max_cases m (fabs rho)) as [-> | ->]; [by left |].
        right. exists c0, rho. split; [by left | done].
      * right. exists c, rho. split; [by right |].
        rewrite <- Hres by done. done.
    + destruct (at_ mask c0) as [[] |]; [| by subst | by subst].
      destruct Hm1eq as (rho & _ & ->). by eapply std_max_ge_l.
    + intros c rho [-> | Hc]%elem_of_cons Hmc Hrc.
      * rewrite Hmc in Hm1eq. destruct Hm1eq as (rho' & Hrc' & ->).
        assert (rho' = rho) as -> by congruence.
        eapply std_max_ge_r; [exact Hm | exact Hge].
      * apply (Hall c rho); [done | done |]. by rewrite Hres.
Qed.

End sequential.

Lemma magnitude_not_neg (v : float) : magnitude v -> (v <? 0)%float = false.
Proof.
  intros [Hv Nv]. rewrite FloatAxioms.ltb_spec.
  apply not_true_iff_false in Nv. rewrite is_nan_spec in Nv.
  unfold fabs in Hv. apply (f_equal Prim2SF) in Hv. rewrite abs_spec in Hv.
  change (Prim2SF 0) with (S754_zero false).
  revert Hv Nv. by destruct (Prim2SF v) as [[] | [] | | [] mv ev].
Qed.

Lemma std_max_ub (m v x : float) :
  (m <? x)%float = false -> (std_max m v <? x)%float = false.
Proof.
  intros Hm. unfold std_max. destruct (m <? v)%float eqn:E; [| done].
  apply not_true_is_false. intros H. by rewrite (ltb_trans _ _ _ E H) in Hm.
Qed.

Lemma std_max_self (m v : float) : (std_max m v <? v)%float = false.
Proof.
  unfold std_max. destruct (m <? v)%float eqn:E; [apply ltb_irrefl | done].
Qed.

Lemma max_residual_over_ext mask is_circle relaxation x_size y_size before after
    (P P' : Z * Z -> Prop) m0 m :
  (forall c, P c <-> P' c) ->
  max_residual_over mask is_circle relaxation x_size y_size before after P m0 m ->
  max_residual_over mask is_circle relaxation x_size y_size before after P' m0 m.
Proof.
  intros HP (Hm & Hw & H0 & Hall). split; [done |]. split; [| split; [done |]].
  - destruct Hw as [-> | (c & r & Hc & ?)]; [by left | right].
    exists c, r. by rewrite <- HP.
  - intros c r Hc. apply Hall. by rewrite HP.
Qed.

(** ** The threads of the parallel sweep *)

Lemma bands_ordered args y_size j k a b :
  bands_ok args y_size -> (j < k)%nat ->
  args !! j = Some a -> args !! k = Some b ->
  detail.y_end a <= detail.y_start b.
Proof.
  intros (Hb & Hadj & _) Hjk Ha. revert b.
  induction k as [| k IH]; intros b Hk; [lia |].
  destruct (decide (j = k)) as [-> | Hne].
  - by rewrite (Hadj _ _ _ Ha Hk).
  - destruct (lookup_lt_is_Some_2 args k) as [b' Hb'].
    { apply lookup_lt_Some in Hk. lia. }
    specialize (IH ltac:(lia) b' Hb').
    rewrite <- (Hadj _ _ _ Hb' Hk). destruct (Hb _ _ Hb'). lia.
Qed.

Lemma bands_disjoint args y_size j k a b iy :
  bands_ok args y_size ->
  args !! j = Some a -> args !! k = Some b ->
  detail.y_start a <= iy < detail.y_end a ->
  detail.y_start b <= iy < detail.y_end b ->
  j = k.
Proof.
  intros Hb Ha Hk Hia Hib.
  destruct (lt_eq_lt_dec j k) as [[Hlt | ->] | Hlt]; [| done |].
  - pose proof (bands_ordered _ _ _ _ _ _ Hb Hlt Ha Hk). lia.
  - pose proof (bands_ordered _ _ _ _ _ _ Hb Hlt Hk Ha). lia.
Qed.

Lemma lookup_insert_inv {A : Type} (l : list A) k x j y :
  <[k := x]> l !! j = Some y ->
  (j = k /\ y = x) \/ (j <> k /\ l !! j = Some y).
Proof.
  intros H. destruct (decide (j = k)) as [-> | Hne].
  - left. split; [done |].
    rewrite list_lookup_insert_eq in H; [congruence |].
    apply lookup_lt_Some in H. by rewrite length_insert in H.
  - right. split; [done |]. by rewrite list_lookup_insert_ne in H.
Qed.

Lemma total_remaining_insert x_size args workers k a pc pc' :
  args !! k = Some a -> workers !! k = Some pc ->
  total_remaining x_size args (<[k := pc']> workers) =
  total_remaining x_size args workers - remaining x_size a pc + remaining x_size a pc'.
Proof.
  revert workers k. induction args as [| a0 args IH]; intros [| pc0 workers] [| k];
    simpl; try done.
  - intros [= ->] [= ->]. lia.
  - intros Ha Hk. rewrite (IH _ _ Ha Hk). lia.
Qed.

Lemma total_remaining_nonneg x_size args workers :
  (forall k a pc, args !! k = Some a -> workers !! k = Some pc ->
     0 <= remaining x_size a pc) ->
  0 <= total_remaining x_size args workers.
Proof.
  revert workers. induction args as [| a args IH]; intros [| pc workers] H;
    simpl; try lia.
  pose proof (H 0%nat a pc eq_refl eq_refl).
  specialize (IH workers (fun k => H (S k))). lia.
Qed.

Lemma total_remaining_lookup x_size args workers k a pc :
  (forall k a pc, args !! k = Some a -> workers !! k = Some pc ->
     0 <= remaining x_size a pc) ->
  args !! k = Some a -> workers !! k = Some pc ->
  remaining x_size a pc <= total_remaining x_size args workers.
Proof.
  revert workers k. induction args as [| a0 args IH]; intros [| pc0 workers] [| k] H;
    simpl; try done.
  - intros [= ->] [= ->].
    pose proof (total_remaining_nonneg x_size args workers (fun k => H (S k))). lia.
  - intros Ha Hk. pose proof (H 0%nat a0 pc0 eq_refl eq_refl).
    specialize (IH workers k (fun k => H (S k)) Ha Hk). lia.
Qed.

Lemma total_remaining_bound x_size args workers b :
  0 <= b ->
  (forall k a pc, args !! k = Some a -> workers !! k = Some pc ->
     remaining x_size a pc <= b) ->
  total_remaining x_size args workers <= Z.of_nat (length args) * b.
Proof.
  intros Hb. revert workers. induction args as [| a args IH]; intros [| pc workers] H;
    simpl length; simpl total_remaining; try nia.
  pose proof (H 0%nat a pc eq_refl eq_refl).
  specialize (IH workers (fun k => H (S k))). nia.
Qed.

Lemma fold_std_max_elem l x : fold_left std_max l x ∈ x :: l.
Proof.
  revert x. induction l as [| a l IH]; intros x; simpl; [by left |].
  specialize (IH (std_max x a)). apply elem_of_cons in IH as [-> | IH].
  - destruct (std_max_cases x a) as [-> | ->]; [left | right; left]; done.
  - by do 2 right.
Qed.

Lemma fold_std_max_ub l x m :
  Forall magnitude (x :: l) -> m ∈ x :: l ->
  (fold_left std_max l x <? m)%float = false.
Proof.
  revert x m. induction l as [| a l IH]; intros x m Hall Hm; simpl.
  - apply list_elem_of_singleton in Hm as ->. apply ltb_irrefl.
  - apply Forall_cons in Hall as [Hx Hall]. apply Forall_cons in Hall as [Ha Hall].
    assert (Hxa : magnitude (std_max x a)).
    { destruct (std_max_cases x a) as [-> | ->]; done. }
    assert (IH' : forall m', m' ∈ std_max x a :: l ->
      (fold_left std_max l (std_max x a) <? m')%float = false).
    { intros m' H. apply IH; [by apply Forall_cons | done]. }
    apply elem_of_cons in Hm as [-> | [-> | Hm]%elem_of_cons].
    + eapply std_max_ge_l. apply IH'. by left.
    + destruct Ha as [Habs _]. rewrite <- Habs.
      apply std_max_ge_r with x; [done |]. rewrite Habs. apply IH'. by left.
    + apply IH'. by right.
Qed.

Lemma max_residual_over_unique mask is_circle relaxation x_size y_size before after
    (P : Z * Z -> Prop) r r' :
  max_residual_over mask is_circle relaxation x_size y_size before after P 0%float r ->
  max_residual_over mask is_circle relaxation x_size y_size before after P 0%float r' ->
  r = r'.
Proof.
  intros (Hm & Hw & H0 & Hall) (Hm' & Hw' & H0' & Hall').
  apply magnitude_eq; [done | done | |].
  - destruct Hw' as [-> | (c & rho & Hc & Hmc & Hrc & ->)]; [done |]. by eapply Hall.
  - destruct Hw as [-> | (c & rho & Hc & Hmc & Hrc & ->)]; [done |]. by eapply Hall'.
Qed.

Section pipeline.
Variables (mask : Matrix bool) (is_circle : bool) (relaxation : float).
Variables (x_size y_size : Z) (args : list detail.worker_args).
Variables (before after : Matrix float).

Hypothesis Hwf : wf_matrix before.
Hypothesis Hrows : rows before = x_size.
Hypothesis Hcols : cols before = y_size.
Hypothesis Hafter : same_shape after before.
Hypothesis Hbands : bands_ok args y_size.
Hypothesis Hrelaxed : forall c,
  0 <= c.1 < x_size -> 0 <= c.2 < y_size ->
  relaxed_cell mask is_circle relaxation x_size y_size before after c.

Abbreviation inv := (sweep_inv mask is_circle relaxation x_size y_size args before after).
Abbreviation ok_pc := (pc_ok mask is_circle relaxation x_size y_size before after).
Abbreviation values_ok := (loaded_ok is_circle x_size y_size before after).
Abbreviation operands := (detail.operands is_circle x_size y_size).
Abbreviation residual := (residual_at is_circle relaxation x_size y_size before after).
Abbreviation step := (detail.thread_step mask is_circle relaxation x_size y_size args).
Abbreviation band a c := (detail.y_start a <= c.2 < detail.y_end a).
Abbreviation max_over :=
  (max_residual_over mask is_circle relaxation x_size y_size before after).

(** The state after a step of thread [k] that takes its worker from
    [pc] to [pc'] satisfies the invariant again, provided the step kept
    the thread behind its predecessors and touched its own band only. *)
Lemma inv_update st k a pc pc' grid' pipeline' :
  inv st ->
  args !! k = Some a -> detail.s_workers st !! k = Some pc ->
  ok_pc a pc' ->
  detail.pc_ix pc <= detail.pc_ix pc' ->
  (forall j pj, (j < k)%nat -> detail.s_workers st !! j = Some pj ->
     detail.pc_ix pc' <= detail.pc_ix pj /\
     (detail.pc_phase pc' <> detail.Waiting -> detail.pc_ix pc' < detail.pc_ix pj)) ->
  length pipeline' = length args ->
  (forall j, detail.pipe_out a = Some j ->
     pipeline' !! j = Some (published y_size a pc')) ->
  (forall j, detail.pipe_out a <> Some j ->
     pipeline' !! j = detail.s_pipeline st !! j) ->
  same_shape grid' before ->
  (forall c, 0 <= c.1 < x_size -> band a c ->
     at_ grid' c = if treated pc' c then at_ after c else at_ before c) ->
  (forall c, ~ band a c -> at_ grid' c = at_ (detail.s_grid st) c) ->
  max_over (fun c => (0 <= c.1 < x_size /\ band a c) /\ treated pc' c = true)
    0%float (detail.pc_max_residual pc') ->
  inv (detail.mkSweep grid' (<[k := pc']> (detail.s_workers st)) pipeline').
Proof.
  intros [Hlw Hlp Hsh Hpc Hord Hpub Hgrid Hmax] Ha Hk Hok Hmono Hpred Hlen
    Hout Hkeep Hshape Hin Hother Hmax'.
  constructor; simpl.
  - by rewrite length_insert.
  - done.
  - done.
  - intros k' a' q Ha' [[-> ->] | [Hne Hq]]%lookup_insert_inv.
    + assert (a' = a) as -> by congruence. done.
    + by eapply Hpc.
  - intros j' k' pj pk Hlt [[-> ->] | [Hnej Hj]]%lookup_insert_inv
      [[-> ->] | [Hnek Hk']]%lookup_insert_inv.
    + lia.
    + destruct (Hord _ _ _ _ Hlt Hk Hk') as [H1 H2]. split; [lia |].
      intros Hw. specialize (H2 Hw). lia.
    + by apply Hpred with j'.
    + by eapply Hord.
  - intros k' a' q j Ha' [[-> ->] | [Hne Hq]]%lookup_insert_inv Hj.
    + assert (a' = a) as -> by congruence. by apply Hout.
    + rewrite Hkeep; [by eapply Hpub |].
      intros Hj'. destruct Hbands as (Hb & _).
      destruct (Hb _ _ Ha) as (_ & _ & _ & Ho), (Hb _ _ Ha') as (_ & _ & _ & Ho').
      rewrite Ho in Hj'. rewrite Ho' in Hj.
      repeat case_decide; congruence.
  - intros k' a' q c Ha' [[-> ->] | [Hne Hq]]%lookup_insert_inv Hx Hy.
    + assert (a' = a) as -> by congruence. by apply Hin.
    + rewrite Hother; [by eapply Hgrid |].
      intros Hy'. apply Hne. by eapply bands_disjoint.
  - intros k' a' q Ha' [[-> ->] | [Hne Hq]]%lookup_insert_inv.
    + assert (a' = a) as -> by congruence. done.
    + by eapply Hmax.
Qed.

Lemma in_grid n v :
  at_ before n = Some v \/ at_ after n = Some v ->
  0 <= n.1 < x_size /\ 0 <= n.2 < y_size.
Proof.
  unfold at_. intros [H | H]; apply coeff_in_range in H.
  - apply in_range_spec in H. lia.
  - rewrite (same_shape_in_range _ _ _ _ Hafter) in H.
    apply in_range_spec in H. lia.
Qed.

Lemma pc_ok_cell a pc iy :
  ok_pc a pc -> phase_iy (detail.pc_phase pc) = Some iy ->
  detail.pc_phase pc <> detail.Waiting /\
  detail.pc_ix pc < x_size /\ detail.y_start a <= iy <= detail.y_end a.
Proof.
  intros [_ H] Hiy.
  destruct (detail.pc_phase pc); simpl in Hiy; [done | ..]; injection Hiy as ->;
    (split; [done |]);
    [| destruct H as ((? & ?) & _) | destruct H as ((? & ?) & _)]; lia.
Qed.

(** A worker in its inner loop finds in the pixels of its line and of
    its column what the single-threaded sweep finds there. *)
Lemma grid_seen st k a pc iy n :
  inv st ->
  args !! k = Some a -> detail.s_workers st !! k = Some pc ->
  phase_iy (detail.pc_phase pc) = Some iy -> iy < detail.y_end a ->
  n.2 = iy \/ n.1 = detail.pc_ix pc ->
  0 <= n.1 < x_size -> 0 <= n.2 < y_size ->
  at_ (detail.s_grid st) n = seen before after (detail.pc_ix pc, iy) n.
Proof.
  intros [Hlw Hlp Hsh Hpcs Hord Hpub Hgrid Hmax] Ha Hk Hph Hiy Hn Hnx Hny.
  destruct (pc_ok_cell _ _ _ (Hpcs _ _ _ Ha Hk) Hph) as (Hrun & Hlt & Hband).
  destruct Hbands as (_ & _ & Hcover).
  destruct (Hcover _ Hny) as (k' & a' & Ha' & Hy').
  destruct (lookup_lt_is_Some_2 (detail.s_workers st) k') as [q Hq].
  { rewrite Hlw. by eapply lookup_lt_Some. }
  rewrite (Hgrid _ _ _ _ Ha' Hq Hnx Hy').
  unfold seen.
  enough (treated q n = earlier n (detail.pc_ix pc, iy)) as -> by done.
  destruct (lt_eq_lt_dec k' k) as [[Hlt' | ->] | Hlt'].
  - pose proof (bands_ordered _ _ _ _ _ _ Hbands Hlt' Ha' Ha).
    destruct (Hord _ _ _ _ Hlt' Hq Hk) as [_ Hs]. specialize (Hs Hrun).
    unfold treated, earlier. simpl. destruct Hn as [Hn | Hn]; lia.
  - assert (q = pc) as -> by congruence.
    unfold treated, earlier. rewrite Hph. simpl. done.
  - pose proof (bands_ordered _ _ _ _ _ _ Hbands Hlt' Ha Ha').
    destruct (Hord _ _ _ _ Hlt' Hk Hq) as [Hle Hs].
    unfold treated, earlier. simpl.
    destruct (phase_iy (detail.pc_phase q)) eqn:Hphq.
    + assert (detail.pc_ix q < detail.pc_ix pc).
      { apply Hs. intros Hw. by rewrite Hw in Hphq. }
      destruct Hn as [Hn | Hn]; lia.
    + destruct Hn as [Hn | Hn]; lia.
Qed.

(** A step inside [cell_fill], or into it: the worker stays at its pixel,
    nothing is written. *)
Lemma inv_phase st k a pc ph :
  inv st ->
  args !! k = Some a -> detail.s_workers st !! k = Some pc ->
  detail.pc_phase pc <> detail.Waiting ->
  phase_iy ph = phase_iy (detail.pc_phase pc) ->
  ok_pc a (detail.mkPc (detail.pc_ix pc) ph (detail.pc_max_residual pc)) ->
  inv (detail.mkSweep (detail.s_grid st)
         (<[k := detail.mkPc (detail.pc_ix pc) ph (detail.pc_max_residual pc)]>
            (detail.s_workers st))
         (detail.s_pipeline st)).
Proof.
  intros Hinv Ha Hk Hrun Hph Hok.
  pose proof Hinv as [Hlw Hlp Hsh Hpcs Hord Hpub Hgrid Hmax].
  assert (Htr : forall c,
    treated (detail.mkPc (detail.pc_ix pc) ph (detail.pc_max_residual pc)) c =
    treated pc c).
  { intros c. unfold treated. cbn [detail.pc_phase detail.pc_ix]. by rewrite Hph. }
  apply inv_update with a pc; try done.
  - intros j pj Hj Hpj. simpl. destruct (Hord _ _ _ _ Hj Hpj Hk) as [H1 H2].
    split; [done |]. intros _. by apply H2.
  - intros j Hj. by rewrite (Hpub _ _ _ _ Ha Hk Hj).
  - intros c Hx Hy. rewrite Htr. by apply Hgrid with k a.
  - eapply max_residual_over_ext; [| exact (Hmax _ _ _ Ha Hk)].
    intros c. by rewrite Htr.
Qed.

(** The worker has gone through one more pixel. *)
Lemma treated_next pc ph iy m c' :
  phase_iy (detail.pc_phase pc) = Some iy -> phase_iy ph = Some (iy + 1) ->
  treated (detail.mkPc (detail.pc_ix pc) ph m) c' = true <->
  treated pc c' = true \/ c' = (detail.pc_ix pc, iy).
Proof.
  intros Hph Hph'. destruct c' as [x' y']. unfold treated.
  cbn [detail.pc_phase detail.pc_ix]. rewrite Hph, Hph'. simpl.
  split.
  - intros H. destruct (decide (x' = detail.pc_ix pc /\ y' = iy)) as [[-> ->] | ?];
      [by right | left; lia].
  - intros [H | [= -> ->]]; lia.
Qed.

(** The test of the mask in the inner loop. *)
Lemma step_test st k a pc iy :
  inv st ->
  args !! k = Some a -> detail.s_workers st !! k = Some pc ->
  detail.pc_phase pc = detail.Filling iy -> iy < detail.y_end a ->
  exists masked : bool,
    coeff mask (detail.pc_ix pc) iy = Some masked /\
    inv (detail.mkSweep (detail.s_grid st)
           (<[k := detail.mkPc (detail.pc_ix pc)
                     (if masked then detail.Reading iy [] else detail.Filling (iy + 1))
                     (detail.pc_max_residual pc)]> (detail.s_workers st))
           (detail.s_pipeline st)).
Proof.
  intros Hinv Ha Hk Hph Hiy.
  pose proof Hinv as [Hlw Hlp Hsh Hpcs Hord Hpub Hgrid Hmax].
  destruct (Hpcs _ _ _ Ha Hk) as [Hix Hpc].
  rewrite Hph in Hpc. destruct Hpc as [Hlt Hband].
  pose proof Hbands as (Hb & _ & _). destruct (Hb _ _ Ha) as (Hys & Hye & _).
  set (c := (detail.pc_ix pc, iy)).
  assert (Hcx : 0 <= c.1 < x_size) by (simpl; lia).
  assert (Hcy : 0 <= c.2 < y_size) by (simpl; lia).
  assert (Hcb : band a c) by (simpl; lia).
  pose proof (Hrelaxed c Hcx Hcy) as Hrel. unfold relaxed_cell in Hrel.
  change (coeff mask (detail.pc_ix pc) iy) with (at_ mask c).
  destruct (at_ mask c) as [[] |] eqn:Hmc; [| | done].
  - exists true. split; [done |].
    apply inv_phase with a; try done.
    + by rewrite Hph.
    + by rewrite Hph.
    + split; simpl; [lia |]. split; [lia |]. split; [done |]. split; [lia |].
      intros j v H. by rewrite lookup_nil in H.
  - exists false. split; [done |].
    assert (Htr : forall c' m',
      treated (detail.mkPc (detail.pc_ix pc) (detail.Filling (iy + 1)) m') c' = true <->
      treated pc c' = true \/ c' = c).
    { intros c' m'. apply treated_next; [by rewrite Hph | done]. }
    assert (Htc : treated pc c = false) by (unfold treated, c; rewrite Hph; simpl; lia).
    assert (Hpred : forall j pj, (j < k)%nat -> detail.s_workers st !! j = Some pj ->
      detail.pc_ix pc <= detail.pc_ix pj /\
      (detail.Filling (iy + 1) <> detail.Waiting -> detail.pc_ix pc < detail.pc_ix pj)).
    { intros j pj Hj Hpj. destruct (Hord _ _ _ _ Hj Hpj Hk) as [H1 H2].
      rewrite Hph in H2. split; [done |]. intros _. by apply H2. }
    apply inv_update with a pc; try done.
    + split; simpl; lia.
    + intros j Hj. by rewrite (Hpub _ _ _ _ Ha Hk Hj).
    + intros c' Hx' Hb'. rewrite (Hgrid _ _ _ _ Ha Hk Hx' Hb').
      destruct (decide (c' = c)) as [-> | Hne].
      * rewrite (proj2 (Htr c _)); [| by right]. by rewrite Htc, Hrel.
      * destruct (treated pc c') eqn:E.
        -- rewrite (proj2 (Htr c' _)); [done | by left].
        -- match goal with
           | |- _ = if ?t then _ else _ => destruct t eqn:E'; [| done]
           end.
           apply Htr in E' as [? | ?]; congruence.
    + destruct (Hmax _ _ _ Ha Hk) as (Hm & Hw & H0 & Hall). simpl.
      split; [done |]. split; [| split; [done |]].
      * destruct Hw as [? | (c' & r' & [Hc' Ht'] & ?)]; [by left | right].
        exists c', r'. split; [| done]. split; [done |]. apply Htr. by left.
      * intros c' r' [Hc' [Ht' | ->]%Htr] Hm' Hr'; [| congruence].
        by apply (Hall c' r').
Qed.

(** The operands of the residual at [c] are on the line or on the column
    of [c], and the single-threaded sweep finds a value in each. *)
Lemma operands_seen c rho j n :
  residual c = Some rho -> operands c.1 c.2 !! j = Some n ->
  (n.2 = c.2 \/ n.1 = c.1) /\ is_Some (seen before after c n).
Proof.
  unfold residual_at. intros H Hn.
  apply bind_Some in H as (vl & Hl & H). apply bind_Some in H as (vr & Hr & H).
  apply bind_Some in H as (vb & Hbl & H). apply bind_Some in H as (va & Hab & H).
  apply bind_Some in H as (vc & Hvc & _).
  assert (Hc : seen before after c (c.1, c.2) = Some vc).
  { unfold seen. destruct c. simpl. by rewrite earlier_irrefl. }
  destruct j as [| [| [| [| [| j]]]]]; simpl in Hn; [..| done];
    injection Hn as <-; simpl; (split; [auto | eauto]).
Qed.

Lemma values_ok_snoc c loaded n v :
  values_ok c loaded -> operands c.1 c.2 !! length loaded = Some n ->
  seen before after c n = Some v -> values_ok c (loaded ++ [v]).
Proof.
  intros Hok Hn Hv j w Hj. apply lookup_app_Some in Hj as [Hj | [Hge Hj]].
  - by apply Hok.
  - apply list_lookup_singleton_Some in Hj as [Hj ->].
    exists n. replace j with (length loaded) by lia. done.
Qed.

(** The values of the five operands give the residual of the
    single-threaded sweep. *)
Lemma values_ok_residual c loaded rho :
  values_ok c loaded -> detail.residual_from relaxation loaded = Some rho ->
  residual c = Some rho.
Proof.
  intros Hok Hrho.
  destruct loaded as [| vl [| vr [| vb [| va [| vc [| ? ?]]]]]]; try done.
  injection Hrho as <-.
  destruct (Hok 0%nat vl eq_refl) as (? & [= <-] & Hl).
  destruct (Hok 1%nat vr eq_refl) as (? & [= <-] & Hr).
  destruct (Hok 2%nat vb eq_refl) as (? & [= <-] & Hbl).
  destruct (Hok 3%nat va eq_refl) as (? & [= <-] & Hab).
  destruct (Hok 4%nat vc eq_refl) as (? & [= <-] & Hvc).
  unfold residual_at. rewrite Hl, Hr, Hbl, Hab. simpl.
  unfold seen in Hvc. destruct c. simpl in Hvc. rewrite earlier_irrefl in Hvc.
  by rewrite Hvc.
Qed.

Lemma residual_from_length loaded :
  is_Some (detail.residual_from relaxation loaded) <-> length loaded = 5%nat.
Proof.
  destruct loaded as [| ? [| ? [| ? [| ? [| ? [| ? ?]]]]]]; simpl; split;
    (done || eauto || by intros [? ?] || lia).
Qed.

(** One read of [cell_fill]. *)
Lemma step_read st k a pc iy loaded :
  inv st ->
  args !! k = Some a -> detail.s_workers st !! k = Some pc ->
  detail.pc_phase pc = detail.Reading iy loaded ->
  exists n v,
    operands (detail.pc_ix pc) iy !! length loaded = Some n /\
    coeff (detail.s_grid st) n.1 n.2 = Some v /\
    inv (detail.mkSweep (detail.s_grid st)
           (<[k := detail.mkPc (detail.pc_ix pc)
                     (match detail.residual_from relaxation (loaded ++ [v]) with
                      | Some rho => detail.Storing iy rho
                      | None => detail.Reading iy (loaded ++ [v])
                      end)
                     (detail.pc_max_residual pc)]> (detail.s_workers st))
           (detail.s_pipeline st)).
Proof.
  intros Hinv Ha Hk Hph.
  pose proof Hinv as [Hlw Hlp Hsh Hpcs Hord Hpub Hgrid Hmax].
  destruct (Hpcs _ _ _ Ha Hk) as [Hix Hpc].
  rewrite Hph in Hpc. destruct Hpc as ((Hlt & Hband) & Hmc & Hlen & Hvals).
  pose proof Hbands as (Hb & _ & _). destruct (Hb _ _ Ha) as (Hys & Hye & _).
  set (c := (detail.pc_ix pc, iy)) in *.
  assert (Hcx : 0 <= c.1 < x_size) by (simpl; lia).
  assert (Hcy : 0 <= c.2 < y_size) by (simpl; lia).
  pose proof (Hrelaxed c Hcx Hcy) as Hrel. unfold relaxed_cell in Hrel.
  rewrite Hmc in Hrel. destruct Hrel as (rho & cur & Hrho & _).
  destruct (lookup_lt_is_Some_2 (operands c.1 c.2) (length loaded)) as [n Hn].
  { simpl. lia. }
  destruct (operands_seen c rho _ n Hrho Hn) as (Hline & v & Hv).
  assert (Hn' : 0 <= n.1 < x_size /\ 0 <= n.2 < y_size).
  { unfold seen in Hv. destruct (earlier n c); apply in_grid with v; auto. }
  exists n, v. split; [done |]. split.
  { change (coeff (detail.s_grid st) n.1 n.2) with (at_ (detail.s_grid st) n).
    rewrite (grid_seen st k a pc iy n); try done; [by rewrite Hph | lia..]. }
  pose proof (values_ok_snoc c loaded n v Hvals Hn Hv) as Hvals'.
  apply inv_phase with a; try done.
  - by rewrite Hph.
  - rewrite Hph. by destruct (detail.residual_from _ _).
  - split; [done |]. simpl.
    destruct (detail.residual_from relaxation (loaded ++ [v])) as [rho' |] eqn:Hres.
    + split; [done |]. split; [done |]. by apply values_ok_residual with (loaded ++ [v]).
    + split; [done |]. split; [done |]. split; [| done].
      assert (Hne : length (loaded ++ [v]) <> 5%nat).
      { intros H%residual_from_length. rewrite Hres in H. by destruct H. }
      rewrite length_app in Hne |- *. simpl in *. lia.
Qed.

(** The store of [cell_fill]: the residual is added to the pixel. *)
Lemma step_store st k a pc iy rho :
  inv st ->
  args !! k = Some a -> detail.s_workers st !! k = Some pc ->
  detail.pc_phase pc = detail.Storing iy rho ->
  exists current grid',
    coeff (detail.s_grid st) (detail.pc_ix pc) iy = Some current /\
    set_coeff (detail.s_grid st) (detail.pc_ix pc) iy (current + rho)%float =
      Some grid' /\
    inv (detail.mkSweep grid'
           (<[k := detail.mkPc (detail.pc_ix pc) (detail.Filling (iy + 1))
                     (std_max (detail.pc_max_residual pc) (fabs rho))]>
              (detail.s_workers st))
           (detail.s_pipeline st)).
Proof.
  intros Hinv Ha Hk Hph.
  pose proof Hinv as [Hlw Hlp Hsh Hpcs Hord Hpub Hgrid Hmax].
  destruct (Hpcs _ _ _ Ha Hk) as [Hix Hpc].
  rewrite Hph in Hpc. destruct Hpc as ((Hlt & Hband) & Hmc & Hres).
  pose proof Hbands as (Hb & _ & _). destruct (Hb _ _ Ha) as (Hys & Hye & _).
  set (c := (detail.pc_ix pc, iy)) in *.
  assert (Hcx : 0 <= c.1 < x_size) by (simpl; lia).
  assert (Hcy : 0 <= c.2 < y_size) by (simpl; lia).
  assert (Hcb : band a c) by (simpl; lia).
  pose proof (Hrelaxed c Hcx Hcy) as Hrel. unfold relaxed_cell in Hrel.
  rewrite Hmc in Hrel. destruct Hrel as (rho' & v & Hres' & Hv & Haft).
  assert (rho' = rho) as -> by congruence.
  assert (Htr : forall c' m',
    treated (detail.mkPc (detail.pc_ix pc) (detail.Filling (iy + 1)) m') c' = true <->
    treated pc c' = true \/ c' = c).
  { intros c' m'. apply treated_next; [by rewrite Hph | done]. }
  assert (Htc : treated pc c = false) by (unfold treated, c; rewrite Hph; simpl; lia).
  assert (Hcur : at_ (detail.s_grid st) c = Some v).
  { by rewrite (Hgrid _ _ _ _ Ha Hk Hcx Hcb), Htc. }
  assert (Hwfg : wf_matrix (detail.s_grid st)) by by eapply same_shape_wf.
  assert (Hpred : forall j pj, (j < k)%nat -> detail.s_workers st !! j = Some pj ->
    detail.pc_ix pc <= detail.pc_ix pj /\
    (detail.Filling (iy + 1) <> detail.Waiting -> detail.pc_ix pc < detail.pc_ix pj)).
  { intros j pj Hj Hpj. destruct (Hord _ _ _ _ Hj Hpj Hk) as [H1 H2].
    rewrite Hph in H2. split; [done |]. intros _. by apply H2. }
  assert (Hout : forall m' j, detail.pipe_out a = Some j ->
    detail.s_pipeline st !! j =
    Some (published y_size a
            (detail.mkPc (detail.pc_ix pc) (detail.Filling (iy + 1)) m'))).
  { intros m' j Hj. by rewrite (Hpub _ _ _ _ Ha Hk Hj). }
  destruct (set_coeff_is_Some (detail.s_grid st) (detail.pc_ix pc) iy
              (v + rho)%float Hwfg) as [grid' Hset].
  { rewrite (same_shape_in_range _ _ _ _ Hsh). apply in_range_spec. simpl in *. lia. }
  exists v, grid'. split; [done |]. split; [done |].
  apply inv_update with a pc; try done.
  - split; simpl; lia.
  - apply Hout.
  - destruct (set_coeff_shape _ _ _ _ _ Hset) as (? & ? & ?).
    destruct Hsh as (? & ? & ?). repeat split; congruence.
  - intros c' Hx' Hb'. destruct (decide (c' = c)) as [-> | Hne].
    + rewrite (proj2 (Htr c _)); [| by right].
      rewrite Haft. unfold at_. by eapply coeff_set_eq.
    + replace (at_ grid' c') with (at_ (detail.s_grid st) c').
      2:{ symmetry. unfold at_. eapply coeff_set_ne; [done |].
          intros Heq. apply Hne. destruct c'. by injection Heq as -> ->. }
      rewrite (Hgrid _ _ _ _ Ha Hk Hx' Hb').
      destruct (treated pc c') eqn:E.
      * rewrite (proj2 (Htr c' _)); [done | by left].
      * match goal with
        | |- _ = if ?t then _ else _ => destruct t eqn:E'; [| done]
        end.
        apply Htr in E' as [? | ?]; congruence.
  - intros c' Hb'. unfold at_. eapply coeff_set_ne; [done |].
    intros Heq. apply Hb'. destruct c'. injection Heq as -> ->. done.
  - destruct (Hmax _ _ _ Ha Hk) as (Hm & Hw & H0 & Hall). simpl.
    split; [by apply std_max_magnitude |]. split; [| split].
    + destruct (std_max_cases (detail.pc_max_residual pc) (fabs rho)) as [-> | ->].
      * destruct Hw as [? | (c' & r' & [Hc' Ht'] & ?)]; [by left | right].
        exists c', r'. split; [| done]. split; [done |]. apply Htr. by left.
      * right. exists c, rho. split; [| done]. split; [done |]. apply Htr. by right.
    + apply magnitude_not_neg. by apply std_max_magnitude.
    + intros c' r' [Hc' [Ht' | ->]%Htr] Hm' Hr'.
      * apply std_max_ub. by apply (Hall c' r').
      * assert (r' = rho) as -> by congruence. apply std_max_self.
Qed.

Lemma y_size_nonneg : 0 <= y_size.
Proof. destruct Hwf as (_ & ? & _). lia. Qed.

(** The wait on [pipe_in]: the atomic can be read, and once the wait is
    over every thread of an earlier band is past the current [ix]. *)
Lemma ready_spec st k a pc :
  inv st ->
  args !! k = Some a -> detail.s_workers st !! k = Some pc ->
  detail.pc_ix pc < x_size ->
  exists go,
    detail.ready y_size a (detail.pc_ix pc) (detail.s_pipeline st) = Some go /\
    (go = true -> forall j pj, (j < k)%nat -> detail.s_workers st !! j = Some pj ->
       detail.pc_ix pc < detail.pc_ix pj) /\
    ((forall j pj, (j < k)%nat -> detail.s_workers st !! j = Some pj ->
        detail.finished_pc x_size pj = true) -> go = true).
Proof.
  intros [Hlw Hlp Hsh Hpcs Hord Hpub Hgrid Hmax] Ha Hk Hlt.
  pose proof Hbands as (Hb & Hadj & _).
  destruct (Hb _ _ Ha) as (Hys & Hye & Hin & _).
  destruct (Hpcs _ _ _ Ha Hk) as [Hix _].
  unfold detail.ready. rewrite Hin. destruct k as [| j].
  { exists true. split; [done |]. split; [intros; lia | done]. }
  assert (Hj : (j < length args)%nat) by (apply lookup_lt_Some in Ha; lia).
  destruct (lookup_lt_is_Some_2 args j Hj) as [aj Haj].
  destruct (lookup_lt_is_Some_2 (detail.s_workers st) j) as [pj Hpj]; [lia |].
  assert (Hoj : detail.pipe_out aj = Some j).
  { destruct (Hb _ _ Haj) as (_ & _ & _ & ->). case_decide; [| done].
    apply lookup_lt_Some in Ha. lia. }
  rewrite (Hpub _ _ _ _ Haj Hpj Hoj). simpl. eexists. split; [done |].
  pose proof (Hadj _ _ _ Haj Ha) as Hadj'.
  destruct (Hpcs _ _ _ Haj Hpj) as [Hixj _].
  pose proof y_size_nonneg as Hy.
  unfold published, detail.coordinates, detail.int_min. split.
  - intros Hgo%negb_true_iff%Z.ltb_ge j' pj' Hj' Hpj'.
    assert (detail.pc_ix pc < detail.pc_ix pj).
    { destruct (detail.pc_ix pj =? 0) eqn:E; [nia |]. rewrite Hadj' in Hgo. lia. }
    destruct (decide (j' = j)) as [-> | Hne]; [congruence |].
    destruct (Hord j' j pj' pj ltac:(lia) Hpj' Hpj). lia.
  - intros Hfin. specialize (Hfin j pj ltac:(lia) Hpj).
    unfold detail.finished_pc in Hfin. apply negb_true_iff, Z.ltb_ge.
    destruct (detail.pc_ix pj =? 0) eqn:E; [lia |]. rewrite Hadj'. lia.
Qed.

Lemma remaining_pos a pc :
  ok_pc a pc -> 0 <= detail.y_start a <= detail.y_end a ->
  detail.finished_pc x_size pc = false -> 0 < remaining x_size a pc.
Proof.
  intros [Hix Hph] Hys Hfin. unfold remaining. rewrite Hfin.
  unfold detail.finished_pc in Hfin.
  destruct (detail.pc_phase pc);
    [| | destruct Hph as ((? & ?) & _ & ? & _) | destruct Hph as ((? & ?) & _)]; nia.
Qed.

Lemma remaining_nonneg a pc :
  ok_pc a pc -> 0 <= detail.y_start a <= detail.y_end a ->
  0 <= remaining x_size a pc.
Proof.
  intros Hok Hys. destruct (detail.finished_pc x_size pc) eqn:Hfin.
  - unfold remaining. by rewrite Hfin.
  - pose proof (remaining_pos a pc Hok Hys Hfin). lia.
Qed.

(** Every step of a thread keeps the invariant and never faults; the
    steps left do not grow, and shrink when the thread is the first one
    still running. *)
Lemma thread_step_spec k st :
  inv st ->
  exists st',
    step k st = Some st' /\ inv st' /\
    total_remaining x_size args (detail.s_workers st') <=
      total_remaining x_size args (detail.s_workers st) /\
    (detail.next_thread x_size (detail.s_workers st) = Some k ->
     total_remaining x_size args (detail.s_workers st') <
       total_remaining x_size args (detail.s_workers st)).
Proof.
  intros Hinv. pose proof Hinv as [Hlw Hlp Hsh Hpcs Hord Hpub Hgrid Hmax].
  pose proof Hbands as (Hb & _ & _).
  unfold detail.thread_step.
  destruct (args !! k) as [a |] eqn:Ha.
  2:{ exists st. split; [done |]. split; [done |]. split; [lia |].
      intros ([k' pc'] & Hf & Heq)%fmap_Some. simpl in Heq. subst k'.
      apply list_find_Some in Hf as (Hk & _).
      apply lookup_lt_Some in Hk. apply lookup_ge_None in Ha. lia. }
  destruct (detail.s_workers st !! k) as [pc |] eqn:Hk.
  2:{ exists st. split; [done |]. split; [done |]. split; [lia |].
      intros ([k' pc'] & Hf & Heq)%fmap_Some. simpl in Heq. subst k'.
      apply list_find_Some in Hf as (Hk' & _). congruence. }
  destruct (Hpcs _ _ _ Ha Hk) as [Hix Hpc]. destruct (Hb _ _ Ha) as (Hys & Hye & _ & Hout).
  destruct (detail.finished_pc x_size pc) eqn:Hfin.
  { exists st. split; [done |]. split; [done |]. split; [lia |].
    intros ([k' pc'] & Hf & Heq)%fmap_Some. simpl in Heq. subst k'.
    apply list_find_Some in Hf as (Hk' & Hf & _). congruence. }
  assert (Hlt : detail.pc_ix pc < x_size) by (unfold detail.finished_pc in Hfin; lia).
  destruct (detail.pc_phase pc) as [| iy | iy loaded | iy rho] eqn:Hph.
  - destruct (ready_spec st k a pc Hinv Ha Hk Hlt) as (go & -> & Hgo & Hfirst).
    simpl. destruct go.
    + eexists. split; [done |]. split.
      * apply inv_update with a pc; try done.
        -- split; simpl; lia.
        -- intros j pj Hj Hpj. simpl. specialize (Hgo eq_refl j pj Hj Hpj). lia.
        -- intros j Hj. by rewrite (Hpub _ _ _ _ Ha Hk Hj).
        -- intros c Hx Hy. rewrite (Hgrid _ _ _ _ Ha Hk Hx Hy).
           unfold treated. rewrite Hph. simpl.
           replace (c.2 <? detail.y_start a) with false by lia. done.
        -- simpl. eapply max_residual_over_ext; [| exact (Hmax _ _ _ Ha Hk)].
           intros c. unfold treated. rewrite Hph. simpl. split.
           ++ intros [? ?]. split; [done |]. lia.
           ++ intros [? ?]. split; [done |]. lia.
      * simpl. rewrite (total_remaining_insert _ _ _ _ _ _ _ Ha Hk).
        unfold remaining. rewrite Hfin, Hph. unfold detail.finished_pc. simpl.
        replace (x_size <=? detail.pc_ix pc) with false by lia.
        split; [lia |]. intros _. lia.
    + exists st. split; [done |]. split; [done |]. split; [lia |].
      intros ([k' pc'] & Hf & Heq)%fmap_Some. simpl in Heq. subst k'.
      apply list_find_Some in Hf as (Hk' & _ & Hf).
      assert (true = false); [| done]. symmetry. apply Hfirst.
      intros j pj Hj Hpj. specialize (Hf j pj Hpj Hj).
      by destruct (detail.finished_pc x_size pj).
  - destruct Hpc as [_ Hiy]. destruct (iy <? detail.y_end a) eqn:Hlty.
    + destruct (step_test st k a pc iy Hinv Ha Hk Hph ltac:(lia))
        as (masked & -> & Hinv').
      simpl. eexists. split; [done |]. split; [done |]. simpl.
      rewrite (total_remaining_insert _ _ _ _ _ _ _ Ha Hk).
      unfold remaining. rewrite Hfin, Hph. unfold detail.finished_pc. simpl.
      replace (x_size <=? detail.pc_ix pc) with false by lia.
      destruct masked; simpl; (split; [lia |]); intros _; lia.
    + assert (iy = detail.y_end a) as -> by lia.
      eexists. split; [done |]. split.
      * apply inv_update with a pc; try done.
        -- split; simpl; lia.
        -- simpl. lia.
        -- intros j pj Hj Hpj. simpl. destruct (Hord _ _ _ _ Hj Hpj Hk) as [_ H2].
           rewrite Hph in H2. specialize (H2 ltac:(done)). split; [lia | done].
        -- unfold detail.publish. destruct (detail.pipe_out a); [| done].
           by rewrite length_insert.
        -- intros j Hj. unfold detail.publish. rewrite Hj.
           rewrite list_lookup_insert_eq.
           ++ unfold published. simpl.
              replace (detail.pc_ix pc + 1 =? 0) with false by lia.
              do 2 f_equal. lia.
           ++ rewrite Hout in Hj. case_decide; [done |]. injection Hj as <-.
              rewrite Hlp. by eapply lookup_lt_Some.
        -- intros j Hj. unfold detail.publish.
           destruct (detail.pipe_out a) as [j' |]; [| done].
           apply list_lookup_insert_ne. congruence.
        -- intros c Hx Hy. rewrite (Hgrid _ _ _ _ Ha Hk Hx Hy).
           unfold treated. rewrite Hph. simpl.
           match goal with
           | |- (if ?b then _ else _) = (if ?b' then _ else _) =>
               replace b' with b by lia
           end. done.
        -- simpl. eapply max_residual_over_ext; [| exact (Hmax _ _ _ Ha Hk)].
           intros c. unfold treated. rewrite Hph. simpl. split.
           ++ intros [? ?]. split; [done |]. lia.
           ++ intros [? ?]. split; [done |]. lia.
      * simpl. rewrite (total_remaining_insert _ _ _ _ _ _ _ Ha Hk).
        unfold remaining. rewrite Hfin, Hph. unfold detail.finished_pc. simpl.
        set (len := 7 * (detail.y_end a - detail.y_start a) + 2).
        destruct (x_size <=? detail.pc_ix pc + 1) eqn:E.
        -- apply Z.leb_le in E.
           replace (x_size - detail.pc_ix pc) with 1 by lia.
           split; [lia |]. intros _. lia.
        -- replace ((x_size - (detail.pc_ix pc + 1)) * len)
             with ((x_size - detail.pc_ix pc) * len - len) by ring.
           split; [lia |]. intros _. lia.
  - destruct (step_read st k a pc iy loaded Hinv Ha Hk Hph) as (n & v & -> & Hv & Hinv').
    simpl. rewrite Hv. simpl. eexists. split; [done |]. split; [done |]. simpl.
    rewrite (total_remaining_insert _ _ _ _ _ _ _ Ha Hk).
    unfold remaining. rewrite Hfin, Hph. unfold detail.finished_pc. simpl.
    replace (x_size <=? detail.pc_ix pc) with false by lia.
    destruct Hpc as (_ & _ & Hlen & _).
    destruct (detail.residual_from relaxation (loaded ++ [v])) eqn:Hres; simpl.
    + split; [lia |]. intros _. lia.
    + rewrite length_app. simpl. split; [lia |]. intros _. lia.
  - destruct (step_store st k a pc iy rho Hinv Ha Hk Hph)
      as (current & grid' & -> & Hset & Hinv').
    simpl. rewrite Hset. simpl. eexists. split; [done |]. split; [done |]. simpl.
    rewrite (total_remaining_insert _ _ _ _ _ _ _ Ha Hk).
    unfold remaining. rewrite Hfin, Hph. unfold detail.finished_pc. simpl.
    replace (x_size <=? detail.pc_ix pc) with false by lia.
    split; [lia |]. intros _. lia.
Qed.

Abbreviation total st := (total_remaining x_size args (detail.s_workers st)).

Lemma run_spec schedule st :
  inv st ->
  exists st',
    detail.run mask is_circle relaxation x_size y_size args schedule st = Some st' /\
    inv st' /\ total st' <= total st.
Proof.
  revert st. induction schedule as [| k schedule IH]; intros st Hinv; simpl.
  { exists st. split; [done |]. split; [done | lia]. }
  destruct (thread_step_spec k st Hinv) as (st1 & Hst & Hinv1 & Hle & _).
  unfold detail.run. simpl. rewrite Hst. simpl.
  destruct (IH st1 Hinv1) as (st' & Hrun & Hinv' & Hle').
  exists st'. split; [done |]. split; [done | lia].
Qed.

Lemma remaining_workers st :
  inv st ->
  forall k a pc, args !! k = Some a -> detail.s_workers st !! k = Some pc ->
    0 <= remaining x_size a pc.
Proof.
  intros [Hlw Hlp Hsh Hpcs Hord Hpub Hgrid Hmax] k a pc Ha Hk.
  pose proof Hbands as (Hb & _ & _). destruct (Hb _ _ Ha) as (? & _).
  apply remaining_nonneg; [by eapply Hpcs | done].
Qed.

(** The joins return: with fuel for the steps that are left, every thread
    runs to its end. *)
Lemma join_spec fuel st :
  inv st -> total st <= Z.of_nat fuel ->
  exists st',
    detail.join mask is_circle relaxation x_size y_size args fuel st = Some st' /\
    inv st' /\
    forallb (detail.finished_pc x_size) (detail.s_workers st') = true.
Proof.
  revert st. induction fuel as [| fuel IH]; intros st Hinv Hfuel.
  - exists st. split; [done |]. split; [done |].
    apply Is_true_true, forallb_True, Forall_lookup. intros k pc Hk.
    apply Is_true_true.
    destruct (detail.finished_pc x_size pc) eqn:Hfin; [done |].
    pose proof Hinv as [Hlw Hlp Hsh Hpcs Hord Hpub Hgrid Hmax].
    destruct (lookup_lt_is_Some_2 args k) as [a Ha].
    { rewrite <- Hlw. by eapply lookup_lt_Some. }
    pose proof Hbands as (Hb & _ & _). destruct (Hb _ _ Ha) as (? & _).
    pose proof (remaining_pos a pc (Hpcs _ _ _ Ha Hk) ltac:(done) Hfin).
    pose proof (total_remaining_lookup x_size args _ k a pc (remaining_workers st Hinv) Ha Hk).
    lia.
  - simpl. destruct (detail.next_thread x_size (detail.s_workers st)) as [k |] eqn:Hnext.
    + destruct (thread_step_spec k st Hinv) as (st1 & -> & Hinv1 & _ & Hlt).
      specialize (Hlt Hnext). simpl. apply IH; [done | lia].
    + exists st. split; [done |]. split; [done |].
      unfold detail.next_thread in Hnext. apply fmap_None, list_find_None in Hnext.
      apply Is_true_true, forallb_True. eapply Forall_impl; [exact Hnext |].
      intros pc Hpc. simpl in Hpc. apply Is_true_true.
      by destruct (detail.finished_pc x_size pc).
Qed.

(** Once every thread has returned, the grid is the grid of the
    single-threaded sweep and the largest of the maxima of the threads is
    the largest absolute residual of the sweep. *)
Lemma finished_spec st :
  inv st -> wf_matrix after ->
  forallb (detail.finished_pc x_size) (detail.s_workers st) = true ->
  (0 < length args)%nat ->
  detail.s_grid st = after /\
  exists r,
    max_element (detail.pc_max_residual <$> detail.s_workers st) = Some r /\
    max_over (fun c => 0 <= c.1 < x_size /\ 0 <= c.2 < y_size) 0%float r.
Proof.
  intros Hinv Hwfa Hfin Hlen.
  pose proof Hinv as [Hlw Hlp Hsh Hpcs Hord Hpub Hgrid Hmax].
  pose proof Hbands as (Hb & _ & Hcover).
  apply Is_true_true, forallb_True in Hfin. rewrite Forall_lookup in Hfin.
  assert (Htr : forall k pc c, detail.s_workers st !! k = Some pc ->
    0 <= c.1 < x_size -> treated pc c = true).
  { intros k pc c Hk Hc. specialize (Hfin k pc Hk). apply Is_true_true in Hfin.
    unfold detail.finished_pc in Hfin. unfold treated. lia. }
  assert (Hband : forall c, 0 <= c.1 < x_size -> 0 <= c.2 < y_size ->
    exists k a pc, args !! k = Some a /\ detail.s_workers st !! k = Some pc /\
                   band a c /\ treated pc c = true).
  { intros c Hx Hy. destruct (Hcover _ Hy) as (k & a & Ha & Hya).
    destruct (lookup_lt_is_Some_2 (detail.s_workers st) k) as [pc Hk].
    { rewrite Hlw. by eapply lookup_lt_Some. }
    exists k, a, pc. eauto 10. }
  split.
  - apply matrix_ext; [done | by eapply same_shape_wf | | |].
    + destruct Hsh as (? & ? & _), Hafter as (? & ? & _). congruence.
    + destruct Hsh as (? & ? & _), Hafter as (? & ? & _). congruence.
    + intros ix iy Hin. rewrite (same_shape_in_range _ _ _ _ Hafter) in Hin.
      apply in_range_spec in Hin. rewrite Hrows, Hcols in Hin.
      destruct (Hband (ix, iy)) as (k & a & pc & Ha & Hk & Hya & Ht); [simpl; lia.. |].
      pose proof (Hgrid _ _ _ (ix, iy) Ha Hk ltac:(simpl; lia) Hya) as Hg.
      rewrite Ht in Hg. done.
  - destruct (detail.s_workers st) as [| pc0 ws] eqn:Hws; [simpl in Hlw; lia |].
    simpl. eexists. split; [done |].
    set (ms := detail.pc_max_residual <$> ws).
    set (m0 := detail.pc_max_residual pc0).
    set (r := fold_left std_max ms m0).
    assert (Hmag : Forall magnitude (m0 :: ms)).
    { change (m0 :: ms) with (detail.pc_max_residual <$> pc0 :: ws).
      apply Forall_fmap, Forall_lookup. intros k pc Hk. simpl.
      destruct (lookup_lt_is_Some_2 args k) as [a Ha].
      { rewrite <- Hlw. by eapply lookup_lt_Some. }
      by destruct (Hmax _ _ _ Ha Hk). }
    assert (Hr : r ∈ m0 :: ms) by apply fold_std_max_elem.
    assert (Hrmag : magnitude r) by (rewrite Forall_forall in Hmag; by apply Hmag).
    split; [done |]. split; [| split; [by apply magnitude_not_neg |]].
    + change (m0 :: ms) with (detail.pc_max_residual <$> pc0 :: ws) in Hr.
      apply list_elem_of_fmap in Hr as (pc & Hr & Hpc).
      apply list_elem_of_lookup in Hpc as (k & Hk).
      destruct (lookup_lt_is_Some_2 args k) as [a Ha].
      { rewrite <- Hlw. by eapply lookup_lt_Some. }
      destruct (Hmax _ _ _ Ha Hk) as (_ & Hw & _).
      rewrite <- Hr in Hw.
      destruct Hw as [? | (c & rho & [[Hx Hy] _] & ?)]; [by left | right].
      exists c, rho. split; [| done]. split; [done |].
      destruct (Hb _ _ Ha) as (? & ? & _). lia.
    + intros c rho [Hx Hy] Hmc Hrc.
      destruct (Hband c Hx Hy) as (k & a & pc & Ha & Hk & Hya & Ht).
      destruct (Hmax _ _ _ Ha Hk) as (Hmk & _ & _ & Hall).
      specialize (Hall c rho ltac:(done) Hmc Hrc).
      assert (Hle : (r <? detail.pc_max_residual pc)%float = false).
      { apply fold_std_max_ub; [done |].
        change (m0 :: ms) with (detail.pc_max_residual <$> pc0 :: ws).
        apply list_elem_of_fmap. exists pc. split; [done |].
        by eapply list_elem_of_lookup_2. }
      apply not_true_is_false. intros Hlt.
      assert (magnitude (fabs rho)).
      { apply magnitude_fabs. by apply ltb_not_nan in Hlt as [_ ?]. }
      by rewrite (magnitude_le_lt r (fabs rho) (detail.pc_max_residual pc)) in Hle.
Qed.
Lemma x_size_nonneg : 0 <= x_size.
Proof. destruct Hwf as (? & _). lia. Qed.

(** The memory the threads start from satisfies the invariant. *)
Lemma start_inv : inv (detail.start_state (length args) before).
Proof.
  pose proof x_size_nonneg as Hx. pose proof Hbands as (Hb & _ & _).
  constructor; simpl.
  - apply length_replicate.
  - apply length_replicate.
  - done.
  - intros k a pc Ha [-> _]%lookup_replicate. split; simpl; [lia | done].
  - intros j k pj pk _ [-> _]%lookup_replicate [-> _]%lookup_replicate. simpl.
    split; [lia | done].
  - intros k a pc j Ha [-> _]%lookup_replicate Hj.
    apply lookup_replicate. split; [done |].
    destruct (Hb _ _ Ha) as (_ & _ & _ & Ho). rewrite Ho in Hj.
    case_decide; [done |]. injection Hj as <-. by eapply lookup_lt_Some.
  - intros k a pc c Ha [-> _]%lookup_replicate Hc _. unfold treated. simpl.
    replace (c.1 <? 0) with false by lia. by rewrite andb_false_r.
  - intros k a pc Ha [-> _]%lookup_replicate. simpl.
    split; [apply magnitude_zero |]. split; [by left |].
    split; [apply ltb_irrefl |].
    intros c rho [[Hc _] Ht]. unfold treated in Ht. simpl in Ht. lia.
Qed.

Lemma start_total :
  total (detail.start_state (length args) before) <=
  Z.of_nat (detail.steps_bound x_size y_size (length args)).
Proof.
  pose proof x_size_nonneg as Hx. pose proof y_size_nonneg as Hy.
  pose proof Hbands as (Hb & _ & _).
  unfold detail.steps_bound. rewrite Z2Nat.id by nia. simpl.
  apply total_remaining_bound; [nia |].
  intros k a pc Ha [-> _]%lookup_replicate.
  destruct (Hb _ _ Ha) as (? & ? & _).
  unfold remaining, detail.finished_pc. simpl.
  destruct (x_size <=? 0) eqn:E; nia.
Qed.

(** Whatever the interleaving, the threads of a sweep all return and
    leave the grid and the residual of the single-threaded sweep. *)
Lemma pipeline_result schedule :
  wf_matrix after -> (0 < length args)%nat ->
  exists st1 st2 r,
    detail.run mask is_circle relaxation x_size y_size args schedule
      (detail.start_state (length args) before) = Some st1 /\
    detail.join mask is_circle relaxation x_size y_size args
      (detail.steps_bound x_size y_size (length args)) st1 = Some st2 /\
    forallb (detail.finished_pc x_size) (detail.s_workers st2) = true /\
    detail.s_grid st2 = after /\
    max_element (detail.pc_max_residual <$> detail.s_workers st2) = Some r /\
    max_over (fun c => 0 <= c.1 < x_size /\ 0 <= c.2 < y_size) 0%float r.
Proof.
  intros Hwfa Hlen.
  destruct (run_spec schedule _ start_inv) as (st1 & Hrun & Hinv1 & Hle1).
  destruct (join_spec (detail.steps_bound x_size y_size (length args)) st1 Hinv1)
    as (st2 & Hjoin & Hinv2 & Hfin).
  { pose proof start_total. lia. }
  destruct (finished_spec st2 Hinv2 Hwfa Hfin Hlen) as (Hgrid & r & Hr & Hmax).
  exists st1, st2, r. done.
Qed.
End pipeline.

(** ** The bands of the threads *)

Lemma spawn_loop_spec count index start shift :
  (detail.spawn_loop count index start shift).2 = start + Z.of_nat count * shift /\
  length (detail.spawn_loop count index start shift).1 = count /\
  forall k, (k < count)%nat ->
    (detail.spawn_loop count index start shift).1 !! k =
    Some (detail.mkArgs (start + Z.of_nat k * shift) (start + (Z.of_nat k + 1) * shift)
            (Some (index + k)%nat)
            (match (index + k)%nat with O => None | S i => Some i end)).
Proof.
  revert index start. induction count as [| count IH]; intros index start.
  { simpl. split; [lia |]. split; [done |]. intros; lia. }
  simpl. destruct (IH (S index) (start + shift)) as (Hlast & Hlen & Hk).
  destruct (detail.spawn_loop count (S index) (start + shift) shift) as [l last].
  simpl in *. split; [lia |]. split; [lia |].
  intros [| k] Hlt; simpl.
  - rewrite Nat.add_0_r. do 2 f_equal; lia.
  - rewrite Hk by lia. rewrite Nat.add_succ_r. f_equal. f_equal; lia.
Qed.

Lemma spawn_lookup y_size n k :
  (2 <= n)%nat -> (k < n)%nat ->
  detail.spawn y_size n !! k =
  Some (if decide (S k = n)
        then detail.mkArgs (Z.of_nat k * (y_size / Z.of_nat n)) y_size None
               (Some (k - 1)%nat)
        else detail.mkArgs (Z.of_nat k * (y_size / Z.of_nat n))
               ((Z.of_nat k + 1) * (y_size / Z.of_nat n)) (Some k)
               (match k with O => None | S i => Some i end)).
Proof.
  intros Hn Hk. unfold detail.spawn.
  destruct (spawn_loop_spec (n - 1) 0 0 (y_size / Z.of_nat n)) as (Hlast & Hlen & Hl).
  destruct (detail.spawn_loop (n - 1) 0 0 (y_size / Z.of_nat n)) as [l last].
  simpl in *. case_decide.
  - rewrite lookup_app_r by lia. replace (k - length l)%nat with 0%nat by lia.
    subst last. simpl. f_equal. f_equal; try lia. f_equal. lia.
  - rewrite lookup_app_l by lia. rewrite Hl by lia. reflexivity.
Qed.

Lemma spawn_length y_size n : (1 <= n)%nat -> length (detail.spawn y_size n) = n.
Proof.
  intros Hn. unfold detail.spawn.
  destruct (spawn_loop_spec (n - 1) 0 0 (y_size / Z.of_nat n)) as (_ & Hlen & _).
  destruct (detail.spawn_loop (n - 1) 0 0 (y_size / Z.of_nat n)) as [l last].
  rewrite length_app. simpl in *. lia.
Qed.

Lemma spawn_bands y_size n :
  (2 <= n)%nat -> 0 <= y_size -> bands_ok (detail.spawn y_size n) y_size.
Proof.
  intros Hn Hy. set (shift := y_size / Z.of_nat n).
  assert (Hshift : 0 <= shift) by (apply Z.div_pos; lia).
  assert (Hmul : Z.of_nat n * shift <= y_size) by (apply Z.mul_div_le; lia).
  assert (Hlt : y_size < Z.of_nat n * shift + Z.of_nat n).
  { pose proof (Z.mod_pos_bound y_size (Z.of_nat n) ltac:(lia)).
    pose proof (Z.div_mod y_size (Z.of_nat n) ltac:(lia)). fold shift in H0. lia. }
  assert (Hget : forall k a, detail.spawn y_size n !! k = Some a ->
    (k < n)%nat /\
    a = if decide (S k = n)
        then detail.mkArgs (Z.of_nat k * shift) y_size None (Some (k - 1)%nat)
        else detail.mkArgs (Z.of_nat k * shift) ((Z.of_nat k + 1) * shift) (Some k)
               (match k with O => None | S i => Some i end)).
  { intros k a Ha. assert (k < n)%nat.
    { apply lookup_lt_Some in Ha. rewrite spawn_length in Ha; lia. }
    split; [done |]. rewrite spawn_lookup in Ha by lia. by injection Ha as <-. }
  split; [| split].
  - intros k a [Hk ->]%Hget. rewrite spawn_length by lia.
    case_decide; simpl.
    + split; [nia |]. split; [lia |]. split; [| done].
      destruct k; [lia |]. do 2 f_equal. lia.
    + split; [nia |]. split; [nia |]. done.
  - intros k a b [Hk ->]%Hget [Hk' ->]%Hget.
    case_decide; [lia |]. case_decide; simpl; lia.
  - intros iy Hiy.
    destruct (decide (Z.of_nat (n - 1) * shift <= iy)) as [Hlast | Hin].
    + exists (n - 1)%nat. eexists. split; [apply spawn_lookup; lia |].
      case_decide; [| lia]. simpl. fold shift. lia.
    + assert (0 < shift) by nia.
      set (k := Z.to_nat (iy / shift)).
      assert (Hk : Z.of_nat k = iy / shift).
      { unfold k. rewrite Z2Nat.id; [done |]. apply Z.div_pos; lia. }
      assert (iy / shift < Z.of_nat (n - 1)).
      { apply Z.div_lt_upper_bound; lia. }
      exists k. eexists. split; [apply spawn_lookup; lia |].
      case_decide; [lia |]. simpl. fold shift. rewrite Hk.
      pose proof (Z.mul_div_le iy shift ltac:(lia)).
      pose proof (Z.mod_pos_bound iy shift ltac:(lia)).
      pose proof (Z.div_mod iy shift ltac:(lia)). lia.
Qed.

(** ** One sweep *)

Section one_sweep.
Variables (mask : Matrix bool) (is_circle : bool) (relaxation : float).
Variables (x_size y_size : Z).

Abbreviation visit := (detail.visit mask is_circle relaxation x_size y_size).
Abbreviation worker := (detail.worker mask is_circle relaxation x_size y_size).

Lemma worker_scan y_start y_end grid :
  worker y_start y_end grid =
  for_each (scan x_size y_start y_end) (fun c => visit c.1 c.2) (grid, 0%float).
Proof.
  unfold detail.worker, for_range, scan. rewrite for_n_each, Z.sub_0_r, for_each_bind.
  apply for_each_ext. intros ix st _. by rewrite for_n_each, for_each_fmap.
Qed.

Lemma worker_relaxed y_start y_end grid after r :
  worker y_start y_end grid = Some (after, r) ->
  same_shape after grid /\
  (forall n, n ∉ scan x_size y_start y_end -> at_ after n = at_ grid n) /\
  (forall c, c ∈ scan x_size y_start y_end ->
     relaxed_cell mask is_circle relaxation x_size y_size grid after c) /\
  max_residual_over mask is_circle relaxation x_size y_size grid after
    (fun c => c ∈ scan x_size y_start y_end) 0%float r.
Proof.
  rewrite worker_scan. apply sweep_suffix; [apply ascending_scan | apply magnitude_zero].
Qed.

(** A visit returns exactly when its accesses are in range. *)
Lemma visit_safe grid cur m c :
  wf_matrix cur -> same_shape cur grid ->
  is_Some (visit c.1 c.2 (cur, m)) <-> safe mask is_circle x_size y_size grid c = true.
Proof.
  intros Hwf Hsh. rewrite visit_eq. unfold safe.
  change (coeff mask c.1 c.2) with (at_ mask c).
  destruct (at_ mask c) as [[] |].
  - rewrite <- !(same_shape_in_range _ _ _ _ Hsh). rewrite !andb_true_iff. split.
    + intros [[g m'] H].
      repeat (apply bind_Some in H as (? & ?%coeff_in_range & H)). done.
    + intros ((((H1 & H2) & H3) & H4) & H5).
      destruct (coeff_is_Some _ _ _ Hwf H1) as [? ->].
      destruct (coeff_is_Some _ _ _ Hwf H2) as [? ->].
      destruct (coeff_is_Some _ _ _ Hwf H3) as [? ->].
      destruct (coeff_is_Some _ _ _ Hwf H4) as [? ->].
      destruct (coeff_is_Some _ _ _ Hwf H5) as [? ->]. simpl.
      edestruct (set_coeff_is_Some cur c.1 c.2) as [? ->]; [done | done |].
      simpl. eauto.
  - split; [done | eauto].
  - split; [by intros [? ?] | done].
Qed.

Lemma sweep_safe l grid cur m :
  wf_matrix cur -> same_shape cur grid ->
  is_Some (for_each l (fun c => visit c.1 c.2) (cur, m)) <->
  forall c, c ∈ l -> safe mask is_circle x_size y_size grid c = true.
Proof.
  revert cur m. induction l as [| c0 l IH]; intros cur m Hwf Hsh; simpl.
  { split; [by intros _ c H%elem_of_nil | eauto]. }
  pose proof (visit_safe grid cur m c0 Hwf Hsh) as Hv.
  destruct (visit c0.1 c0.2 (cur, m)) as [[cur1 m1] |] eqn:E; simpl.
  - destruct (visit_frame _ _ _ _ _ _ _ _ _ _ _ E) as [Hsh1 _].
    assert (Hsh' : same_shape cur1 grid).
    { destruct Hsh1 as (? & ? & ?), Hsh as (? & ? & ?). repeat split; congruence. }
    rewrite (IH cur1 m1 (same_shape_wf _ _ Hsh1 Hwf) Hsh'). split.
    + intros H c [-> | Hc]%elem_of_cons; [apply Hv; eauto | by apply H].
    + intros H c Hc. apply H. by right.
  - split; [by intros [? ?] |]. intros H.
    apply Hv. apply H. by left.
Qed.

Lemma worker_safe y_start y_end grid :
  wf_matrix grid ->
  is_Some (worker y_start y_end grid) <->
  forall c, 0 <= c.1 < x_size -> y_start <= c.2 < y_end ->
    safe mask is_circle x_size y_size grid c = true.
Proof.
  intros Hwf. rewrite worker_scan, (sweep_safe _ grid); [| done | done].
  split; intros H c.
  - intros Hx Hy. apply H, elem_of_scan. done.
  - intros [Hx Hy]%elem_of_scan. by apply H.
Qed.
End one_sweep.

Section visits.
Variables (mask : Matrix bool) (is_circle : bool) (relaxation : float).
Variables (x_size y_size : Z) (args : list detail.worker_args).
Variable grid : Matrix float.

Abbreviation ok := (visits_ok mask is_circle x_size y_size args grid).
Abbreviation reads := (reads_ok mask is_circle x_size y_size grid).
Abbreviation operands := (detail.operands is_circle x_size y_size).
Abbreviation step := (detail.thread_step mask is_circle relaxation x_size y_size args).

Lemma visits_update st k a pc pc' grid' pipeline' :
  ok st ->
  args !! k = Some a -> detail.s_workers st !! k = Some pc ->
  same_shape grid' grid ->
  (forall c, detail.y_start a <= c.2 < detail.y_end a -> 0 <= c.1 ->
     treated pc' c = true ->
     treated pc c = true \/ safe mask is_circle x_size y_size grid c = true) ->
  reads pc' ->
  ok (detail.mkSweep grid' (<[k := pc']> (detail.s_workers st)) pipeline').
Proof.
  intros [Hlw Hsh Hsafe Hreads] Ha Hk Hsh' Hnew Hreads'. constructor; simpl.
  - by rewrite length_insert.
  - done.
  - intros k' a' q c Ha' [[-> ->] | [Hne Hq]]%lookup_insert_inv Hb Hc Ht.
    + assert (a' = a) as -> by congruence.
      destruct (Hnew c Hb Hc Ht) as [Ht' | ?]; [| done]. by eapply Hsafe.
    + by eapply Hsafe.
  - intros k' q [[-> ->] | [Hne Hq]]%lookup_insert_inv; [done | by eapply Hreads].
Qed.

(** A step that leaves the worker at its pixel. *)
Lemma visits_phase st k a pc ph :
  ok st ->
  args !! k = Some a -> detail.s_workers st !! k = Some pc ->
  phase_iy ph = phase_iy (detail.pc_phase pc) ->
  reads (detail.mkPc (detail.pc_ix pc) ph (detail.pc_max_residual pc)) ->
  ok (detail.mkSweep (detail.s_grid st)
        (<[k := detail.mkPc (detail.pc_ix pc) ph (detail.pc_max_residual pc)]>
           (detail.s_workers st))
        (detail.s_pipeline st)).
Proof.
  intros Hok Ha Hk Hph Hreads. pose proof Hok as [Hlw Hsh Hsafe _].
  apply visits_update with a pc; try done.
  intros c _ _ Ht. left. revert Ht. unfold treated.
  cbn [detail.pc_phase detail.pc_ix]. by rewrite Hph.
Qed.

Lemma reads_safe ix iy :
  at_ mask (ix, iy) = Some true ->
  (forall j n, operands ix iy !! j = Some n -> in_range grid n.1 n.2 = true) ->
  safe mask is_circle x_size y_size grid (ix, iy) = true.
Proof.
  intros Hm Hin. unfold safe. rewrite Hm.
  pose proof (Hin 0%nat _ eq_refl) as H0. pose proof (Hin 1%nat _ eq_refl) as H1.
  pose proof (Hin 2%nat _ eq_refl) as H2. pose proof (Hin 3%nat _ eq_refl) as H3.
  pose proof (Hin 4%nat _ eq_refl) as H4. simpl in *.
  by rewrite H0, H1, H2, H3, H4.
Qed.

Lemma step_visits_ok k st st' :
  ok st -> step k st = Some st' -> ok st'.
Proof.
  intros Hok. pose proof Hok as [Hlw Hsh Hsafe Hreads]. unfold detail.thread_step.
  destruct (args !! k) as [a |] eqn:Ha; [| by intros [= <-]].
  destruct (detail.s_workers st !! k) as [pc |] eqn:Hk; [| by intros [= <-]].
  destruct (detail.finished_pc x_size pc); [by intros [= <-] |].
  pose proof (Hreads _ _ Hk) as Hpc. unfold reads_ok in Hpc.
  destruct (detail.pc_phase pc) as [| iy | iy loaded | iy rho] eqn:Hph.
  - destruct (detail.ready y_size a (detail.pc_ix pc) (detail.s_pipeline st))
      as [[] |]; simpl; [| by intros [= <-] | done].
    intros [= <-]. apply visits_update with a pc; try done.
    intros c Hb Hc. unfold treated. rewrite Hph. simpl. intros Ht. left. lia.
  - destruct (iy <? detail.y_end a) eqn:Hlt.
    + destruct (coeff mask (detail.pc_ix pc) iy) as [masked |] eqn:Hm; [| done].
      simpl. intros [= <-]. destruct masked.
      * apply visits_phase with a; try done; [by rewrite Hph |].
        unfold reads_ok. simpl. split; [done |]. intros j n Hj. lia.
      * apply visits_update with a pc; try done.
        intros c Hb Hc. unfold treated. rewrite Hph. simpl. intros Ht.
        destruct (decide (c = (detail.pc_ix pc, iy))) as [-> | Hne].
        -- right. unfold safe, at_. simpl. by rewrite Hm.
        -- left. destruct c as [x' y']. simpl in *.
           assert (~ (x' = detail.pc_ix pc /\ y' = iy)) by (intros [-> ->]; done).
           lia.
    + intros [= <-]. apply visits_update with a pc; try done.
      intros c Hb Hc. unfold treated. rewrite Hph. simpl. intros Ht. left. lia.
  - destruct Hpc as [Hm Hin].
    destruct (operands (detail.pc_ix pc) iy !! length loaded) as [n |] eqn:Hn; [| done].
    simpl. destruct (coeff (detail.s_grid st) n.1 n.2) as [v |] eqn:Hv; [| done].
    simpl. intros [= <-].
    apply coeff_in_range in Hv. rewrite (same_shape_in_range _ _ _ _ Hsh) in Hv.
    assert (Hin' : forall j n', (j < length (loaded ++ [v]))%nat ->
      operands (detail.pc_ix pc) iy !! j = Some n' -> in_range grid n'.1 n'.2 = true).
    { intros j n' Hj Hn'. rewrite length_app in Hj. simpl in Hj.
      destruct (decide (j = length loaded)) as [-> | Hne]; [congruence |].
      apply (Hin j); [lia | done]. }
    apply visits_phase with a; try done.
    { rewrite Hph. by destruct (detail.residual_from _ _). }
    unfold reads_ok. simpl.
    destruct (detail.residual_from relaxation (loaded ++ [v])) as [rho |] eqn:Hres.
    + split; [done |]. intros j n' Hn'. apply (Hin' j); [| done].
      assert (is_Some (detail.residual_from relaxation (loaded ++ [v]))) as Hl by eauto.
      apply residual_from_length in Hl. rewrite Hl.
      apply lookup_lt_Some in Hn'. simpl in Hn'. lia.
    + split; [done |]. exact Hin'.
  - destruct Hpc as [Hm Hin].
    destruct (coeff (detail.s_grid st) (detail.pc_ix pc) iy) as [current |]; [| done].
    simpl.
    destruct (set_coeff (detail.s_grid st) (detail.pc_ix pc) iy (current + rho)%float)
      as [grid' |] eqn:Hset; [| done].
    simpl. intros [= <-].
    apply visits_update with a pc; try done.
    + destruct (set_coeff_shape _ _ _ _ _ Hset) as (? & ? & ?).
      destruct Hsh as (? & ? & ?). repeat split; congruence.
    + intros c Hb Hc. unfold treated. rewrite Hph. simpl. intros Ht.
      destruct (decide (c = (detail.pc_ix pc, iy))) as [-> | Hne].
      * right. by apply reads_safe.
      * left. destruct c as [x' y']. simpl in *.
        assert (~ (x' = detail.pc_ix pc /\ y' = iy)) by (intros [-> ->]; done).
        lia.
Qed.

Lemma run_visits_ok schedule st st' :
  ok st ->
  detail.run mask is_circle relaxation x_size y_size args schedule st = Some st' ->
  ok st'.
Proof.
  revert st. induction schedule as [| k schedule IH]; intros st Hok; simpl.
  { by intros [= <-]. }
  unfold detail.run. simpl. destruct (step k st) as [st1 |] eqn:E; [| done].
  simpl. apply IH. by eapply step_visits_ok.
Qed.

Lemma join_visits_ok fuel st st' :
  ok st ->
  detail.join mask is_circle relaxation x_size y_size args fuel st = Some st' ->
  ok st'.
Proof.
  revert st. induction fuel as [| fuel IH]; intros st Hok; simpl.
  { by intros [= <-]. }
  destruct (detail.next_thread x_size (detail.s_workers st)); [| by intros [= <-]].
  destruct (step n st) as [st1 |] eqn:E; [| done].
  simpl. apply IH. by eapply step_visits_ok.
Qed.

Lemma start_visits_ok n :
  n = length args -> ok (detail.start_state n grid).
Proof.
  intros ->. constructor; simpl.
  - apply length_replicate.
  - done.
  - intros k a pc c _ [-> _]%lookup_replicate _ Hc. unfold treated. simpl. lia.
  - by intros k pc [-> _]%lookup_replicate.
Qed.

(** When all the threads have returned, no visit went out of range. *)
Lemma finished_visits_ok st :
  bands_ok args y_size -> ok st ->
  forallb (detail.finished_pc x_size) (detail.s_workers st) = true ->
  forall c, 0 <= c.1 < x_size -> 0 <= c.2 < y_size ->
    safe mask is_circle x_size y_size grid c = true.
Proof.
  intros (_ & _ & Hcover) [Hlw Hsh Hsafe _] Hfin c Hx Hy.
  destruct (Hcover _ Hy) as (k & a & Ha & Hya).
  destruct (lookup_lt_is_Some_2 (detail.s_workers st) k) as [pc Hk].
  { rewrite Hlw. by eapply lookup_lt_Some. }
  apply (Hsafe k a pc c Ha Hk Hya); [lia |].
  apply Is_true_true, forallb_True in Hfin. rewrite Forall_lookup in Hfin.
  specialize (Hfin k pc Hk). apply Is_true_true in Hfin.
  unfold detail.finished_pc in Hfin. unfold treated. lia.
Qed.
End visits.

(** ** [detail::gauss_seidel] *)

Lemma gauss_seidel_one schedule grid mask is_circle relaxation :
  detail.gauss_seidel schedule grid mask is_circle relaxation 1 =
  detail.worker mask is_circle relaxation (rows grid) (cols grid) 0 (cols grid) grid.
Proof.
  unfold detail.gauss_seidel. simpl.
  by destruct (detail.worker _ _ _ _ _ _ _ _) as [[? ?] |].
Qed.

(** With any number of threads and any interleaving, a sweep is the
    single-threaded pass over the whole grid: the same grid and the same
    residual, or a fault when that pass has an access out of range. *)
Lemma gauss_seidel_threads schedule grid mask is_circle relaxation num_threads :
  wf_matrix grid -> num_threads <> 0%N ->
  detail.gauss_seidel schedule grid mask is_circle relaxation num_threads =
  detail.worker mask is_circle relaxation (rows grid) (cols grid) 0 (cols grid) grid.
Proof.
  intros Hwf Hn.
  destruct (decide (num_threads = 1%N)) as [-> | Hn1]; [apply gauss_seidel_one |].
  unfold detail.gauss_seidel.
  replace (num_threads =? 1)%N with false by (symmetry; by apply N.eqb_neq).
  replace (num_threads =? 0)%N with false by (symmetry; by apply N.eqb_neq).
  set (n := N.to_nat num_threads). set (x_size := rows grid). set (y_size := cols grid).
  set (args := detail.spawn y_size n).
  assert (Hn2 : (2 <= n)%nat) by lia.
  assert (Hlen : length args = n) by (apply spawn_length; lia).
  assert (Hbands : bands_ok args y_size).
  { apply spawn_bands; [done |]. destruct Hwf as (_ & ? & _). done. }
  rewrite <- Hlen.
  destruct (detail.worker mask is_circle relaxation x_size y_size 0 y_size grid)
    as [[after r] |] eqn:Hw.
  - destruct (worker_relaxed _ _ _ _ _ _ _ _ _ _ Hw) as (Hsh & _ & Hrel & Hmax).
    destruct (pipeline_result mask is_circle relaxation x_size y_size args grid after
                Hwf eq_refl eq_refl Hsh Hbands) with (schedule := schedule)
      as (st1 & st2 & r' & -> & Hjoin & Hfin & Hgrid & Hr & Hmax').
    { intros c Hx Hy. apply Hrel, elem_of_scan. done. }
    { by eapply same_shape_wf. }
    { lia. }
    simpl. rewrite Hjoin. simpl. rewrite Hfin, Hr. simpl. rewrite Hgrid.
    do 2 f_equal. eapply max_residual_over_unique; [exact Hmax' |].
    eapply max_residual_over_ext; [| exact Hmax].
    intros c. by rewrite elem_of_scan.
  - destruct (detail.run _ _ _ _ _ _ _ _) as [st1 |] eqn:Hrun; [| done]. simpl.
    destruct (detail.join _ _ _ _ _ _ _ _) as [st2 |] eqn:Hjoin; [| done]. simpl.
    destruct (forallb _ _) eqn:Hfin; [| done].
    assert (Hok : visits_ok mask is_circle x_size y_size args grid st2).
    { eapply join_visits_ok; [| exact Hjoin].
      eapply run_visits_ok; [| exact Hrun].
      by apply start_visits_ok. }
    pose proof (finished_visits_ok _ _ _ _ _ _ _ Hbands Hok Hfin) as Hsafe.
    assert (is_Some (detail.worker mask is_circle relaxation x_size y_size 0 y_size grid))
      as [? Hs]; [| congruence].
    apply worker_safe; [done |]. intros c Hx Hy. by apply Hsafe.
Qed.

(** ** The claims on one sweep *)

Lemma mul_comm (x y : float) : (x * y)%float = (y * x)%float.
Proof.
  apply Prim2SF_inj. rewrite !FloatAxioms.mul_spec. unfold SF64mul, SFmul.
  destruct (Prim2SF x) as [sx | sx | | sx mx ex], (Prim2SF y) as [sy | sy | | sy my ey];
    try reflexivity; rewrite ?(xorb_comm sx sy); try reflexivity.
  by rewrite (Pos.mul_comm mx my), (Z.add_comm ex ey).
Qed.

(** C2. A sweep run by two or more threads under the handshake of the
    pipeline, in any interleaving, gives what the single-threaded sweep
    gives: the same grid and the same maximum residual (or the same fault).
    Every pixel is updated from the values the single-threaded scan finds:
    the new ones in the pixels the scan reaches earlier, the old ones in
    the others. *)
Theorem pipelined_sweep_equals_sequential schedule schedule' grid mask is_circle
    relaxation num_threads :
  wf_matrix grid -> (2 <= num_threads)%N ->
  detail.gauss_seidel schedule grid mask is_circle relaxation num_threads =
  detail.gauss_seidel schedule' grid mask is_circle relaxation 1 /\
  forall after r,
    detail.gauss_seidel schedule grid mask is_circle relaxation num_threads =
      Some (after, r) ->
    forall c, 0 <= c.1 < rows grid -> 0 <= c.2 < cols grid ->
      relaxed_cell mask is_circle relaxation (rows grid) (cols grid) grid after c.
Proof.
  intros Hwf Hn. rewrite !gauss_seidel_threads by (done || lia). split; [done |].
  intros after r (_ & _ & Hrel & _)%worker_relaxed c Hx Hy.
  apply Hrel, elem_of_scan. done.
Qed.

Lemma pipelined_sweep_equals_sequential_witness :
  wf_matrix checkerboard_seeded /\ (2 <= 3)%N /\
  (detail.gauss_seidel round_robin checkerboard_seeded checkerboard_mask true 1 3 =
   detail.gauss_seidel [] checkerboard_seeded checkerboard_mask true 1 1 /\
   forall after r,
     detail.gauss_seidel round_robin checkerboard_seeded checkerboard_mask true 1 3 =
       Some (after, r) ->
     forall c, 0 <= c.1 < rows checkerboard_seeded ->
       0 <= c.2 < cols checkerboard_seeded ->
       relaxed_cell checkerboard_mask true 1 (rows checkerboard_seeded)
         (cols checkerboard_seeded) checkerboard_seeded after c).
Proof.
  assert (Hwf : wf_matrix checkerboard_seeded).
  { split; [by vm_compute |]. split; [by vm_compute |]. by vm_compute. }
  split; [exact Hwf |]. split; [lia |].
  apply pipelined_sweep_equals_sequential; [exact Hwf | lia].
Defined.

Example checkerboard_sweep_runs :
  is_Some (detail.gauss_seidel round_robin checkerboard_seeded checkerboard_mask true 1 3).
Proof. vm_compute. eauto. Qed.

(** C1. In one sweep every masked pixel receives
    [residual = relaxation * (0.25 * (left + right + below + above) - current)],
    the neighbours being read as the scan finds them, the pixels that are
    not masked keep their value, and the residual returned is the largest
    absolute residual: it is the absolute residual of a masked pixel (or
    zero when there is none to exceed it) and none is larger. *)
Theorem sweep_relaxes_masked_cells schedule grid mask is_circle relaxation
    num_threads after r :
  wf_matrix grid -> num_threads <> 0%N ->
  detail.gauss_seidel schedule grid mask is_circle relaxation num_threads =
    Some (after, r) ->
  (forall c, 0 <= c.1 < rows grid -> 0 <= c.2 < cols grid ->
     match at_ mask c with
     | Some true =>
         exists left right below above current,
           seen grid after c (detail.ix0 is_circle (rows grid) c.1, c.2) = Some left /\
           seen grid after c (detail.ix1 is_circle (rows grid) c.1, c.2) = Some right /\
           seen grid after c (c.1, detail.iy0 c.2) = Some below /\
           seen grid after c (c.1, detail.iy1 (cols grid) c.2) = Some above /\
           at_ grid c = Some current /\
           let residual :=
             (relaxation * (0.25 * (left + right + below + above) - current))%float in
           at_ after c = Some (current + residual)%float /\
           (r <? fabs residual)%float = false
     | Some false => at_ after c = at_ grid c
     | None => False
     end) /\
  magnitude r /\
  (r = 0%float \/
   exists c residual,
     (0 <= c.1 < rows grid /\ 0 <= c.2 < cols grid) /\ at_ mask c = Some true /\
     residual_at is_circle relaxation (rows grid) (cols grid) grid after c =
       Some residual /\
     r = fabs residual).
Proof.
  intros Hwf Hn. rewrite gauss_seidel_threads by done.
  intros (_ & _ & Hrel & Hm & Hw & _ & Hall)%worker_relaxed.
  split; [| split; [done |]].
  - intros c Hx Hy.
    assert (Hc : c ∈ scan (rows grid) 0 (cols grid)) by by apply elem_of_scan.
    specialize (Hrel c Hc). unfold relaxed_cell in Hrel.
    destruct (at_ mask c) as [[] |] eqn:Hmc; [| done | done].
    destruct Hrel as (rho & v & Hres & Hv & Haft).
    pose proof Hres as Hres'. unfold residual_at in Hres'.
    apply bind_Some in Hres' as (vl & Hl & Hres').
    apply bind_Some in Hres' as (vr & Hr & Hres').
    apply bind_Some in Hres' as (vb & Hb & Hres').
    apply bind_Some in Hres' as (va & Ha & Hres').
    apply bind_Some in Hres' as (vc & Hvc & Hres').
    injection Hres' as Hrho. assert (vc = v) as -> by congruence.
    exists vl, vr, vb, va, v. repeat (split; [done |]).
    unfold detail.residual_of in Hrho. rewrite mul_comm in Hrho. simpl.
    rewrite Hrho. split; [done |]. by apply (Hall c rho).
  - destruct Hw as [-> | (c & rho & Hc%elem_of_scan & ?)]; [by left | right].
    exists c, rho. done.
Qed.

Lemma sweep_relaxes_masked_cells_witness :
  wf_matrix checkerboard_seeded /\ 3%N <> 0%N /\
  detail.gauss_seidel round_robin checkerboard_seeded checkerboard_mask true 1 3 =
    Some checkerboard_swept /\
  magnitude checkerboard_swept.2.
Proof.
  assert (Hwf : wf_matrix checkerboard_seeded).
  { split; [by vm_compute |]. split; [by vm_compute |]. by vm_compute. }
  assert (E : detail.gauss_seidel round_robin checkerboard_seeded checkerboard_mask
                true 1 3 = Some checkerboard_swept) by by vm_compute.
  split; [exact Hwf |]. split; [done |]. split; [exact E |].
  exact (proj1 (proj2 (sweep_relaxes_masked_cells round_robin checkerboard_seeded
           checkerboard_mask true 1 3 _ _ Hwf ltac:(done) E))).
Defined.

(** C3. The neighbours of every pixel a sweep updates.  For every masked
    pixel [(ix, iy)] of a sweep that returns, with any number of threads
    and any interleaving, the new value is computed from the values found
    at these four places.  Along the x-axis: [ix - 1] and [ix + 1], except
    that at [ix = 0] the left neighbour is the last index when [is_circle]
    holds and 1 otherwise, and at the last index the right neighbour is 0
    when [is_circle] holds and [x_size - 2] otherwise.  Along the y-axis:
    [iy - 1] and [iy + 1], except that at [iy = 0] the neighbour below is 1
    and at the last index the neighbour above is [y_size - 2], whether
    [is_circle] holds or not. *)
Theorem sweep_reads_wrapped_or_clamped_neighbours schedule grid mask is_circle
    relaxation num_threads after r ix iy :
  wf_matrix grid -> num_threads <> 0%N ->
  detail.gauss_seidel schedule grid mask is_circle relaxation num_threads =
    Some (after, r) ->
  0 <= ix < rows grid -> 0 <= iy < cols grid -> coeff mask ix iy = Some true ->
  exists left right below above current,
    seen grid after (ix, iy)
      (if ix =? 0 then (if is_circle then rows grid - 1 else 1) else ix - 1, iy) =
      Some left /\
    seen grid after (ix, iy)
      (if ix =? rows grid - 1 then (if is_circle then 0 else rows grid - 2) else ix + 1,
       iy) = Some right /\
    seen grid after (ix, iy) (ix, if iy =? 0 then 1 else iy - 1) = Some below /\
    seen grid after (ix, iy)
      (ix, if iy =? cols grid - 1 then cols grid - 2 else iy + 1) = Some above /\
    coeff grid ix iy = Some current /\
    coeff after ix iy =
      Some (current +
            (0.25 * (left + right + below + above) - current) * relaxation)%float.
Proof.
  intros Hwf Hn. rewrite gauss_seidel_threads by done.
  intros (_ & _ & Hrel & _)%worker_relaxed Hx Hy Hm.
  assert (Hc : (ix, iy) ∈ scan (rows grid) 0 (cols grid)) by by apply elem_of_scan.
  specialize (Hrel (ix, iy) Hc). unfold relaxed_cell, at_ in Hrel. simpl in Hrel.
  rewrite Hm in Hrel. destruct Hrel as (rho & v & Hres & Hv & Haft).
  unfold residual_at in Hres.
  apply bind_Some in Hres as (vl & Hl & Hres).
  apply bind_Some in Hres as (vr & Hr & Hres).
  apply bind_Some in Hres as (vb & Hb & Hres).
  apply bind_Some in Hres as (va & Ha & Hres).
  apply bind_Some in Hres as (vc & Hvc & Hres).
  injection Hres as Hrho. unfold at_ in Hvc. simpl in Hvc.
  assert (vc = v) as -> by congruence.
  exists vl, vr, vb, va, v. unfold detail.residual_of in Hrho. rewrite Haft, <- Hrho.
  repeat split; done.
Qed.

Lemma sweep_reads_wrapped_or_clamped_neighbours_witness :
  wf_matrix checkerboard_seeded /\ 3%N <> 0%N /\
  detail.gauss_seidel round_robin checkerboard_seeded checkerboard_mask true 1 3 =
    Some (checkerboard_swept.1, checkerboard_swept.2) /\
  coeff checkerboard_mask 0 0 = Some true /\
  exists left right below above current,
    seen checkerboard_seeded checkerboard_swept.1 (0, 0) (7, 0) = Some left /\
    seen checkerboard_seeded checkerboard_swept.1 (0, 0) (1, 0) = Some right /\
    seen checkerboard_seeded checkerboard_swept.1 (0, 0) (0, 1) = Some below /\
    seen checkerboard_seeded checkerboard_swept.1 (0, 0) (0, 1) = Some above /\
    coeff checkerboard_seeded 0 0 = Some current /\
    coeff checkerboard_swept.1 0 0 =
      Some (current + (0.25 * (left + right + below + above) - current) * 1)%float.
Proof.
  assert (Hwf : wf_matrix checkerboard_seeded).
  { split; [by vm_compute |]. split; [by vm_compute |]. by vm_compute. }
  assert (E : detail.gauss_seidel round_robin checkerboard_seeded checkerboard_mask
                true 1 3 = Some (checkerboard_swept.1, checkerboard_swept.2))
    by by vm_compute.
  assert (Hm : coeff checkerboard_mask 0 0 = Some true) by by vm_compute.
  split; [exact Hwf |]. split; [done |]. split; [exact E |]. split; [exact Hm |].
  assert (Hrows : rows checkerboard_seeded = 8) by by vm_compute.
  assert (Hcols : cols checkerboard_seeded = 8) by by vm_compute.
  destruct (sweep_reads_wrapped_or_clamped_neighbours round_robin checkerboard_seeded
              checkerboard_mask true 1 3 _ _ 0 0 Hwf ltac:(lia) E
              ltac:(rewrite Hrows; lia) ltac:(rewrite Hcols; lia) Hm)
    as (vl & vr & vb & va & v & Hl & Hr & Hb & Ha & Hv & Haft).
  rewrite Hrows in Hl, Hr. rewrite Hcols in Ha.
  exists vl, vr, vb, va, v. repeat split; assumption.
Defined.

(** The neighbours are in range on a grid with two columns at least, and
    two lines at least unless the x-axis wraps. *)
Lemma neighbours_in_range is_circle x_size y_size ix iy :
  2 <= x_size \/ is_circle = true -> 2 <= y_size ->
  0 <= ix < x_size -> 0 <= iy < y_size ->
  0 <= detail.ix0 is_circle x_size ix < x_size /\
  0 <= detail.ix1 is_circle x_size ix < x_size /\
  0 <= detail.iy0 iy < y_size /\
  0 <= detail.iy1 y_size iy < y_size.
Proof.
  intros Hx Hy Hix Hiy. unfold detail.ix0, detail.ix1, detail.iy0, detail.iy1.
  destruct Hx as [Hx | ->]; [destruct is_circle |]; repeat case_match; lia.
Qed.

Lemma safe_in_range mask is_circle grid c :
  same_shape mask grid -> 2 <= rows grid \/ is_circle = true -> 2 <= cols grid ->
  wf_matrix mask ->
  0 <= c.1 < rows grid -> 0 <= c.2 < cols grid ->
  safe mask is_circle (rows grid) (cols grid) grid c = true.
Proof.
  intros Hsh Hx Hy Hwfm Hcx Hcy. unfold safe, at_.
  destruct (coeff_is_Some mask c.1 c.2 Hwfm) as [b ->].
  { rewrite (same_shape_in_range _ _ _ _ Hsh). apply in_range_spec. lia. }
  destruct b; [| done].
  destruct (neighbours_in_range is_circle _ _ _ _ Hx Hy Hcx Hcy) as (? & ? & ? & ?).
  rewrite !andb_true_iff, !in_range_spec. lia.
Qed.

(** On a grid with two columns at least, and two lines at least unless
    the x-axis wraps, and with a mask of its shape, a sweep makes no access
    out of range: it returns. *)
Lemma gauss_seidel_total schedule grid mask is_circle relaxation num_threads :
  wf_matrix grid -> wf_matrix mask -> same_shape mask grid ->
  2 <= rows grid \/ is_circle = true -> 2 <= cols grid -> num_threads <> 0%N ->
  exists after r,
    detail.gauss_seidel schedule grid mask is_circle relaxation num_threads =
      Some (after, r) /\
    wf_matrix after /\ same_shape after grid.
Proof.
  intros Hwf Hwfm Hsh Hx Hy Hn. rewrite gauss_seidel_threads by done.
  destruct (proj2 (worker_safe mask is_circle relaxation (rows grid) (cols grid)
                     0 (cols grid) grid Hwf)) as [[after r] Hw].
  { intros c Hcx Hcy. by apply safe_in_range. }
  exists after, r. split; [done |].
  destruct (worker_relaxed _ _ _ _ _ _ _ _ _ _ Hw) as (Hsh' & _).
  split; [by eapply same_shape_wf | done].
Qed.

(** C10. The neighbours a sweep reads are in range when the grid has two
    lines and two columns at least, and the sweep then returns; with one
    line only (and no wrap) the neighbours along x are 1 and -1, with one
    column only the neighbours along y are 1 and -1, all outside the grid,
    and a sweep over a masked pixel of such a grid reads out of range. *)
Theorem sweep_in_range_iff_two_by_two :
  (forall is_circle x_size y_size ix iy,
     2 <= x_size -> 2 <= y_size -> 0 <= ix < x_size -> 0 <= iy < y_size ->
     0 <= detail.ix0 is_circle x_size ix < x_size /\
     0 <= detail.ix1 is_circle x_size ix < x_size /\
     0 <= detail.iy0 iy < y_size /\
     0 <= detail.iy1 y_size iy < y_size) /\
  (forall schedule grid mask is_circle relaxation num_threads,
     wf_matrix grid -> wf_matrix mask -> same_shape mask grid ->
     2 <= rows grid -> 2 <= cols grid -> num_threads <> 0%N ->
     is_Some (detail.gauss_seidel schedule grid mask is_circle relaxation num_threads)) /\
  (detail.ix0 false 1 0 = 1 /\ detail.ix1 false 1 0 = -1 /\
   detail.iy0 0 = 1 /\ detail.iy1 1 0 = -1) /\
  (forall schedule grid mask is_circle relaxation num_threads c,
     wf_matrix grid -> num_threads <> 0%N ->
     0 <= c.1 < rows grid -> 0 <= c.2 < cols grid -> at_ mask c = Some true ->
     (rows grid = 1 /\ is_circle = false) \/ cols grid = 1 ->
     detail.gauss_seidel schedule grid mask is_circle relaxation num_threads = None).
Proof.
  split; [intros; apply neighbours_in_range; auto |]. split; [| split; [done |]].
  - intros schedule grid mask is_circle relaxation num_threads Hwf Hwfm Hsh Hx Hy Hn.
    destruct (gauss_seidel_total schedule grid mask is_circle relaxation num_threads)
      as (after & r & -> & _); eauto.
  - intros schedule grid mask is_circle relaxation num_threads c Hwf Hn Hcx Hcy Hm Hone.
    rewrite gauss_seidel_threads by done.
    apply eq_None_not_Some. rewrite worker_safe by done. intros Hsafe.
    specialize (Hsafe c Hcx Hcy). unfold safe in Hsafe. rewrite Hm in Hsafe.
    rewrite !andb_true_iff, !in_range_spec in Hsafe.
    unfold detail.ix0, detail.iy0 in Hsafe.
    destruct Hone as [[Hr ->] | Hc]; repeat case_match; lia.
Qed.

Example one_by_one_sweep_faults :
  detail.gauss_seidel [] (mkMatrix 1 1 [0%float]) (mkMatrix 1 1 [true]) false 1 1 = None.
Proof. reflexivity. Qed.

Example one_line_circular_sweep_runs :
  detail.gauss_seidel [] (mkMatrix 1 2 [0; 4]%float) (mkMatrix 1 2 [true; false]) true 1 1 =
  Some (mkMatrix 1 2 [2; 4]%float, 2%float).
Proof. reflexivity. Qed.

(** ** The first guess by zonal average *)

Section zonal.
Variable mask : Matrix bool.
Hypothesis Hwfm : wf_matrix mask.

Lemma accumulate_line iy (grid : Matrix float) l acc :
  wf_matrix grid -> same_shape mask grid ->
  (forall ix, ix ∈ l -> 0 <= ix < rows grid) -> 0 <= iy < cols grid ->
  for_each l
    (fun ix acc =>
       masked ← coeff mask ix iy;
       if masked : bool then Some acc
       else v ← coeff grid ix iy; Some (detail.acc_push acc v)) acc =
  Some (fold_left detail.acc_push
          (omap (fun ix => match coeff mask ix iy with
                           | Some false => coeff grid ix iy
                           | _ => None
                           end) l) acc).
Proof.
  intros Hwf Hsh Hl Hiy. revert acc. induction l as [| ix l IH]; intros acc; simpl; [done |].
  assert (Hin : in_range grid ix iy = true).
  { apply in_range_spec. split; [apply Hl; by left | done]. }
  destruct (coeff_is_Some mask ix iy Hwfm) as [b Hb].
  { by rewrite (same_shape_in_range _ _ _ _ Hsh). }
  destruct (coeff_is_Some grid ix iy Hwf Hin) as [v Hv].
  rewrite Hb. simpl. destruct b; simpl.
  - apply IH. intros. apply Hl. by right.
  - rewrite Hv. simpl. apply IH. intros. apply Hl. by right.
Qed.

Lemma fold_acc_push values acc :
  fold_left detail.acc_push values acc =
  detail.mkAcc (detail.acc_count acc + N.of_nat (length values))
    (fold_left PrimFloat.add values (detail.acc_sum acc)).
Proof.
  revert acc. induction values as [| v values IH]; intros acc; simpl.
  - destruct acc. simpl. f_equal. lia.
  - rewrite IH. simpl. f_equal. lia.
Qed.

Lemma first_guess_mean values :
  (if (detail.acc_count (fold_left detail.acc_push values detail.acc_empty) =? 0)%N
   then 0%float
   else detail.acc_mean (fold_left detail.acc_push values detail.acc_empty)) =
  zonal_mean values.
Proof.
  rewrite fold_acc_push. unfold detail.acc_mean, zonal_mean. simpl.
  destruct values as [| v values]; [done |].
  replace (N.of_nat (length (v :: values)) =? 0)%N with false; [done |].
  symmetry. apply N.eqb_neq. simpl. lia.
Qed.

(** The second loop of a line: the masked pixels of the line receive the
    first guess, nothing else changes. *)
Lemma assign_line iy (guess : float) (grid : Matrix float) l (cur : Matrix float) :
  wf_matrix cur -> same_shape mask grid -> same_shape cur grid ->
  (forall ix, ix ∈ l -> 0 <= ix < rows grid) -> 0 <= iy < cols grid ->
  exists after,
    for_each l
      (fun ix grid =>
         masked ← coeff mask ix iy;
         if masked : bool then set_coeff grid ix iy guess else Some grid) cur =
      Some after /\
    same_shape after grid /\
    forall c,
      at_ after c =
      if bool_decide (c.2 = iy /\ c.1 ∈ l /\ at_ mask c = Some true)
      then Some guess else at_ cur c.
Proof.
  intros Hwf Hshm Hsh Hl Hiy. revert cur Hwf Hsh.
  induction l as [| ix l IH]; intros cur Hwf Hsh; simpl.
  { exists cur. split; [done |]. split; [done |]. intros c.
    rewrite bool_decide_eq_false_2; [done |]. intros (_ & H%elem_of_nil & _). done. }
  assert (Hin : in_range cur ix iy = true).
  { rewrite (same_shape_in_range _ _ _ _ Hsh). apply in_range_spec.
    split; [apply Hl; by left | done]. }
  destruct (coeff_is_Some mask ix iy Hwfm) as [b Hb].
  { by rewrite (same_shape_in_range _ _ _ _ Hshm), <- (same_shape_in_range _ _ _ _ Hsh). }
  rewrite Hb. simpl. destruct b.
  - destruct (set_coeff_is_Some cur ix iy guess Hwf Hin) as [cur1 Hset].
    rewrite Hset. simpl.
    assert (Hsh1 : same_shape cur1 grid).
    { destruct (set_coeff_shape _ _ _ _ _ Hset) as (? & ? & ?), Hsh as (? & ? & ?).
      repeat split; congruence. }
    destruct (IH ltac:(intros; apply Hl; by right) cur1
                (set_coeff_wf _ _ _ _ _ Hset Hwf) Hsh1) as (after & -> & Hsha & Hafter).
    exists after. split; [done |]. split; [done |]. intros c. rewrite Hafter.
    destruct (decide (c = (ix, iy))) as [-> | Hne].
    + assert (Hnew : at_ cur1 (ix, iy) = Some guess) by (unfold at_; by eapply coeff_set_eq).
      assert (Hp : (ix, iy).2 = iy /\ (ix, iy).1 ∈ ix :: l /\ at_ mask (ix, iy) = Some true).
      { split; [done |]. split; [by left | done]. }
      rewrite Hnew. rewrite (bool_decide_eq_true_2 _ Hp). by case_bool_decide.
    + replace (at_ cur1 c) with (at_ cur c).
      2:{ symmetry. unfold at_. eapply coeff_set_ne; [done |].
          intros Heq. apply Hne. destruct c. by injection Heq as -> ->. }
      assert (Hp : (c.2 = iy /\ c.1 ∈ l /\ at_ mask c = Some true) <->
                   (c.2 = iy /\ c.1 ∈ ix :: l /\ at_ mask c = Some true)).
      { rewrite elem_of_cons. split; [intros (? & ? & ?); auto |].
        intros (? & [? | ?] & ?); [| done]. exfalso. apply Hne. destruct c. simpl in *. by subst. }
      repeat case_bool_decide; try done; exfalso; tauto.
  - simpl. destruct (IH ltac:(intros; apply Hl; by right) cur Hwf Hsh)
      as (after & -> & Hsha & Hafter).
    exists after. split; [done |]. split; [done |]. intros c. rewrite Hafter.
    assert (Hp : (c.2 = iy /\ c.1 ∈ l /\ at_ mask c = Some true) <->
                 (c.2 = iy /\ c.1 ∈ ix :: l /\ at_ mask c = Some true)).
    { rewrite elem_of_cons. split; [intros (? & ? & ?); auto |].
      intros (? & [? | ?] & Hm); [| done]. exfalso.
      unfold at_ in Hm. destruct c. simpl in *. subst. congruence. }
    repeat case_bool_decide; try done; exfalso; tauto.
Qed.

Lemma line_values_ext (grid cur : Matrix float) iy :
  rows cur = rows grid ->
  (forall c, at_ mask c = Some false -> at_ cur c = at_ grid c) ->
  line_values cur mask iy = line_values grid mask iy.
Proof.
  intros Hr Hc. unfold line_values. rewrite Hr.
  induction (zrange 0 (Z.to_nat (rows grid))) as [| ix l IH]; csimpl; [done |].
  rewrite IH. destruct (coeff mask ix iy) as [[] |] eqn:Hm; try done.
  change (coeff cur ix iy) with (at_ cur (ix, iy)). by rewrite (Hc (ix, iy) Hm).
Qed.

Lemma zonal_line_spec iy (grid cur : Matrix float) :
  wf_matrix cur -> same_shape mask grid -> same_shape cur grid ->
  0 <= iy < cols grid ->
  exists after,
    detail.zonal_line mask iy cur = Some after /\
    same_shape after grid /\
    forall c,
      at_ after c =
      if bool_decide (c.2 = iy /\ 0 <= c.1 < rows grid /\ at_ mask c = Some true)
      then Some (zonal_mean (line_values cur mask iy)) else at_ cur c.
Proof.
  intros Hwf Hshm Hsh Hiy. unfold detail.zonal_line, for_range.
  assert (Hr : rows cur = rows grid) by by destruct Hsh.
  assert (Hshm' : same_shape mask cur).
  { destruct Hshm as (? & ? & ?), Hsh as (? & ? & ?). repeat split; congruence. }
  rewrite !for_n_each, Z.sub_0_r.
  rewrite (accumulate_line iy cur); [| done | done | | ].
  2:{ intros ix Hix%elem_of_zrange. lia. }
  2:{ destruct Hsh as (_ & -> & _). done. }
  simpl. fold (line_values cur mask iy).
  rewrite (first_guess_mean (line_values cur mask iy)), for_n_each.
  destruct (assign_line iy (zonal_mean (line_values cur mask iy)) grid
              (zrange 0 (Z.to_nat (rows cur))) cur Hwf Hshm Hsh)
    as (after & -> & Hsha & Hafter); [| done |].
  { intros ix Hix%elem_of_zrange. lia. }
  exists after. split; [done |]. split; [done |]. intros c. rewrite Hafter.
  assert (Hp : c.1 ∈ zrange 0 (Z.to_nat (rows cur)) <-> 0 <= c.1 < rows grid).
  { rewrite elem_of_zrange. destruct Hwf as (? & _). lia. }
  repeat case_bool_decide; try done; exfalso; tauto.
Qed.

Lemma zonal_lines_spec (grid : Matrix float) l (cur : Matrix float) :
  wf_matrix cur -> same_shape mask grid -> same_shape cur grid ->
  (forall iy, iy ∈ l -> 0 <= iy < cols grid) ->
  exists after,
    for_each l (detail.zonal_line mask) cur = Some after /\
    same_shape after grid /\
    forall c,
      at_ after c =
      if bool_decide (c.2 ∈ l /\ 0 <= c.1 < rows grid /\ at_ mask c = Some true)
      then Some (zonal_mean (line_values cur mask c.2)) else at_ cur c.
Proof.
  intros Hwf Hshm Hsh Hl. revert cur Hwf Hsh.
  induction l as [| iy l IH]; intros cur Hwf Hsh; cbn [for_each].
  { exists cur. split; [done |]. split; [done |]. intros c.
    case_bool_decide as H; [| done]. by destruct H as (H%elem_of_nil & _). }
  destruct (zonal_line_spec iy grid cur Hwf Hshm Hsh) as (cur1 & -> & Hsh1 & Hcur1).
  { apply Hl. by left. }
  cbn [mbind option_bind].
  destruct (IH ltac:(intros; apply Hl; by right) cur1
              (same_shape_wf _ _ (same_shape_common cur1 cur grid Hsh1 Hsh) Hwf) Hsh1)
    as (after & -> & Hsha & Hafter).
  exists after. split; [done |]. split; [done |]. intros c.
  rewrite Hafter, Hcur1.
  assert (Hlv : forall iy', line_values cur1 mask iy' = line_values cur mask iy').
  { intros iy'. apply line_values_ext.
    - destruct Hsh1 as (? & _), Hsh as (? & _). congruence.
    - intros c' Hm. rewrite Hcur1. rewrite bool_decide_eq_false_2; [done |].
      intros (_ & _ & ?). congruence. }
  rewrite Hlv.
  assert (Hp : c.2 ∈ iy :: l <-> c.2 = iy \/ c.2 ∈ l) by apply elem_of_cons.
  repeat case_bool_decide; try done; try (exfalso; tauto).
  destruct H0 as (-> & _). done.
Qed.
End zonal.

(** C7. The first guess by zonal average gives to every masked pixel of a
    line [iy] the mean of the pixels of that line that are not masked (zero
    when all of them are masked) and leaves the other pixels as they are. *)
Theorem zonal_average_first_guess (grid : Matrix float) (mask : Matrix bool)
    (num_threads : N) :
  wf_matrix grid -> wf_matrix mask -> same_shape mask grid ->
  exists after,
    detail.set_zonal_average grid mask num_threads = Some after /\
    same_shape after grid /\
    forall ix iy, 0 <= ix < rows grid -> 0 <= iy < cols grid ->
      (coeff mask ix iy = Some true ->
       coeff after ix iy = Some (zonal_mean (line_values grid mask iy))) /\
      (coeff mask ix iy = Some false -> coeff after ix iy = coeff grid ix iy) /\
      ((forall ix', 0 <= ix' < rows grid -> coeff mask ix' iy = Some true) ->
       zonal_mean (line_values grid mask iy) = 0%float).
Proof.
  intros Hwf Hwfm Hsh. unfold detail.set_zonal_average, detail.dispatch, for_range.
  rewrite for_n_each, Z.sub_0_r.
  destruct (zonal_lines_spec mask Hwfm grid (zrange 0 (Z.to_nat (cols grid))) grid Hwf Hsh)
    as (after & -> & Hsha & Hafter); [done | |].
  { intros iy Hiy%elem_of_zrange. lia. }
  exists after. split; [done |]. split; [done |]. intros ix iy Hix Hiy.
  specialize (Hafter (ix, iy)). unfold at_ in Hafter. simpl in Hafter.
  split; [| split].
  - intros Hm. rewrite Hafter, bool_decide_eq_true_2; [done |].
    split; [apply elem_of_zrange; lia | done].
  - intros Hm. rewrite Hafter, bool_decide_eq_false_2; [done |].
    intros (_ & _ & ?). congruence.
  - intros Hall. unfold line_values.
    assert (Hnil : forall l, (forall ix', ix' ∈ l -> 0 <= ix' < rows grid) ->
      omap (fun ix => match coeff mask ix iy with
                      | Some false => coeff grid ix iy
                      | _ => None
                      end) l = []).
    { induction l as [| ix' l IH]; intros Hl; csimpl; [done |].
      rewrite (Hall ix') by (apply Hl; by left). apply IH. intros. apply Hl. by right. }
    rewrite Hnil; [done |]. intros ix' H%elem_of_zrange. lia.
Qed.

Lemma zonal_average_first_guess_witness :
  wf_matrix sparse_grid /\ wf_matrix (isNaN sparse_grid) /\
  same_shape (isNaN sparse_grid) sparse_grid /\
  exists after,
    detail.set_zonal_average sparse_grid (isNaN sparse_grid) 1 = Some after /\
    same_shape after sparse_grid /\
    forall ix iy, 0 <= ix < rows sparse_grid -> 0 <= iy < cols sparse_grid ->
      (coeff (isNaN sparse_grid) ix iy = Some true ->
       coeff after ix iy =
       Some (zonal_mean (line_values sparse_grid (isNaN sparse_grid) iy))) /\
      (coeff (isNaN sparse_grid) ix iy = Some false ->
       coeff after ix iy = coeff sparse_grid ix iy) /\
      ((forall ix', 0 <= ix' < rows sparse_grid ->
          coeff (isNaN sparse_grid) ix' iy = Some true) ->
       zonal_mean (line_values sparse_grid (isNaN sparse_grid) iy) = 0%float).
Proof.
  assert (Hwf : wf_matrix sparse_grid).
  { split; [by vm_compute |]. split; [by vm_compute |]. by vm_compute. }
  assert (Hwfm : wf_matrix (isNaN sparse_grid)).
  { split; [by vm_compute |]. split; [by vm_compute |]. by vm_compute. }
  assert (Hsh : same_shape (isNaN sparse_grid) sparse_grid).
  { split; [by vm_compute |]. split; by vm_compute. }
  split; [exact Hwf |]. split; [exact Hwfm |]. split; [exact Hsh |].
  exact (zonal_average_first_guess sparse_grid (isNaN sparse_grid) 1 Hwf Hwfm Hsh).
Defined.

Example zonal_average_sparse_grid :
  detail.set_zonal_average sparse_grid (isNaN sparse_grid) 1 =
  Some (mkMatrix 2 2 [1; 1; 0; 0]%float).
Proof. reflexivity. Qed.

(** ** [fill::gauss_seidel] *)

(** [set_zonal_average] returns on every grid with a mask of its shape:
    it writes the mean of the line in the masked pixels and nothing
    else. *)
Lemma set_zonal_average_spec (grid : Matrix float) (mask : Matrix bool) num_threads :
  wf_matrix grid -> wf_matrix mask -> same_shape mask grid ->
  exists after,
    detail.set_zonal_average grid mask num_threads = Some after /\
    same_shape after grid /\
    forall c,
      at_ after c =
      if bool_decide (0 <= c.2 < cols grid /\ 0 <= c.1 < rows grid /\
                      at_ mask c = Some true)
      then Some (zonal_mean (line_values grid mask c.2)) else at_ grid c.
Proof.
  intros Hwf Hwfm Hsh. unfold detail.set_zonal_average, detail.dispatch, for_range.
  rewrite for_n_each, Z.sub_0_r.
  destruct (zonal_lines_spec mask Hwfm grid (zrange 0 (Z.to_nat (cols grid))) grid Hwf Hsh)
    as (after & -> & Hsha & Hafter); [done | |].
  { intros iy Hiy%elem_of_zrange. lia. }
  exists after. split; [done |]. split; [done |]. intros c. rewrite Hafter.
  destruct Hwf as (_ & Hc & _).
  assert (Hq : c.2 ∈ zrange 0 (Z.to_nat (cols grid)) <-> 0 <= c.2 < cols grid).
  { rewrite elem_of_zrange. lia. }
  repeat case_bool_decide; try done; exfalso; tauto.
Qed.

Lemma isNaN_shape (grid : Matrix float) :
  wf_matrix grid -> wf_matrix (isNaN grid) /\ same_shape (isNaN grid) grid.
Proof.
  intros (Hr & Hc & Hl). unfold wf_matrix, same_shape, isNaN. simpl.
  rewrite length_map. done.
Qed.

Lemma select_shape (mask : Matrix bool) v (grid : Matrix float) :
  wf_matrix grid -> same_shape mask grid ->
  wf_matrix (select mask v grid) /\ same_shape (select mask v grid) grid.
Proof.
  intros (Hr & Hc & Hl) (_ & _ & Hlm). unfold wf_matrix, same_shape, select. simpl.
  rewrite length_zip_with. lia.
Qed.

Lemma seeded_shape grid first_guess num_threads :
  wf_matrix grid ->
  exists start,
    seeded grid first_guess num_threads = Some start /\
    wf_matrix start /\ same_shape start grid.
Proof.
  intros Hwf. destruct (isNaN_shape grid Hwf) as [Hwfm Hshm].
  destruct first_guess; simpl.
  - eexists. split; [done |]. by apply select_shape.
  - destruct (set_zonal_average_spec grid (isNaN grid) num_threads Hwf Hwfm Hshm)
      as (after & -> & Hsh & _).
    exists after. split; [done |]. split; [by eapply same_shape_wf | done].
Qed.

Section sweeps.
Variable schedule : N -> list nat.
Variables (mask : Matrix bool) (is_circle : bool) (epsilon relaxation : float).
Variables (num_threads : N) (start : Matrix float).

Hypothesis Hn : num_threads <> 0%N.
Hypothesis Hwfm : wf_matrix mask.
Hypothesis Hshm : same_shape mask start.
Hypothesis Hx : 2 <= rows start \/ is_circle = true.
Hypothesis Hy : 2 <= cols start.

Abbreviation trace :=
  (after_sweeps schedule mask is_circle relaxation num_threads start).

(** The loop of sweeps from iteration [i] on: it stops at the first sweep
    whose residual is below [epsilon], or when the budget is spent. *)
Lemma sweeps_spec budget i grid r :
  trace i = Some (grid, r) -> wf_matrix grid -> same_shape grid start ->
  exists k after residual,
    fill.sweeps schedule budget mask is_circle epsilon relaxation num_threads
      (grid, N.of_nat i, r) = Some (after, N.of_nat k, residual) /\
    (i <= k <= i + budget)%nat /\
    trace k = Some (after, residual) /\
    (k = (i + budget)%nat \/ ((i < k)%nat /\ (residual <? epsilon)%float = true)) /\
    forall j g' r', (i < j < k)%nat -> trace j = Some (g', r') ->
      (r' <? epsilon)%float = false.
Proof.
  revert i grid r. induction budget as [| budget IH]; intros i grid r Hi Hwf Hsh.
  { exists i, grid, r. simpl. split; [done |]. split; [lia |]. split; [done |].
    split; [left; lia |]. intros; lia. }
  assert (Hshm' : same_shape mask grid).
  { destruct Hshm as (? & ? & ?), Hsh as (? & ? & ?). repeat split; congruence. }
  destruct (gauss_seidel_total (schedule (N.of_nat i)) grid mask is_circle relaxation
              num_threads Hwf Hwfm Hshm') as (grid1 & r1 & Hsweep & Hwf1 & Hsh1);
    [destruct Hsh as (-> & _); done | destruct Hsh as (_ & -> & _); done | done |].
  assert (Hi1 : trace (S i) = Some (grid1, r1)).
  { simpl. rewrite Hi. simpl. done. }
  assert (Hsh1' : same_shape grid1 start).
  { destruct Hsh1 as (? & ? & ?), Hsh as (? & ? & ?). repeat split; congruence. }
  simpl. rewrite Hsweep. simpl.
  replace (N.of_nat i + 1)%N with (N.of_nat (S i)) by lia.
  destruct (r1 <? epsilon)%float eqn:Hr1.
  - exists (S i), grid1, r1. split; [done |]. split; [lia |]. split; [done |].
    split; [right; split; [lia | done] |]. intros; lia.
  - destruct (IH (S i) grid1 r1 Hi1 Hwf1 Hsh1')
      as (k & after & residual & -> & Hk & Htr & Hstop & Hearlier).
    exists k, after, residual. split; [done |]. split; [lia |]. split; [done |].
    split.
    + destruct Hstop as [-> | [? ?]]; [left; lia | right; split; [lia | done]].
    + intros j g' r' Hj Hj'. destruct (decide (j = S i)) as [-> | Hne].
      * congruence.
      * eapply Hearlier; [| done]. lia.
Qed.
End sweeps.

Lemma sweeps_threads schedule budget mask is_circle epsilon relaxation num_threads
    grid iteration r :
  wf_matrix grid -> num_threads <> 0%N ->
  fill.sweeps schedule budget mask is_circle epsilon relaxation num_threads
    (grid, iteration, r) =
  fill.sweeps (fun _ => []) budget mask is_circle epsilon relaxation 1
    (grid, iteration, r).
Proof.
  intros Hwf Hn. revert grid iteration r Hwf.
  induction budget as [| budget IH]; intros grid iteration r Hwf; simpl; [done |].
  rewrite !gauss_seidel_threads by done.
  destruct (detail.worker _ _ _ _ _ _ _ _) as [[grid1 r1] |] eqn:Hw; simpl; [| done].
  destruct (r1 <? epsilon)%float; [done |]. apply IH.
  destruct (worker_relaxed _ _ _ _ _ _ _ _ _ _ Hw) as (Hsh & _).
  by eapply same_shape_wf.
Qed.

(** The result of [fill::gauss_seidel] depends neither on the number of
    threads nor on their interleaving. *)
Lemma fill_threads hardware_concurrency schedule grid first_guess is_circle
    max_iterations epsilon relaxation num_threads :
  wf_matrix grid -> effective_threads hardware_concurrency num_threads <> 0%N ->
  fill.gauss_seidel hardware_concurrency schedule grid first_guess is_circle
    max_iterations epsilon relaxation num_threads =
  fill.gauss_seidel 1 (fun _ => []) grid first_guess is_circle
    max_iterations epsilon relaxation 1.
Proof.
  intros Hwf Hn. unfold fill.gauss_seidel. destruct (hasNaN grid); simpl; [| done].
  fold (effective_threads hardware_concurrency num_threads).
  destruct (seeded_shape grid first_guess 1 Hwf) as (start & Hstart & Hwfs & _).
  assert (Hs : forall n,
    match first_guess with
    | fill.kZero => Some (select (isNaN grid) 0%float grid)
    | fill.kZonalAverage => detail.set_zonal_average grid (isNaN grid) n
    end = Some start).
  { intros n. rewrite <- Hstart. by destruct first_guess. }
  rewrite !Hs. simpl. by apply sweeps_threads.
Qed.

(** C4, as the code has it.  On a grid with an undefined pixel, two
    columns at least, and two lines at least unless the x-axis wraps, with
    a thread to run on, the call returns: it made [k] sweeps of the seeded
    grid, [k] is at most [max_iterations], the residual returned is the one
    of the last sweep, the loop stopped because the budget was spent or
    because that residual is below [epsilon], and no earlier sweep had a
    residual below [epsilon]. *)
Theorem relaxation_stops_on_tolerance_or_budget hardware_concurrency schedule grid
    first_guess is_circle max_iterations epsilon relaxation num_threads :
  wf_matrix grid -> hasNaN grid = true ->
  2 <= rows grid \/ is_circle = true -> 2 <= cols grid ->
  effective_threads hardware_concurrency num_threads <> 0%N ->
  exists start after k residual,
    seeded grid first_guess (effective_threads hardware_concurrency num_threads) =
      Some start /\
    fill.gauss_seidel hardware_concurrency schedule grid first_guess is_circle
      max_iterations epsilon relaxation num_threads =
      Some (after, N.of_nat k, residual) /\
    after_sweeps schedule (isNaN grid) is_circle relaxation
      (effective_threads hardware_concurrency num_threads) start k =
      Some (after, residual) /\
    (k <= N.to_nat max_iterations)%nat /\
    (k = N.to_nat max_iterations \/ (residual <? epsilon)%float = true) /\
    forall j g r, (0 < j < k)%nat ->
      after_sweeps schedule (isNaN grid) is_circle relaxation
        (effective_threads hardware_concurrency num_threads) start j = Some (g, r) ->
      (r <? epsilon)%float = false.
Proof.
  intros Hwf Hnan Hx Hy Hn. unfold fill.gauss_seidel. rewrite Hnan. simpl.
  fold (effective_threads hardware_concurrency num_threads).
  set (n := effective_threads hardware_concurrency num_threads) in *.
  destruct (seeded_shape grid first_guess n Hwf) as (start & Hstart & Hwfs & Hsh).
  destruct (isNaN_shape grid Hwf) as [Hwfm Hshm].
  assert (Hshm' : same_shape (isNaN grid) start).
  { destruct Hshm as (? & ? & ?), Hsh as (? & ? & ?). repeat split; congruence. }
  change (match first_guess with
          | fill.kZero => Some (select (isNaN grid) 0%float grid)
          | fill.kZonalAverage => detail.set_zonal_average grid (isNaN grid) n
          end) with (seeded grid first_guess n).
  rewrite Hstart. simpl.
  destruct (sweeps_spec schedule (isNaN grid) is_circle epsilon relaxation n start Hn
              Hwfm Hshm') with (budget := N.to_nat max_iterations) (i := 0%nat)
              (grid := start) (r := 0%float)
    as (k & after & residual & Hrun & Hk & Htr & Hstop & Hearlier);
    [destruct Hsh as (-> & _); done | destruct Hsh as (_ & -> & _); done
    | done | done | done |].
  exists start, after, k, residual. split; [done |]. split; [exact Hrun |].
  split; [done |]. split; [lia |]. split; [| done].
  destruct Hstop as [-> | [_ ?]]; [by left | by right].
Qed.

Lemma relaxation_stops_on_tolerance_or_budget_witness :
  wf_matrix flat_field /\ hasNaN flat_field = true /\
  (2 <= rows flat_field \/ false = true) /\ 2 <= cols flat_field /\
  effective_threads 4 0 <> 0%N /\
  exists after k residual,
    fill.gauss_seidel 4 (fun _ => []) flat_field fill.kZonalAverage false 1
      epsilon_1e_6 1 0 = Some (after, N.of_nat k, residual) /\
    (k <= N.to_nat 1)%nat.
Proof.
  assert (Hwf : wf_matrix flat_field).
  { split; [by vm_compute |]. split; [by vm_compute |]. by vm_compute. }
  split; [exact Hwf |]. split; [by vm_compute |]. split; [left; by vm_compute |].
  split; [by vm_compute |]. split; [by vm_compute |].
  destruct (relaxation_stops_on_tolerance_or_budget 4 (fun _ => []) flat_field
              fill.kZonalAverage false 1 epsilon_1e_6 1 0 Hwf)
    as (start & after & k & residual & _ & Hrun & _ & Hk & _);
    [by vm_compute | left; by vm_compute | by vm_compute | by vm_compute |].
  exists after, k, residual. split; [exact Hrun | exact Hk].
Defined.

(** C4 as stated fails on three inputs.  On a grid of one line whose
    x-axis does not wrap, the first sweep reads the line 1, and on a grid of
    one column it reads the column 1, which the grid does not have.  And
    when the caller leaves the number of threads to the machine
    ([num_threads = 0]) and [hardware_concurrency] answers 0, as the
    standard allows, the sweep is asked for zero threads, which its
    [assert] excludes. *)
Lemma fill_does_not_always_return :
  (hasNaN one_line = true /\
   fill.gauss_seidel 1 (fun _ => []) one_line fill.kZero false 50 epsilon_1e_6 1 1 =
   None) /\
  (hasNaN one_column = true /\
   fill.gauss_seidel 1 (fun _ => []) one_column fill.kZero true 50 epsilon_1e_6 1 1 =
   None) /\
  (hasNaN flat_field = true /\
   fill.gauss_seidel 0 (fun _ => []) flat_field fill.kZero false 50 epsilon_1e_6 1 0 =
   None).
Proof. repeat split; reflexivity. Qed.

Lemma hasNaN_false (grid : Matrix float) :
  hasNaN grid = false <-> Forall (fun v => is_nan v = false) (coeffs grid).
Proof.
  unfold hasNaN. induction (coeffs grid) as [| v l IH]; simpl.
  - split; [constructor | done].
  - rewrite orb_false_iff, IH, Forall_cons. done.
Qed.

(** C5. On a grid without NaN the call returns zero iterations and a zero
    residual and leaves the grid as it is. *)
Theorem fill_without_undefined_cells hardware_concurrency schedule grid first_guess
    is_circle max_iterations epsilon relaxation num_threads :
  Forall (fun v => is_nan v = false) (coeffs grid) ->
  fill.gauss_seidel hardware_concurrency schedule grid first_guess is_circle
    max_iterations epsilon relaxation num_threads = Some (grid, 0%N, 0%float).
Proof.
  intros H%hasNaN_false. unfold fill.gauss_seidel. by rewrite H.
Qed.

Lemma fill_without_undefined_cells_witness :
  Forall (fun v => is_nan v = false) (coeffs flat_field_filled) /\
  fill.gauss_seidel 0 (fun _ => []) flat_field_filled fill.kZonalAverage true 50
    epsilon_1e_6 1 0 = Some (flat_field_filled, 0%N, 0%float).
Proof.
  assert (H : Forall (fun v => is_nan v = false) (coeffs flat_field_filled)).
  { apply hasNaN_false. reflexivity. }
  split; [exact H |]. by apply fill_without_undefined_cells.
Defined.

(** C6 as stated fails: the example does not return after one iteration. *)
Lemma flat_field_not_one_iteration :
  ~ exists after residual,
      fill.gauss_seidel 1 (fun _ => []) flat_field fill.kZero false 50 epsilon_1e_6 1 1 =
      Some (after, 1%N, residual).
Proof. intros (after & residual & H). vm_compute in H. discriminate. Qed.

(** C6, as the code has it.  On the 5 x 5 grid of ones with an undefined
    centre, first guess zero, the call returns after two iterations with a
    residual of zero and the centre at one: the first sweep takes the
    centre from 0 to 1, a residual of 1, and only the second finds nothing
    to change. *)
Theorem flat_field_two_iterations hardware_concurrency schedule num_threads :
  effective_threads hardware_concurrency num_threads <> 0%N ->
  fill.gauss_seidel hardware_concurrency schedule flat_field fill.kZero false 50
    epsilon_1e_6 1 num_threads = Some (flat_field_filled, 2%N, 0%float) /\
  coeff flat_field_filled 2 2 = Some 1%float /\
  (0 <? epsilon_1e_6)%float = true /\
  after_sweeps (fun _ => []) (isNaN flat_field) false 1 1
    (select (isNaN flat_field) 0%float flat_field) 1 =
    Some (flat_field_filled, 1%float).
Proof.
  intros Hn. rewrite fill_threads; [by vm_compute | | done].
  split; [by vm_compute |]. split; [by vm_compute |]. by vm_compute.
Qed.

Lemma flat_field_two_iterations_witness :
  effective_threads 2 0 <> 0%N /\
  fill.gauss_seidel 2 (fun _ => [1; 0; 0; 1]%nat) flat_field fill.kZero false 50
    epsilon_1e_6 1 0 = Some (flat_field_filled, 2%N, 0%float).
Proof.
  assert (Hn : effective_threads 2 0 <> 0%N) by by vm_compute.
  split; [exact Hn |].
  exact (proj1 (flat_field_two_iterations 2 (fun _ => [1; 0; 0; 1]%nat) 0 Hn)).
Defined.

(** ** LOESS *)

Lemma SFltb_not_leb a b : SFltb a b = true -> SFleb b a = false.
Proof.
  unfold SFltb, SFleb.
  destruct a as [[] | [] | | [] ma ea], b as [[] | [] | | [] mb eb];
    simpl; try discriminate; try reflexivity;
    rewrite ?Pos.compare_cont_spec; simpl;
    rewrite (Z.compare_antisym ea eb); destruct (ea ?= eb); simpl;
    try discriminate; try reflexivity;
    rewrite (Pos.compare_antisym ma mb); destruct (ma ?= mb)%positive; simpl;
    try discriminate; reflexivity.
Qed.

(** Beyond the distance 1 the weight is zero. *)
Lemma tri_cube_beyond pow d : (1 <? d)%float = true -> fill.tri_cube pow d = 0%float.
Proof.
  intros H. unfold fill.tri_cube.
  rewrite FloatAxioms.leb_spec, SFltb_not_leb; [done |].
  by rewrite <- FloatAxioms.ltb_spec.
Qed.

Section loess.
Variable pow : float -> float -> float.
Variable grid : fill.Grid2D.
Variables nx ny : N.
Hypothesis Hok : grid2d_ok grid.

Lemma value_is_Some ix iy :
  0 <= ix < fill.axis_size (fill.x grid) -> 0 <= iy < fill.axis_size (fill.y grid) ->
  is_Some (fill.value grid ix iy).
Proof.
  destruct Hok as (Hwf & Hr & Hc & _). intros Hx Hy.
  apply coeff_is_Some; [done |]. apply in_range_spec. lia.
Qed.

Lemma coordinate_is_Some (a : fill.Axis) i :
  0 <= i < fill.axis_size a -> is_Some (fill.coordinate a i).
Proof.
  intros Hi. unfold fill.coordinate, fill.axis_size in *.
  replace (0 <=? i) with true by lia. apply lookup_lt_is_Some. lia.
Qed.

Lemma distance_is_Some px py wx wy :
  0 <= wx < fill.axis_size (fill.x grid) -> 0 <= wy < fill.axis_size (fill.y grid) ->
  is_Some (fill.distance grid nx ny px py wx wy).
Proof.
  intros Hx Hy. unfold fill.distance.
  destruct (coordinate_is_Some (fill.x grid) wx Hx) as [cx ->].
  destruct (coordinate_is_Some (fill.y grid) wy Hy) as [cy ->]. simpl. eauto.
Qed.

Lemma frame_cells px py (cells : list (Z * Z)) st :
  (forall c, c ∈ cells ->
     0 <= c.1 < fill.axis_size (fill.x grid) /\ 0 <= c.2 < fill.axis_size (fill.y grid)) ->
  for_each cells (fun c => fill.frame_step pow grid nx ny px py c.1 c.2) st =
  Some (weighted_sums pow
          (samples grid (fun c => fill.distance grid nx ny px py c.1 c.2) cells) st).
Proof.
  revert st. induction cells as [| c cells IH]; intros st Hc; [done |].
  destruct (Hc c ltac:(by left)) as [Hx Hy].
  destruct (value_is_Some c.1 c.2 Hx Hy) as [zi Hzi].
  destruct (distance_is_Some px py c.1 c.2 Hx Hy) as [d Hd].
  assert (Hstep : fill.frame_step pow grid nx ny px py c.1 c.2 st =
    Some (if is_nan zi then st
          else (st.1 + fill.tri_cube pow d * zi, st.2 + fill.tri_cube pow d)%float)).
  { unfold fill.frame_step. destruct st as [val weight]. rewrite Hzi. simpl.
    destruct (is_nan zi); simpl; [done |]. by rewrite Hd. }
  assert (Hsamp : samples grid (fun c => fill.distance grid nx ny px py c.1 c.2) (c :: cells) =
    (if is_nan zi then [] else [(d, zi)]) ++
    samples grid (fun c => fill.distance grid nx ny px py c.1 c.2) cells).
  { unfold samples. csimpl. rewrite Hzi. csimpl.
    destruct (is_nan zi); csimpl; [done |]. by rewrite Hd. }
  cbn [for_each]. rewrite Hstep, Hsamp. cbn [mbind option_bind].
  unfold option_bind. rewrite IH by (intros; apply Hc; by right).
  by destruct (is_nan zi).
Qed.

(** The two loops over the frame accumulate the weighted sums of the
    defined pixels of the window. *)
Lemma frame_loops px py st :
  for_each (fill.find_indexes (fill.x grid) px nx)
    (fun wx => for_each (fill.find_indexes (fill.y grid) py ny)
                 (fun wy => fill.frame_step pow grid nx ny px py wx wy)) st =
  Some (weighted_sums pow
          (samples grid (fun c => fill.distance grid nx ny px py c.1 c.2)
             (window grid nx ny px py)) st).
Proof.
  rewrite <- frame_cells.
  - unfold window. rewrite for_each_bind. apply for_each_ext.
    intros wx st' _. by rewrite for_each_fmap.
  - destruct Hok as (_ & _ & _ & Hfx & Hfy). intros c Hc. unfold window in Hc.
    apply list_elem_of_bind in Hc as (wx & (wy & -> & Hwy)%list_elem_of_fmap & Hwx).
    simpl. eauto.
Qed.

(** What [loess] stores for a pixel of the grid: the value of a defined
    pixel, and for an undefined one the weighted average of the defined
    pixels of its window, or the undefined value itself when the weights
    sum to zero. *)
Lemma loess_cell_spec ix iy :
  0 <= ix < fill.axis_size (fill.x grid) -> 0 <= iy < fill.axis_size (fill.y grid) ->
  exists px py z,
    fill.coordinate (fill.x grid) ix = Some px /\
    fill.coordinate (fill.y grid) iy = Some py /\
    fill.value grid ix iy = Some z /\
    fill.loess_cell pow grid nx ny ix iy =
    Some (if is_nan z
          then weighted_average pow
                 (samples grid (fun c => fill.distance grid nx ny px py c.1 c.2)
                    (window grid nx ny px py)) z
          else z).
Proof.
  intros Hx Hy.
  destruct (coordinate_is_Some (fill.x grid) ix Hx) as [px Hpx].
  destruct (coordinate_is_Some (fill.y grid) iy Hy) as [py Hpy].
  destruct (value_is_Some ix iy Hx Hy) as [z Hz].
  exists px, py, z. split; [done |]. split; [done |]. split; [done |].
  unfold fill.loess_cell. rewrite Hpx, Hz. simpl.
  destruct (is_nan z); [| done].
  rewrite Hpy. simpl. rewrite frame_loops. simpl. unfold weighted_average.
  by destruct (weighted_sums _ _ _).
Qed.
End loess.

(** Two loops that store [f ix iy] in every pixel of a grid. *)
Lemma store_line (f : Z -> Z -> option float) ix (l : list Z) (cur : Matrix float) :
  wf_matrix cur ->
  (forall iy, iy ∈ l -> in_range cur ix iy = true /\ is_Some (f ix iy)) ->
  exists after,
    for_each l (fun iy result => z ← f ix iy; set_coeff result ix iy z) cur =
      Some after /\
    same_shape after cur /\
    forall c, at_ after c =
              if bool_decide (c.1 = ix /\ c.2 ∈ l) then f c.1 c.2 else at_ cur c.
Proof.
  revert cur. induction l as [| iy l IH]; intros cur Hwf Hl; cbn [for_each].
  { exists cur. split; [done |]. split; [done |]. intros c.
    case_bool_decide as H; [| done]. by destruct H as (_ & H%elem_of_nil). }
  destruct (Hl iy ltac:(by left)) as [Hin [z Hz]]. rewrite Hz. cbn [mbind option_bind].
  destruct (set_coeff_is_Some cur ix iy z Hwf Hin) as [cur1 Hset]. rewrite Hset.
  cbn [mbind option_bind].
  destruct (set_coeff_shape _ _ _ _ _ Hset) as (Hr1 & Hc1 & Hl1).
  destruct (IH cur1 (set_coeff_wf _ _ _ _ _ Hset Hwf)) as (after & -> & Hsh & Hafter).
  { intros iy' Hiy'. destruct (Hl iy' ltac:(by right)) as [Hin' ?].
    split; [| done]. unfold in_range in *. by rewrite Hr1, Hc1. }
  exists after. split; [done |]. split.
  { destruct Hsh as (? & ? & ?). repeat split; congruence. }
  intros c. rewrite Hafter.
  assert (Hp : c.2 ∈ iy :: l <-> c.2 = iy \/ c.2 ∈ l) by apply elem_of_cons.
  destruct (decide (c = (ix, iy))) as [-> | Hne].
  - replace (at_ cur1 (ix, iy)) with (f ix iy).
    2:{ rewrite Hz. symmetry. unfold at_. by eapply coeff_set_eq. }
    simpl in *. repeat case_bool_decide; try done; exfalso; tauto.
  - replace (at_ cur1 c) with (at_ cur c).
    2:{ symmetry. unfold at_. eapply coeff_set_ne; [done |].
        intros Heq. apply Hne. destruct c. by injection Heq as -> ->. }
    assert (Hq : (c.1 = ix /\ c.2 ∈ l) <-> (c.1 = ix /\ c.2 ∈ iy :: l)).
    { rewrite elem_of_cons. split; [tauto |]. intros (? & [? | ?]); [| done].
      exfalso. apply Hne. destruct c. simpl in *. by subst. }
    repeat case_bool_decide; try done; exfalso; tauto.
Qed.

Lemma store_lines (f : Z -> Z -> option float) (xs ys : list Z) (cur : Matrix float) :
  wf_matrix cur ->
  (forall ix iy, ix ∈ xs -> iy ∈ ys -> in_range cur ix iy = true /\ is_Some (f ix iy)) ->
  exists after,
    for_each xs
      (fun ix => for_each ys (fun iy result => z ← f ix iy; set_coeff result ix iy z))
      cur = Some after /\
    same_shape after cur /\
    forall c, at_ after c =
              if bool_decide (c.1 ∈ xs /\ c.2 ∈ ys) then f c.1 c.2 else at_ cur c.
Proof.
  revert cur. induction xs as [| ix xs IH]; intros cur Hwf Hl; cbn [for_each].
  { exists cur. split; [done |]. split; [done |]. intros c.
    case_bool_decide as H; [| done]. by destruct H as (H%elem_of_nil & _). }
  destruct (store_line f ix ys cur Hwf) as (cur1 & -> & Hsh1 & Hcur1).
  { intros iy Hiy. apply Hl; [by left | done]. }
  cbn [mbind option_bind].
  destruct (IH cur1 (same_shape_wf _ _ Hsh1 Hwf)) as (after & -> & Hsh & Hafter).
  { intros ix' iy Hx' Hy'. destruct (Hl ix' iy ltac:(by right) Hy') as [Hin ?].
    split; [| done]. by rewrite (same_shape_in_range _ _ _ _ Hsh1). }
  exists after. split; [done |]. split.
  { destruct Hsh as (? & ? & ?), Hsh1 as (? & ? & ?). repeat split; congruence. }
  intros c. rewrite Hafter, Hcur1.
  assert (Hp : c.1 ∈ ix :: xs <-> c.1 = ix \/ c.1 ∈ xs) by apply elem_of_cons.
  repeat case_bool_decide; try done; exfalso; tauto.
Qed.

(** [loess] returns, and the result holds in every pixel what [loess_cell]
    computes for it. *)
Lemma loess_spec pow grid nx ny num_threads :
  grid2d_ok grid ->
  exists result,
    fill.loess pow grid nx ny num_threads = Some result /\
    rows result = fill.axis_size (fill.x grid) /\
    cols result = fill.axis_size (fill.y grid) /\
    forall ix iy,
      0 <= ix < fill.axis_size (fill.x grid) -> 0 <= iy < fill.axis_size (fill.y grid) ->
      coeff result ix iy = fill.loess_cell pow grid nx ny ix iy.
Proof.
  intros Hok. unfold fill.loess, detail.dispatch, for_range.
  rewrite for_n_each, Z.sub_0_r.
  set (sx := fill.axis_size (fill.x grid)). set (sy := fill.axis_size (fill.y grid)).
  assert (Hsx : 0 <= sx) by (unfold sx, fill.axis_size; lia).
  assert (Hsy : 0 <= sy) by (unfold sy, fill.axis_size; lia).
  assert (Hwf : wf_matrix (fill.array_t sx sy)).
  { unfold wf_matrix, fill.array_t. simpl. rewrite length_replicate. lia. }
  rewrite (for_each_ext _ _
             (fun ix => for_each (zrange 0 (Z.to_nat sy))
                          (fun iy result =>
                             z ← fill.loess_cell pow grid nx ny ix iy;
                             set_coeff result ix iy z))).
  2:{ intros ix st _. by rewrite for_n_each, Z.sub_0_r. }
  destruct (store_lines (fill.loess_cell pow grid nx ny) (zrange 0 (Z.to_nat sx))
              (zrange 0 (Z.to_nat sy)) (fill.array_t sx sy) Hwf)
    as (result & -> & Hsh & Hres).
  { intros ix iy Hx%elem_of_zrange Hy%elem_of_zrange. split.
    - apply in_range_spec. simpl. lia.
    - destruct (loess_cell_spec pow grid nx ny Hok ix iy) as (? & ? & ? & _ & _ & _ & ->);
        [fold sx; lia | fold sy; lia | eauto]. }
  exists result. destruct Hsh as (Hr & Hc & _). split; [done |]. split; [done |].
  split; [done |]. intros ix iy Hx Hy.
  specialize (Hres (ix, iy)). unfold at_ in Hres. simpl in Hres.
  rewrite Hres, bool_decide_eq_true_2; [done |].
  split; apply elem_of_zrange; lia.
Qed.

Lemma samples_undefined grid dist cells :
  (forall c zi, c ∈ cells -> fill.value grid c.1 c.2 = Some zi -> is_nan zi = true) ->
  samples grid dist cells = [].
Proof.
  induction cells as [| c cells IH]; intros H; [done |].
  unfold samples. csimpl. fold (samples grid dist cells).
  rewrite IH by (intros; eapply H; [by right | done]).
  destruct (fill.value grid c.1 c.2) as [zi |] eqn:E; csimpl; [| done].
  by rewrite (H c zi ltac:(by left) E).
Qed.

(** C9. An undefined pixel whose weights sum to zero, as when its window
    holds no defined pixel, is stored as it is: the output holds the NaN
    of the input, and the call returns. *)
Theorem loess_passes_undefined_through pow grid nx ny num_threads :
  grid2d_ok grid ->
  exists result,
    fill.loess pow grid nx ny num_threads = Some result /\
    forall ix iy px py z,
      0 <= ix < fill.axis_size (fill.x grid) -> 0 <= iy < fill.axis_size (fill.y grid) ->
      fill.coordinate (fill.x grid) ix = Some px ->
      fill.coordinate (fill.y grid) iy = Some py ->
      fill.value grid ix iy = Some z -> is_nan z = true ->
      (((weighted_sums pow
           (samples grid (fun c => fill.distance grid nx ny px py c.1 c.2)
              (window grid nx ny px py)) (0%float, 0%float)).2 =? 0)%float = true ->
       coeff result ix iy = Some z) /\
      ((forall c zi, c ∈ window grid nx ny px py ->
          fill.value grid c.1 c.2 = Some zi -> is_nan zi = true) ->
       coeff result ix iy = Some z).
Proof.
  intros Hok. destruct (loess_spec pow grid nx ny num_threads Hok)
    as (result & Hres & _ & _ & Hcell).
  exists result. split; [done |]. intros ix iy px py z Hx Hy Hpx Hpy Hz Hnan.
  rewrite (Hcell ix iy Hx Hy).
  destruct (loess_cell_spec pow grid nx ny Hok ix iy Hx Hy)
    as (px' & py' & z' & Hpx' & Hpy' & Hz' & ->).
  assert (px' = px) as -> by congruence. assert (py' = py) as -> by congruence.
  assert (z' = z) as -> by congruence. rewrite Hnan. unfold weighted_average.
  split.
  - by intros ->.
  - intros Hall. by rewrite samples_undefined.
Qed.

Lemma grid2d_ok_wide_grid : grid2d_ok wide_grid.
Proof.
  split; [split; [by vm_compute | split; by vm_compute] |].
  split; [by vm_compute |]. split; [by vm_compute |]. split.
  - intros c n wx H. simpl in H. change (fill.axis_size (fill.x wide_grid)) with 3.
    repeat (apply elem_of_cons in H as [-> | H]; [lia |]). by apply elem_of_nil in H.
  - intros c n wy H. simpl in H. change (fill.axis_size (fill.y wide_grid)) with 1.
    repeat (apply elem_of_cons in H as [-> | H]; [lia |]). by apply elem_of_nil in H.
Defined.

Lemma loess_passes_undefined_through_witness :
  grid2d_ok wide_grid /\
  exists result,
    fill.loess cube wide_grid 2 1 1 = Some result /\
    coeff result 1 0 = Some nan.
Proof.
  split; [exact grid2d_ok_wide_grid |].
  destruct (loess_passes_undefined_through cube wide_grid 2 1 1 grid2d_ok_wide_grid)
    as (result & Hres & Hcell).
  exists result. split; [exact Hres |].
  refine (proj1 (Hcell 1 0 4%float 0%float nan _ _ _ _ _ _) _); by vm_compute.
Defined.

(** C8. The code does not do what the claim says: the half-window is
    documented as a number of points, and the window is taken in points,
    but the distance divides a difference of axis coordinates by that
    number.  The same three pixels [1; NaN; 1] with a half-window of two
    points are filled with 1 when the pixels are one unit apart, and left
    undefined when they are four units apart: the neighbours are then at
    the distance 2, where the claim has them at 0.5 (one index out of two)
    and the pixel filled with 1. *)
Theorem loess_distance_in_axis_units :
  fill.loess cube narrow_grid 2 1 1 = Some (mkMatrix 3 1 [1; 1; 1]%float) /\
  fill.loess cube wide_grid 2 1 1 = Some (mkMatrix 3 1 [1%float; nan; 1%float]) /\
  fill.distance wide_grid 2 1 4 0 0 0 = Some 2%float /\
  fill.distance narrow_grid 2 1 1 0 0 0 = Some 0.5%float /\
  index_distance 2 1 1 0 0 0 = 0.5%float /\
  fill.loess_cell cube wide_grid 2 1 1 0 = Some nan /\
  loess_cell_claimed cube wide_grid 2 1 1 0 = Some 1%float.
Proof. repeat split; reflexivity. Qed.

(** What [fill::loess] stores, as written.  The output for an undefined
    pixel is the weighted average of the defined pixels of its window
    (when their weights do not sum to zero), the weight of a pixel being
    the tri-cube [(1 - d^3)^3] of its distance [d] while [d <= 1] and zero
    beyond, and [d = sqrt (((cx - px) / nx)^2 + ((cy - py) / ny)^2)] being
    computed from the coordinates of the pixels on the axes; the undefined
    pixels of the window give no sample, and a defined pixel is copied. *)
Theorem loess_weighted_average pow grid nx ny num_threads :
  grid2d_ok grid ->
  (exists result,
     fill.loess pow grid nx ny num_threads = Some result /\
     forall ix iy,
       0 <= ix < fill.axis_size (fill.x grid) ->
       0 <= iy < fill.axis_size (fill.y grid) ->
       exists px py z,
         fill.coordinate (fill.x grid) ix = Some px /\
         fill.coordinate (fill.y grid) iy = Some py /\
         fill.value grid ix iy = Some z /\
         coeff result ix iy =
         Some (if is_nan z
               then weighted_average pow
                      (samples grid (fun c => fill.distance grid nx ny px py c.1 c.2)
                         (window grid nx ny px py)) z
               else z)) /\
  (forall d, (1 <? d)%float = true -> fill.tri_cube pow d = 0%float) /\
  (forall d, (d <=? 1)%float = true -> fill.tri_cube pow d = pow (1 - pow d 3)%float 3%float) /\
  (forall px py wx wy cx cy,
     fill.coordinate (fill.x grid) wx = Some cx ->
     fill.coordinate (fill.y grid) wy = Some cy ->
     fill.distance grid nx ny px py wx wy =
     Some (PrimFloat.sqrt (fill.sqr ((cx - px) / of_N nx) +
                           fill.sqr ((cy - py) / of_N ny)))%float) /\
  (forall dist c cells zi,
     fill.value grid c.1 c.2 = Some zi -> is_nan zi = true ->
     samples grid dist (c :: cells) = samples grid dist cells) /\
  (forall dist c cells zi d,
     fill.value grid c.1 c.2 = Some zi -> is_nan zi = false -> dist c = Some d ->
     samples grid dist (c :: cells) = (d, zi) :: samples grid dist cells).
Proof.
  intros Hok. split; [| split; [| split; [| split; [| split]]]].
  - destruct (loess_spec pow grid nx ny num_threads Hok) as (result & Hres & _ & _ & Hcell).
    exists result. split; [done |]. intros ix iy Hx Hy. rewrite (Hcell ix iy Hx Hy).
    destruct (loess_cell_spec pow grid nx ny Hok ix iy Hx Hy)
      as (px & py & z & Hpx & Hpy & Hz & ->).
    exists px, py, z. done.
  - apply tri_cube_beyond.
  - intros d Hd. unfold fill.tri_cube. by rewrite Hd.
  - intros px py wx wy cx cy Hcx Hcy. unfold fill.distance. by rewrite Hcx, Hcy.
  - intros dist c cells zi Hzi Hnan. unfold samples. csimpl. rewrite Hzi. csimpl.
    by rewrite Hnan.
  - intros dist c cells zi d Hzi Hnan Hd. unfold samples. csimpl. rewrite Hzi. csimpl.
    rewrite Hnan, Hd. done.
Qed.

Lemma grid2d_ok_unit_grid : grid2d_ok unit_grid.
Proof.
  split; [split; [by vm_compute | split; by vm_compute] |].
  split; [by vm_compute |]. split; [by vm_compute |]. split.
  - intros c n wx H. simpl in H. change (fill.axis_size (fill.x unit_grid)) with 3.
    repeat (apply elem_of_cons in H as [-> | H]; [lia |]). by apply elem_of_nil in H.
  - intros c n wy H. simpl in H. change (fill.axis_size (fill.y unit_grid)) with 1.
    repeat (apply elem_of_cons in H as [-> | H]; [lia |]). by apply elem_of_nil in H.
Defined.

Lemma loess_weighted_average_witness :
  grid2d_ok unit_grid /\
  exists result,
    fill.loess cube unit_grid 2 1 1 = Some result /\
    forall d, (1 <? d)%float = true -> fill.tri_cube cube d = 0%float.
Proof.
  split; [exact grid2d_ok_unit_grid |].
  destruct (loess_weighted_average cube unit_grid 2 1 1 grid2d_ok_unit_grid)
    as ((result & Hres & _) & Hbeyond & _).
  exists result. split; [exact Hres | exact Hbeyond].
Defined.

Example loess_unit_grid :
  fill.loess cube unit_grid 2 1 1 = Some (mkMatrix 3 1 [1; 2; 3]%float).
Proof. reflexivity. Qed.

(** * Further properties of the code *)

(** ** The iterations of [fill::gauss_seidel] *)

Lemma coeff_isNaN (grid : Matrix float) ix iy :
  coeff (isNaN grid) ix iy = is_nan <$> coeff grid ix iy.
Proof.
  unfold coeff, isNaN, in_range, offset. simpl.
  destruct (_ && _); [| done]. apply list_lookup_fmap.
Qed.

Lemma select_isNaN v (l : list float) :
  zip_with (fun (b : bool) x => if b then v else x) (map is_nan l) l =
  map (fun x => if is_nan x then v else x) l.
Proof. induction l as [| x l IH]; simpl; [done | by rewrite IH]. Qed.

Lemma coeff_seed_zero (grid : Matrix float) ix iy :
  coeff (select (isNaN grid) 0%float grid) ix iy =
  (fun x => if is_nan x then 0%float else x) <$> coeff grid ix iy.
Proof.
  unfold coeff, select, isNaN, in_range, offset. simpl.
  destruct (_ && _); [| done]. rewrite select_isNaN. apply list_lookup_fmap.
Qed.

Lemma same_shape_refl {A : Type} (m : Matrix A) : same_shape m m.
Proof. by repeat split. Qed.

Lemma same_shape_trans {A B C : Type} (m1 : Matrix A) (m2 : Matrix B) (m3 : Matrix C) :
  same_shape m1 m2 -> same_shape m2 m3 -> same_shape m1 m3.
Proof. intros (? & ? & ?) (? & ? & ?). repeat split; congruence. Qed.

(** The first guess leaves the defined pixels as they are. *)
Lemma seeded_frame grid first_guess num_threads start :
  wf_matrix grid -> seeded grid first_guess num_threads = Some start ->
  wf_matrix start /\ same_shape start grid /\
  forall c v, at_ grid c = Some v -> is_nan v = false -> at_ start c = Some v.
Proof.
  intros Hwf Hs. destruct (isNaN_shape grid Hwf) as [Hwfm Hshm].
  destruct first_guess; simpl in Hs.
  - injection Hs as <-. destruct (select_shape _ 0%float _ Hwf Hshm) as [? ?].
    split; [done |]. split; [done |]. intros c v Hc Hv.
    unfold at_ in *. by rewrite coeff_seed_zero, Hc; simpl; rewrite Hv.
  - destruct (set_zonal_average_spec grid (isNaN grid) num_threads Hwf Hwfm Hshm)
      as (after & Hz & Hsh & Hafter).
    assert (after = start) as -> by congruence.
    split; [by eapply same_shape_wf |]. split; [done |]. intros c v Hc Hv.
    rewrite Hafter, bool_decide_eq_false_2; [done |].
    intros (_ & _ & Hm). unfold at_ in *. rewrite coeff_isNaN, Hc in Hm.
    simpl in Hm. congruence.
Qed.

(** A sweep that returns keeps the shape of the grid and the pixels that
    are not masked, and its residual is the absolute value of a number. *)
Lemma sweep_frame schedule grid mask is_circle relaxation num_threads after r :
  wf_matrix grid ->
  detail.gauss_seidel schedule grid mask is_circle relaxation num_threads =
    Some (after, r) ->
  wf_matrix after /\ same_shape after grid /\ magnitude r /\
  forall c, at_ mask c <> Some true -> at_ after c = at_ grid c.
Proof.
  intros Hwf H. destruct (decide (num_threads = 0%N)) as [-> | Hn]; [done |].
  rewrite gauss_seidel_threads in H by done.
  apply worker_relaxed in H as (Hsh & Hout & Hrel & Hm & _).
  split; [by eapply same_shape_wf |]. split; [done |]. split; [done |].
  intros c Hc. destruct (decide (c ∈ scan (rows grid) 0 (cols grid))) as [Hin | Hnin].
  - specialize (Hrel c Hin). unfold relaxed_cell in Hrel.
    by destruct (at_ mask c) as [[] |].
  - by apply Hout.
Qed.

Lemma sweeps_frame schedule budget mask is_circle epsilon relaxation num_threads
    grid it r after k r' :
  wf_matrix grid -> magnitude r ->
  fill.sweeps schedule budget mask is_circle epsilon relaxation num_threads
    (grid, it, r) = Some (after, k, r') ->
  wf_matrix after /\ same_shape after grid /\ magnitude r' /\
  (it <= k <= it + N.of_nat budget)%N /\ (budget <> 0%nat -> (it < k)%N) /\
  forall c, at_ mask c <> Some true -> at_ after c = at_ grid c.
Proof.
  revert grid it r. induction budget as [| budget IH]; intros grid it r Hwf Hr; simpl.
  { intros [= <- <- <-]. split; [done |]. split; [apply same_shape_refl |].
    split; [done |]. split; [lia |]. done. }
  destruct (detail.gauss_seidel _ _ _ _ _ _) as [[grid1 r1] |] eqn:Hsweep; [| done].
  simpl. destruct (sweep_frame _ _ _ _ _ _ _ _ Hwf Hsweep) as (Hwf1 & Hsh1 & Hr1 & Hkeep1).
  destruct (r1 <? epsilon)%float.
  - intros [= <- <- <-]. split; [done |]. split; [done |]. split; [done |].
    split; [lia |]. split; [lia | done].
  - intros H. destruct (IH _ _ _ Hwf1 Hr1 H) as (Hwfa & Hsha & Hr' & Hk & _ & Hkeep).
    split; [done |]. split; [by eapply same_shape_trans |]. split; [done |].
    split; [lia |]. split; [lia |].
    intros c Hc. by rewrite Hkeep, Hkeep1.
Qed.

Lemma fill_unfold hardware_concurrency schedule grid first_guess is_circle
    max_iterations epsilon relaxation num_threads :
  hasNaN grid = true ->
  fill.gauss_seidel hardware_concurrency schedule grid first_guess is_circle
    max_iterations epsilon relaxation num_threads =
  start ← seeded grid first_guess (effective_threads hardware_concurrency num_threads);
  fill.sweeps schedule (N.to_nat max_iterations) (isNaN grid) is_circle epsilon
    relaxation (effective_threads hardware_concurrency num_threads)
    (start, 0%N, 0%float).
Proof. intros H. unfold fill.gauss_seidel. rewrite H. by destruct first_guess. Qed.

Lemma fill_frame hardware_concurrency schedule grid first_guess is_circle
    max_iterations epsilon relaxation num_threads after k r :
  wf_matrix grid ->
  fill.gauss_seidel hardware_concurrency schedule grid first_guess is_circle
    max_iterations epsilon relaxation num_threads = Some (after, k, r) ->
  same_shape after grid /\ magnitude r /\ (k <= max_iterations)%N /\
  (hasNaN grid = true -> max_iterations <> 0%N -> (1 <= k)%N) /\
  forall c v, at_ grid c = Some v -> is_nan v = false -> at_ after c = Some v.
Proof.
  intros Hwf. destruct (hasNaN grid) eqn:Hnan.
  - rewrite fill_unfold by done.
    intros (start & Hstart & Hsw)%bind_Some.
    destruct (seeded_frame _ _ _ _ Hwf Hstart) as (Hwfs & Hshs & Hkeeps).
    destruct (sweeps_frame _ _ _ _ _ _ _ _ _ _ _ _ _ Hwfs magnitude_zero Hsw)
      as (_ & Hsha & Hr & Hk & Hone & Hkeep).
    split; [by eapply same_shape_trans |]. split; [done |]. split; [lia |].
    split; [intros _ Hm; specialize (Hone ltac:(lia)); lia |].
    intros c v Hc Hv. rewrite Hkeep; [by apply Hkeeps |].
    unfold at_ in *. rewrite coeff_isNaN, Hc. simpl. congruence.
  - unfold fill.gauss_seidel. rewrite Hnan. simpl. intros [= <- <- <-].
    split; [apply same_shape_refl |]. split; [apply magnitude_zero |].
    split; [lia |]. done.
Qed.

(** X1. Whatever the first guess, the number of threads and their
    interleaving, a call of [fill::gauss_seidel] that returns has kept the
    shape of the grid and every pixel that held a number: only the
    undefined pixels are written. *)
Theorem fill_keeps_defined_cells hardware_concurrency schedule grid first_guess
    is_circle max_iterations epsilon relaxation num_threads after k r :
  wf_matrix grid ->
  fill.gauss_seidel hardware_concurrency schedule grid first_guess is_circle
    max_iterations epsilon relaxation num_threads = Some (after, k, r) ->
  rows after = rows grid /\ cols after = cols grid /\
  forall ix iy v,
    coeff grid ix iy = Some v -> is_nan v = false -> coeff after ix iy = Some v.
Proof.
  intros Hwf H. destruct (fill_frame _ _ _ _ _ _ _ _ _ _ _ _ Hwf H)
    as ((Hr & Hc & _) & _ & _ & _ & Hkeep).
  split; [done |]. split; [done |]. intros ix iy v. apply (Hkeep (ix, iy)).
Qed.

Lemma fill_keeps_defined_cells_witness :
  wf_matrix flat_field /\
  fill.gauss_seidel 2 (fun _ => [1; 0; 0; 1]%nat) flat_field fill.kZonalAverage true 50
    epsilon_1e_6 1 0 = Some (flat_field_filled, 1%N, 0%float) /\
  coeff flat_field_filled 0 0 = Some 1%float.
Proof.
  assert (Hwf : wf_matrix flat_field).
  { split; [by vm_compute |]. split; [by vm_compute |]. by vm_compute. }
  assert (E : fill.gauss_seidel 2 (fun _ => [1; 0; 0; 1]%nat) flat_field
                fill.kZonalAverage true 50 epsilon_1e_6 1 0 =
              Some (flat_field_filled, 1%N, 0%float)) by by vm_compute.
  split; [exact Hwf |]. split; [exact E |].
  apply (proj2 (proj2 (fill_keeps_defined_cells _ _ _ _ _ _ _ _ _ _ _ _ Hwf E)) 0 0);
    reflexivity.
Defined.

(** X2. The residual [fill::gauss_seidel] returns is never a NaN and never
    negative, whatever the values of the grid: a residual that is a NaN
    does not enter the maximum.  The number of iterations it returns is at
    most [max_iterations], and at least one when the grid has an undefined
    pixel and the budget is not zero. *)
Theorem fill_residual_is_a_magnitude hardware_concurrency schedule grid first_guess
    is_circle max_iterations epsilon relaxation num_threads after k r :
  wf_matrix grid ->
  fill.gauss_seidel hardware_concurrency schedule grid first_guess is_circle
    max_iterations epsilon relaxation num_threads = Some (after, k, r) ->
  is_nan r = false /\ (r <? 0)%float = false /\
  (k <= max_iterations)%N /\
  (hasNaN grid = true -> max_iterations <> 0%N -> (1 <= k)%N).
Proof.
  intros Hwf H. destruct (fill_frame _ _ _ _ _ _ _ _ _ _ _ _ Hwf H)
    as (_ & Hr & Hk & Hone & _).
  split; [by destruct Hr |]. split; [by apply magnitude_not_neg |]. done.
Qed.

Lemma fill_residual_is_a_magnitude_witness :
  wf_matrix opposite_infinities /\
  (exists after,
     fill.gauss_seidel 1 (fun _ => []) opposite_infinities fill.kZero false 50
       epsilon_1e_6 1 1 = Some (after, 1%N, 0%float) /\
     coeff after 1 1 = Some nan) /\
  is_nan 0%float = false.
Proof.
  assert (Hwf : wf_matrix opposite_infinities).
  { split; [by vm_compute |]. split; [by vm_compute |]. by vm_compute. }
  assert (E : fill.gauss_seidel 1 (fun _ => []) opposite_infinities fill.kZero false 50
                epsilon_1e_6 1 1 =
              Some (mkMatrix 3 3 [1; 1; 1; infinity; nan; neg_infinity; 1; 1; 1]%float,
                    1%N, 0%float)) by by vm_compute.
  split; [exact Hwf |]. split; [eexists; split; [exact E | reflexivity] |].
  exact (proj1 (fill_residual_is_a_magnitude _ _ _ _ _ _ _ _ _ _ _ _ Hwf E)).
Defined.

Lemma hasNaN_seed_zero (grid : Matrix float) :
  hasNaN (select (isNaN grid) 0%float grid) = false.
Proof.
  unfold hasNaN, select, isNaN. simpl. rewrite select_isNaN.
  induction (coeffs grid) as [| x l IH]; simpl; [done |].
  rewrite IH, orb_false_r. destruct (is_nan x) eqn:E; [reflexivity | done].
Qed.

(** X3. With a budget of zero iterations and the first guess zero, a grid
    that has undefined pixels is not left as it is: the call returns zero
    iterations and a zero residual, as it does on a grid without undefined
    pixel, but every undefined pixel now holds zero and no NaN is left.
    No sweep is made, so the call returns whatever the shape of the grid
    and the number of threads. *)
Theorem fill_zero_budget_seeds_the_grid hardware_concurrency schedule grid is_circle
    epsilon relaxation num_threads :
  hasNaN grid = true ->
  exists start,
    fill.gauss_seidel hardware_concurrency schedule grid fill.kZero is_circle 0
      epsilon relaxation num_threads = Some (start, 0%N, 0%float) /\
    hasNaN start = false /\
    forall ix iy,
      coeff start ix iy =
      (fun v => if is_nan v then 0%float else v) <$> coeff grid ix iy.
Proof.
  intros Hnan. exists (select (isNaN grid) 0%float grid).
  split; [by rewrite fill_unfold |]. split; [apply hasNaN_seed_zero |].
  intros ix iy. apply coeff_seed_zero.
Qed.

Lemma fill_zero_budget_seeds_the_grid_witness :
  hasNaN one_line = true /\
  exists start,
    fill.gauss_seidel 0 (fun _ => []) one_line fill.kZero false 0 epsilon_1e_6 1 0 =
      Some (start, 0%N, 0%float) /\
    hasNaN start = false.
Proof.
  split; [reflexivity |].
  destruct (fill_zero_budget_seeds_the_grid 0 (fun _ => []) one_line false
              epsilon_1e_6 1 0 eq_refl) as (start & E & Hnan & _).
  exists start. split; [exact E | exact Hnan].
Defined.

Lemma magnitude_below (r epsilon : float) :
  magnitude r -> (0 <? epsilon)%float = false -> (r <? epsilon)%float = false.
Proof.
  intros Hr He. apply not_true_is_false. intros Hlt.
  destruct (magnitude_nonneg r 0%float Hr magnitude_zero (magnitude_not_neg r Hr))
    as [H0 | ->].
  - by rewrite (ltb_trans _ _ _ H0 Hlt) in He.
  - congruence.
Qed.

Lemma sweeps_to_the_budget schedule budget mask is_circle epsilon relaxation
    num_threads grid it r after k r' :
  (0 <? epsilon)%float = false -> wf_matrix grid ->
  fill.sweeps schedule budget mask is_circle epsilon relaxation num_threads
    (grid, it, r) = Some (after, k, r') ->
  k = (it + N.of_nat budget)%N.
Proof.
  intros He. revert grid it r. induction budget as [| budget IH]; intros grid it r Hwf.
  { simpl. intros [= <- <- <-]. lia. }
  simpl. destruct (detail.gauss_seidel _ _ _ _ _ _) as [[grid1 r1] |] eqn:Hsweep; [| done].
  simpl. destruct (sweep_frame _ _ _ _ _ _ _ _ Hwf Hsweep) as (Hwf1 & _ & Hr1 & _).
  rewrite (magnitude_below r1 epsilon Hr1 He).
  intros H. rewrite (IH _ _ _ Hwf1 H). lia.
Qed.

(** X4. When the tolerance is not positive (zero, negative or a NaN) no
    residual is below it: the call makes [max_iterations] sweeps, all of
    the budget, on every grid with an undefined pixel. *)
Theorem fill_spends_budget_without_tolerance hardware_concurrency schedule grid
    first_guess is_circle max_iterations epsilon relaxation num_threads :
  wf_matrix grid -> hasNaN grid = true ->
  2 <= rows grid \/ is_circle = true -> 2 <= cols grid ->
  effective_threads hardware_concurrency num_threads <> 0%N ->
  (0 <? epsilon)%float = false ->
  exists after residual,
    fill.gauss_seidel hardware_concurrency schedule grid first_guess is_circle
      max_iterations epsilon relaxation num_threads =
    Some (after, max_iterations, residual).
Proof.
  intros Hwf Hnan Hx Hy Hn He. rewrite fill_unfold by done.
  set (n := effective_threads hardware_concurrency num_threads) in *.
  destruct (seeded_shape grid first_guess n Hwf) as (start & -> & Hwfs & Hsh).
  destruct (isNaN_shape grid Hwf) as [Hwfm Hshm]. simpl.
  destruct (sweeps_spec schedule (isNaN grid) is_circle epsilon relaxation n start Hn
              Hwfm (same_shape_common _ _ _ Hshm Hsh))
    with (budget := N.to_nat max_iterations) (i := 0%nat) (grid := start) (r := 0%float)
    as (k & after & residual & Hrun & _);
    [destruct Hsh as (-> & _); done | destruct Hsh as (_ & -> & _); done
    | done | done | apply same_shape_refl |].
  change (N.of_nat 0) with 0%N in Hrun.
  exists after, residual. rewrite Hrun. do 3 f_equal.
  apply (sweeps_to_the_budget _ _ _ _ _ _ _ _ _ _ _ _ _ He Hwfs) in Hrun. lia.
Qed.

Lemma fill_spends_budget_without_tolerance_witness :
  wf_matrix flat_field /\ hasNaN flat_field = true /\
  (2 <= rows flat_field \/ false = true) /\ 2 <= cols flat_field /\
  effective_threads 4 3 <> 0%N /\ (0 <? 0)%float = false /\
  exists after residual,
    fill.gauss_seidel 4 (fun _ => [2; 1; 0]%nat) flat_field fill.kZero false 7 0 1 3 =
    Some (after, 7%N, residual).
Proof.
  assert (Hwf : wf_matrix flat_field).
  { split; [by vm_compute |]. split; [by vm_compute |]. by vm_compute. }
  split; [exact Hwf |]. split; [reflexivity |]. split; [left; by vm_compute |].
  split; [by vm_compute |]. split; [done |]. split; [reflexivity |].
  apply fill_spends_budget_without_tolerance;
    [exact Hwf | reflexivity | left; by vm_compute | by vm_compute | done | reflexivity].
Defined.

(** X5. The grid, the number of iterations and the residual that
    [fill::gauss_seidel] returns do not depend on the number of threads,
    one at least, nor on the way the threads of each sweep are
    interleaved. *)
Theorem fill_independent_of_threads hardware_concurrency hardware_concurrency'
    schedule schedule' grid first_guess is_circle max_iterations epsilon relaxation
    num_threads num_threads' :
  wf_matrix grid ->
  effective_threads hardware_concurrency num_threads <> 0%N ->
  effective_threads hardware_concurrency' num_threads' <> 0%N ->
  fill.gauss_seidel hardware_concurrency schedule grid first_guess is_circle
    max_iterations epsilon relaxation num_threads =
  fill.gauss_seidel hardware_concurrency' schedule' grid first_guess is_circle
    max_iterations epsilon relaxation num_threads'.
Proof.
  intros Hwf Hn Hn'.
  rewrite (fill_threads hardware_concurrency schedule) by done.
  by rewrite (fill_threads hardware_concurrency' schedule') by done.
Qed.

Lemma fill_independent_of_threads_witness :
  wf_matrix checkerboard /\
  effective_threads 8 0 <> 0%N /\ effective_threads 1 3 <> 0%N /\
  fill.gauss_seidel 8 (fun _ => round_robin) checkerboard fill.kZonalAverage true 4
    epsilon_1e_6 1 0 =
  fill.gauss_seidel 1 (fun it => [N.to_nat it; 0; 2; 1]%nat) checkerboard
    fill.kZonalAverage true 4 epsilon_1e_6 1 3.
Proof.
  assert (Hwf : wf_matrix checkerboard).
  { split; [by vm_compute |]. split; [by vm_compute |]. by vm_compute. }
  split; [exact Hwf |]. split; [done |]. split; [done |].
  by apply fill_independent_of_threads.
Defined.

(** ** One sweep *)

(** X6. A sweep over a grid none of whose pixels is masked reads no
    neighbour: with any number of threads, one at least, it returns the
    grid as it is and a residual of zero, also on a grid of one line or one
    column, or on an empty grid. *)
Theorem sweep_of_unmasked_grid schedule grid mask is_circle relaxation num_threads :
  wf_matrix grid -> wf_matrix mask -> same_shape mask grid -> num_threads <> 0%N ->
  Forall (fun b => b = false) (coeffs mask) ->
  detail.gauss_seidel schedule grid mask is_circle relaxation num_threads =
  Some (grid, 0%float).
Proof.
  intros Hwf Hwfm Hsh Hn Hmask. rewrite gauss_seidel_threads by done.
  assert (Hm : forall c, 0 <= c.1 < rows grid -> 0 <= c.2 < cols grid ->
    at_ mask c = Some false).
  { intros c Hx Hy. destruct (coeff_is_Some mask c.1 c.2 Hwfm) as [b Hb].
    { rewrite (same_shape_in_range _ _ _ _ Hsh). apply in_range_spec. lia. }
    unfold at_. rewrite Hb. f_equal. rewrite Forall_forall in Hmask. apply Hmask.
    unfold coeff in Hb. destruct (in_range mask c.1 c.2); [| done].
    by eapply list_elem_of_lookup_2. }
  destruct (proj2 (worker_safe mask is_circle relaxation (rows grid) (cols grid)
                     0 (cols grid) grid Hwf)) as [[after r] Hw].
  { intros c Hx Hy. unfold safe. by rewrite Hm. }
  rewrite Hw. destruct (worker_relaxed _ _ _ _ _ _ _ _ _ _ Hw) as (Hsha & _ & Hrel & Hmax).
  f_equal. f_equal.
  - apply matrix_ext; [done | by eapply same_shape_wf | by destruct Hsha
                       | by destruct Hsha as (_ & ? & _) |].
    intros ix iy Hin%in_range_spec.
    assert (Hc : (ix, iy) ∈ scan (rows grid) 0 (cols grid)) by (apply elem_of_scan; simpl; lia).
    specialize (Hrel _ Hc). unfold relaxed_cell in Hrel.
    rewrite (Hm (ix, iy)) in Hrel by (simpl; lia). done.
  - destruct Hmax as (_ & [-> | (c & rho & Hc%elem_of_scan & Hmc & _)] & _); [done |].
    rewrite Hm in Hmc by lia. done.
Qed.

Lemma sweep_of_unmasked_grid_witness :
  wf_matrix one_column /\ wf_matrix (mkMatrix 2 1 [false; false]) /\
  same_shape (mkMatrix 2 1 [false; false]) one_column /\ 5%N <> 0%N /\
  Forall (fun b => b = false) [false; false] /\
  detail.gauss_seidel [4; 0; 3]%nat one_column (mkMatrix 2 1 [false; false]) false 1 5 =
  Some (one_column, 0%float).
Proof.
  assert (Hwf : wf_matrix one_column).
  { split; [by vm_compute |]. split; [by vm_compute |]. by vm_compute. }
  assert (Hwfm : wf_matrix (mkMatrix 2 1 [false; false])).
  { split; [by vm_compute |]. split; [by vm_compute |]. by vm_compute. }
  assert (Hsh : same_shape (mkMatrix 2 1 [false; false]) one_column) by by repeat split.
  assert (Hall : Forall (fun b => b = false) [false; false]) by by repeat constructor.
  split; [exact Hwf |]. split; [exact Hwfm |]. split; [exact Hsh |].
  split; [done |]. split; [exact Hall |].
  by apply sweep_of_unmasked_grid.
Defined.

(** X7. On an x-axis that wraps, the left and the right neighbour are
    inverse to one another and stay on the axis, for every size of the
    axis, one included: the pixels of a line form a ring. *)
Theorem circular_neighbours_form_a_ring x_size ix :
  0 <= ix < x_size ->
  0 <= detail.ix0 true x_size ix < x_size /\
  0 <= detail.ix1 true x_size ix < x_size /\
  detail.ix1 true x_size (detail.ix0 true x_size ix) = ix /\
  detail.ix0 true x_size (detail.ix1 true x_size ix) = ix.
Proof.
  intros Hix. unfold detail.ix0, detail.ix1. repeat case_match; lia.
Qed.

Lemma circular_neighbours_form_a_ring_witness :
  0 <= 0 < 1 /\ detail.ix1 true 1 (detail.ix0 true 1 0) = 0.
Proof.
  split; [lia |].
  exact (proj1 (proj2 (proj2 (circular_neighbours_form_a_ring 1 0 ltac:(lia))))).
Defined.

(** ** The bands of the threads *)

(** X8. The loop that starts the threads cuts the columns [0, y_size) in
    consecutive bands, one per thread: every column is in the band of one
    thread and one only, every thread but the last has
    [y_size / num_threads] columns and the last has the rest, and every
    thread waits on the thread before it and publishes to the thread after
    it. *)
Theorem spawn_partitions_the_columns y_size n :
  (2 <= n)%nat -> 0 <= y_size ->
  length (detail.spawn y_size n) = n /\
  (forall iy, 0 <= iy < y_size ->
     exists k a,
       detail.spawn y_size n !! k = Some a /\
       detail.y_start a <= iy < detail.y_end a /\
       forall k' a', detail.spawn y_size n !! k' = Some a' ->
         detail.y_start a' <= iy < detail.y_end a' -> k' = k) /\
  (forall k a, detail.spawn y_size n !! k = Some a ->
     detail.y_start a = Z.of_nat k * (y_size / Z.of_nat n) /\
     detail.y_end a =
       (if decide (S k = n) then y_size else (Z.of_nat k + 1) * (y_size / Z.of_nat n)) /\
     detail.y_start a <= detail.y_end a /\
     detail.pipe_in a = (match k with O => None | S j => Some j end) /\
     detail.pipe_out a = (if decide (S k = n) then None else Some k)).
Proof.
  intros Hn Hy. pose proof (spawn_bands y_size n Hn Hy) as Hbands.
  pose proof (spawn_length y_size n ltac:(lia)) as Hlen.
  split; [done |]. split.
  - intros iy Hiy. destruct Hbands as (_ & _ & Hcover).
    destruct (Hcover iy Hiy) as (k & a & Ha & Hin).
    exists k, a. split; [done |]. split; [done |].
    intros k' a' Ha' Hin'.
    by apply (bands_disjoint _ _ _ _ _ _ iy (spawn_bands y_size n Hn Hy) Ha' Ha).
  - intros k a Ha. assert (Hk : (k < n)%nat).
    { apply lookup_lt_Some in Ha. lia. }
    destruct Hbands as (Hb & _). destruct (Hb k a Ha) as (Hys & _ & Hpi & Hpo).
    rewrite Hlen in Hpo. rewrite spawn_lookup in Ha by done.
    injection Ha as <-. case_decide; simpl in *; repeat split; (done || lia).
Qed.

Lemma spawn_partitions_the_columns_witness :
  (2 <= 3)%nat /\ 0 <= 8 /\
  detail.spawn 8 3 =
  [detail.mkArgs 0 2 (Some 0%nat) None; detail.mkArgs 2 4 (Some 1%nat) (Some 0%nat);
   detail.mkArgs 4 8 None (Some 1%nat)] /\
  length (detail.spawn 8 3) = 3%nat.
Proof.
  split; [lia |]. split; [lia |]. split; [reflexivity |].
  exact (proj1 (spawn_partitions_the_columns 8 3 ltac:(lia) ltac:(lia))).
Defined.

(** X9. With more threads than columns every thread but the last has an
    empty band, and the last one sweeps the whole grid: the threads before
    it only pass the handshake on. *)
Theorem spawn_more_threads_than_columns y_size n k a :
  (2 <= n)%nat -> 0 <= y_size < Z.of_nat n ->
  detail.spawn y_size n !! k = Some a ->
  detail.y_start a = 0 /\
  detail.y_end a = (if decide (S k = n) then y_size else 0).
Proof.
  intros Hn Hy Ha. assert (Hk : (k < n)%nat).
  { apply lookup_lt_Some in Ha. rewrite spawn_length in Ha; lia. }
  rewrite spawn_lookup in Ha by done. rewrite Z.div_small in Ha by lia.
  injection Ha as <-. case_decide; simpl; lia.
Qed.

Lemma spawn_more_threads_than_columns_witness :
  (2 <= 4)%nat /\ 0 <= 3 < Z.of_nat 4 /\
  detail.spawn 3 4 !! 3%nat = Some (detail.mkArgs 0 3 None (Some 2%nat)) /\
  detail.y_start (detail.mkArgs 0 3 None (Some 2%nat)) = 0.
Proof.
  split; [lia |]. split; [lia |]. split; [reflexivity |].
  exact (proj1 (spawn_more_threads_than_columns 3 4 3 _ ltac:(lia) ltac:(lia) eq_refl)).
Defined.

(** ** The handshake of the pipeline *)

Section handshake.
Variables (mask : Matrix bool) (is_circle : bool) (relaxation : float).
Variables (x_size y_size : Z) (args : list detail.worker_args).

Hypothesis Hx : 0 <= x_size.
Hypothesis Hy : 0 <= y_size.
Hypothesis Hbands : bands_ok args y_size.

Abbreviation hinv := (handshake_inv x_size y_size args).
Abbreviation step := (detail.thread_step mask is_circle relaxation x_size y_size args).

Lemma handshake_update st k a pc pc' grid' pipeline' :
  hinv st ->
  args !! k = Some a -> detail.s_workers st !! k = Some pc ->
  position_ok x_size a pc' ->
  detail.pc_ix pc <= detail.pc_ix pc' ->
  (forall j pj, (j < k)%nat -> detail.s_workers st !! j = Some pj ->
     detail.pc_ix pc' <= detail.pc_ix pj /\
     (detail.pc_phase pc' <> detail.Waiting -> detail.pc_ix pc' < detail.pc_ix pj)) ->
  length pipeline' = length args ->
  (forall j, detail.pipe_out a = Some j ->
     pipeline' !! j = Some (published y_size a pc')) ->
  (forall j, detail.pipe_out a <> Some j ->
     pipeline' !! j = detail.s_pipeline st !! j) ->
  hinv (detail.mkSweep grid' (<[k := pc']> (detail.s_workers st)) pipeline').
Proof.
  intros [Hlw Hlp Hpos Hord Hpub] Ha Hk Hok Hmono Hpred Hlen Hout Hkeep.
  constructor; simpl.
  - by rewrite length_insert.
  - done.
  - intros k' a' q Ha' [[-> ->] | [Hne Hq]]%lookup_insert_inv.
    + assert (a' = a) as -> by congruence. done.
    + by eapply Hpos.
  - intros j' k' pj pk Hlt [[-> ->] | [Hnej Hj]]%lookup_insert_inv
      [[-> ->] | [Hnek Hk']]%lookup_insert_inv.
    + lia.
    + destruct (Hord _ _ _ _ Hlt Hk Hk') as [H1 H2]. split; [lia |].
      intros Hw. specialize (H2 Hw). lia.
    + by apply Hpred with j'.
    + by eapply Hord.
  - intros k' a' q j Ha' [[-> ->] | [Hne Hq]]%lookup_insert_inv Hj.
    + assert (a' = a) as -> by congruence. by apply Hout.
    + rewrite Hkeep; [by eapply Hpub |].
      intros Hj'. destruct Hbands as (Hb & _).
      destruct (Hb _ _ Ha) as (_ & _ & _ & Ho), (Hb _ _ Ha') as (_ & _ & _ & Ho').
      rewrite Ho in Hj'. rewrite Ho' in Hj.
      repeat case_decide; congruence.
Qed.

(** A worker that leaves its wait is behind every worker of an earlier
    band. *)
Lemma ready_behind st k a pc :
  hinv st ->
  args !! k = Some a -> detail.s_workers st !! k = Some pc ->
  detail.ready y_size a (detail.pc_ix pc) (detail.s_pipeline st) = Some true ->
  forall j pj, (j < k)%nat -> detail.s_workers st !! j = Some pj ->
    detail.pc_ix pc < detail.pc_ix pj.
Proof.
  intros [Hlw Hlp Hpos Hord Hpub] Ha Hk.
  pose proof Hbands as (Hb & Hadj & _).
  destruct (Hb _ _ Ha) as (Hys & Hye & Hin & _).
  destruct (Hpos _ _ _ Ha Hk) as [Hix _].
  unfold detail.ready. rewrite Hin. destruct k as [| j]; [intros; lia |].
  assert (Hj : (j < length args)%nat) by (apply lookup_lt_Some in Ha; lia).
  destruct (lookup_lt_is_Some_2 args j Hj) as [aj Haj].
  destruct (lookup_lt_is_Some_2 (detail.s_workers st) j) as [pj Hpj]; [lia |].
  assert (Hoj : detail.pipe_out aj = Some j).
  { destruct (Hb _ _ Haj) as (_ & _ & _ & ->). case_decide; [| done].
    apply lookup_lt_Some in Ha. lia. }
  rewrite (Hpub _ _ _ _ Haj Hpj Hoj). simpl.
  pose proof (Hadj _ _ _ Haj Ha) as Hadj'.
  destruct (Hpos _ _ _ Haj Hpj) as [Hixj _].
  unfold published, detail.coordinates, detail.int_min.
  intros [= Hgo%negb_true_iff%Z.ltb_ge] j' pj' Hj' Hpj'.
  assert (detail.pc_ix pc < detail.pc_ix pj).
  { destruct (detail.pc_ix pj =? 0) eqn:E; [nia |]. rewrite Hadj' in Hgo. lia. }
  destruct (decide (j' = j)) as [-> | Hne]; [congruence |].
  destruct (Hord j' j pj' pj ltac:(lia) Hpj' Hpj). lia.
Qed.

(** Every step of a thread keeps the positions in order, whether the
    grid is read in range or not. *)
Lemma step_handshake k st st' :
  hinv st -> step k st = Some st' -> hinv st'.
Proof.
  intros Hinv. pose proof Hinv as [Hlw Hlp Hpos Hord Hpub].
  pose proof Hbands as (Hb & _ & _).
  unfold detail.thread_step.
  destruct (args !! k) as [a |] eqn:Ha; [| by intros [= <-]].
  destruct (detail.s_workers st !! k) as [pc |] eqn:Hk; [| by intros [= <-]].
  destruct (detail.finished_pc x_size pc) eqn:Hfin; [by intros [= <-] |].
  destruct (Hpos _ _ _ Ha Hk) as [Hix Hpc].
  destruct (Hb _ _ Ha) as (Hys & Hye & _ & Hout).
  assert (Hlt : detail.pc_ix pc < x_size) by (unfold detail.finished_pc in Hfin; lia).
  assert (Hsame : forall ph, ph <> detail.Waiting ->
    detail.pc_phase pc <> detail.Waiting ->
    position_ok x_size a (detail.mkPc (detail.pc_ix pc) ph (detail.pc_max_residual pc)) ->
    forall grid' m,
    hinv (detail.mkSweep grid'
            (<[k := detail.mkPc (detail.pc_ix pc) ph m]> (detail.s_workers st))
            (detail.s_pipeline st))).
  { intros ph Hph Hrun Hok grid' m. apply handshake_update with a pc; try done.
    - intros j pj Hj Hpj. simpl. destruct (Hord _ _ _ _ Hj Hpj Hk) as [H1 H2].
      split; [done |]. intros _. by apply H2.
    - intros j Hj. by rewrite (Hpub _ _ _ _ Ha Hk Hj). }
  destruct (detail.pc_phase pc) as [| iy | iy loaded | iy rho] eqn:Hph.
  - destruct (detail.ready y_size a (detail.pc_ix pc) (detail.s_pipeline st))
      as [[] |] eqn:Hready; simpl; [| by intros [= <-] | done].
    intros [= <-]. apply handshake_update with a pc; try done.
    + split; simpl; lia.
    + intros j pj Hj Hpj. simpl.
      pose proof (ready_behind st k a pc Hinv Ha Hk Hready j pj Hj Hpj). lia.
    + intros j Hj. by rewrite (Hpub _ _ _ _ Ha Hk Hj).
  - destruct Hpc as [_ Hiy]. destruct (iy <? detail.y_end a) eqn:Hlty.
    + destruct (coeff mask (detail.pc_ix pc) iy) as [masked |]; [| done].
      simpl. intros [= <-]. apply Hsame; [by destruct masked | done |].
      split; [done |]. destruct masked; simpl; lia.
    + intros [= <-]. assert (iy = detail.y_end a) as -> by lia.
      apply handshake_update with a pc; try done.
      * split; simpl; lia.
      * simpl. lia.
      * intros j pj Hj Hpj. simpl. destruct (Hord _ _ _ _ Hj Hpj Hk) as [_ H2].
        rewrite Hph in H2. specialize (H2 ltac:(done)). split; [lia | done].
      * unfold detail.publish. destruct (detail.pipe_out a); [| done].
        by rewrite length_insert.
      * intros j Hj. unfold detail.publish. rewrite Hj.
        rewrite list_lookup_insert_eq.
        -- unfold published. simpl.
           replace (detail.pc_ix pc + 1 =? 0) with false by lia.
           do 2 f_equal. lia.
        -- rewrite Hout in Hj. case_decide; [done |]. injection Hj as <-.
           rewrite Hlp. by eapply lookup_lt_Some.
      * intros j Hj. unfold detail.publish.
        destruct (detail.pipe_out a) as [j' |]; [| done].
        apply list_lookup_insert_ne. congruence.
  - destruct (detail.operands _ _ _ _ _ !! _) as [n |]; [| done]. simpl.
    destruct (coeff (detail.s_grid st) n.1 n.2) as [v |]; [| done]. simpl.
    intros [= <-]. apply Hsame; [by destruct (detail.residual_from _ _) | done |].
    split; [done |]. by destruct (detail.residual_from _ _).
  - destruct (coeff (detail.s_grid st) (detail.pc_ix pc) iy) as [current |]; [| done].
    simpl. destruct (set_coeff _ _ _ _) as [grid' |]; [| done]. simpl.
    intros [= <-]. apply Hsame; [done | done |]. split; simpl; lia.
Qed.

Lemma run_handshake schedule st st' :
  hinv st ->
  detail.run mask is_circle relaxation x_size y_size args schedule st = Some st' ->
  hinv st'.
Proof.
  revert st. induction schedule as [| k schedule IH]; intros st Hinv; simpl.
  { by intros [= <-]. }
  unfold detail.run. simpl. destruct (step k st) as [st1 |] eqn:E; [| done].
  simpl. apply IH. by eapply step_handshake.
Qed.

Lemma start_handshake grid : hinv (detail.start_state (length args) grid).
Proof.
  pose proof Hbands as (Hb & _ & _).
  constructor; simpl.
  - apply length_replicate.
  - apply length_replicate.
  - intros k a pc Ha [-> _]%lookup_replicate. split; simpl; [lia | done].
  - intros j k pj pk _ [-> _]%lookup_replicate [-> _]%lookup_replicate. simpl.
    split; [lia | done].
  - intros k a pc j Ha [-> _]%lookup_replicate Hj.
    apply lookup_replicate. split; [done |].
    destruct (Hb _ _ Ha) as (_ & _ & _ & Ho). rewrite Ho in Hj.
    case_decide; [done |]. injection Hj as <-. by eapply lookup_lt_Some.
Qed.
End handshake.

(** The states the threads of a sweep go through keep the handshake. *)
Lemma sweep_handshake schedule grid mask is_circle relaxation n st :
  wf_matrix grid -> (2 <= n)%nat ->
  detail.run mask is_circle relaxation (rows grid) (cols grid)
    (detail.spawn (cols grid) n) schedule (detail.start_state n grid) = Some st ->
  bands_ok (detail.spawn (cols grid) n) (cols grid) /\
  handshake_inv (rows grid) (cols grid) (detail.spawn (cols grid) n) st.
Proof.
  intros (Hr & Hc & _) Hn Hrun.
  pose proof (spawn_bands (cols grid) n Hn Hc) as Hbands. split; [done |].
  eapply run_handshake; [done | done | | exact Hrun].
  replace (detail.start_state n grid)
    with (detail.start_state (length (detail.spawn (cols grid) n)) grid)
    by (by rewrite spawn_length by lia).
  by apply start_handshake.
Qed.

(** X10. In every state the threads of a sweep can reach, whatever their
    interleaving, no worker is at a line beyond the line of the worker of
    an earlier band, and a worker that is in its inner loop at the line
    [ix] has the workers of all the earlier bands past that line. *)
Theorem no_worker_overtakes_an_earlier_band schedule grid mask is_circle relaxation
    n st j k pj pk :
  wf_matrix grid -> (2 <= n)%nat ->
  detail.run mask is_circle relaxation (rows grid) (cols grid)
    (detail.spawn (cols grid) n) schedule (detail.start_state n grid) = Some st ->
  (j < k)%nat ->
  detail.s_workers st !! j = Some pj -> detail.s_workers st !! k = Some pk ->
  detail.pc_ix pk <= detail.pc_ix pj /\
  (detail.pc_phase pk <> detail.Waiting -> detail.pc_ix pk < detail.pc_ix pj).
Proof.
  intros Hwf Hn Hrun Hjk Hj Hk.
  destruct (sweep_handshake _ _ _ _ _ _ _ Hwf Hn Hrun) as [_ [_ _ _ Hord _]].
  by apply (Hord j k).
Qed.

Lemma no_worker_overtakes_an_earlier_band_witness :
  wf_matrix checkerboard_seeded /\ (2 <= 3)%nat /\
  exists st pj pk,
    detail.run checkerboard_mask true 1 (rows checkerboard_seeded)
      (cols checkerboard_seeded) (detail.spawn (cols checkerboard_seeded) 3)
      round_robin (detail.start_state 3 checkerboard_seeded) = Some st /\
    detail.s_workers st !! 0%nat = Some pj /\ detail.s_workers st !! 2%nat = Some pk /\
    detail.pc_ix pk <= detail.pc_ix pj.
Proof.
  assert (Hwf : wf_matrix checkerboard_seeded).
  { split; [by vm_compute |]. split; [by vm_compute |]. by vm_compute. }
  split; [exact Hwf |]. split; [lia |].
  destruct (detail.run checkerboard_mask true 1 (rows checkerboard_seeded)
              (cols checkerboard_seeded) (detail.spawn (cols checkerboard_seeded) 3)
              round_robin (detail.start_state 3 checkerboard_seeded))
    as [st |] eqn:Hrun; [| by vm_compute in Hrun].
  pose proof (sweep_handshake round_robin checkerboard_seeded checkerboard_mask true 1
                3 st Hwf ltac:(lia) Hrun) as [_ [Hlw _ _ _ _]].
  rewrite spawn_length in Hlw by lia.
  destruct (lookup_lt_is_Some_2 (detail.s_workers st) 0) as [pj Hj]; [lia |].
  destruct (lookup_lt_is_Some_2 (detail.s_workers st) 2) as [pk Hk]; [lia |].
  exists st, pj, pk. split; [done |]. split; [done |]. split; [done |].
  exact (proj1 (no_worker_overtakes_an_earlier_band round_robin checkerboard_seeded
                  checkerboard_mask true 1 3 st 0 2 pj pk Hwf ltac:(lia) Hrun
                  ltac:(lia) Hj Hk)).
Defined.

(** The pixel a step writes: a step changes no other pixel of the grid. *)
Lemma thread_step_writes mask is_circle relaxation x_size y_size args k st st' pc c :
  detail.thread_step mask is_circle relaxation x_size y_size args k st = Some st' ->
  detail.s_workers st !! k = Some pc ->
  at_ (detail.s_grid st') c <> at_ (detail.s_grid st) c ->
  next_write x_size pc = Some c.
Proof.
  unfold detail.thread_step, next_write. intros Hstep Hk Hc. rewrite Hk in Hstep.
  destruct (args !! k) as [a |]; [| by injection Hstep as <-].
  destruct (detail.finished_pc x_size pc); [by injection Hstep as <- |].
  destruct (detail.pc_phase pc) as [| iy | iy loaded | iy rho].
  - destruct (detail.ready _ _ _ _) as [[] |]; simpl in Hstep; [| | done];
      by injection Hstep as <-.
  - destruct (iy <? detail.y_end a).
    + destruct (coeff mask _ _); [| done]. by injection Hstep as <-.
    + by injection Hstep as <-.
  - destruct (detail.operands _ _ _ _ _ !! _) as [n |]; [| done]. simpl in Hstep.
    destruct (coeff (detail.s_grid st) n.1 n.2); [| done]. by injection Hstep as <-.
  - destruct (coeff (detail.s_grid st) (detail.pc_ix pc) iy) as [current |]; [| done].
    simpl in Hstep. destruct (set_coeff _ _ _ _) as [grid' |] eqn:Hset; [| done].
    injection Hstep as <-. simpl in Hc. f_equal.
    destruct (decide (c = (detail.pc_ix pc, iy))) as [-> | Hne]; [done |].
    exfalso. apply Hc. unfold at_. eapply coeff_set_ne; [done |].
    intros Heq. apply Hne. destruct c. by injection Heq as -> ->.
Qed.

(** The pixel a step reads: on two grids of one shape that hold the same
    value there, the thread does the same. *)
Lemma thread_step_reads mask is_circle relaxation x_size y_size args k st st' pc grid2 :
  detail.thread_step mask is_circle relaxation x_size y_size args k st = Some st' ->
  detail.s_workers st !! k = Some pc ->
  same_shape grid2 (detail.s_grid st) ->
  (forall n, next_read is_circle x_size y_size pc = Some n ->
     at_ grid2 n = at_ (detail.s_grid st) n) ->
  exists grid2',
    detail.thread_step mask is_circle relaxation x_size y_size args k
      (detail.mkSweep grid2 (detail.s_workers st) (detail.s_pipeline st)) =
    Some (detail.mkSweep grid2' (detail.s_workers st') (detail.s_pipeline st')).
Proof.
  unfold detail.thread_step, next_read. simpl. intros Hstep Hk Hsh Hread.
  rewrite Hk in *.
  destruct (args !! k) as [a |]; [| injection Hstep as <-; eauto].
  destruct (detail.finished_pc x_size pc); [injection Hstep as <-; eauto |].
  destruct (detail.pc_phase pc) as [| iy | iy loaded | iy rho].
  - destruct (detail.ready _ _ _ _) as [[] |]; simpl in *; [| | done];
      injection Hstep as <-; eauto.
  - destruct (iy <? detail.y_end a).
    + destruct (coeff mask _ _); [| done]. injection Hstep as <-. simpl. eauto.
    + injection Hstep as <-. eauto.
  - destruct (detail.operands _ _ _ _ _ !! _) as [n |]; [| done]. simpl in *.
    specialize (Hread n eq_refl). unfold at_ in Hread. rewrite Hread.
    destruct (coeff (detail.s_grid st) n.1 n.2); [| done]. injection Hstep as <-.
    simpl. eauto.
  - specialize (Hread _ eq_refl). unfold at_ in Hread. simpl in Hread. rewrite Hread.
    destruct (coeff (detail.s_grid st) (detail.pc_ix pc) iy) as [current |] eqn:Hcur;
      [| done].
    simpl in *. destruct (set_coeff (detail.s_grid st) _ _ _) as [grid' |] eqn:Hset;
      [| done].
    injection Hstep as <-. simpl.
    unfold set_coeff in Hset |- *.
    rewrite (same_shape_in_range _ _ _ _ Hsh).
    destruct Hsh as (Hr & _ & Hl). unfold offset in *. rewrite Hr, Hl.
    destruct (_ && _); [| done]. simpl. eauto.
Qed.

(** X11. The threads of a sweep never race on the grid: in every state
    they can reach, whatever their interleaving, the pixel that the next
    step of a worker writes is neither read nor written by the next step
    of another worker. *)
Theorem sweep_has_no_data_race schedule grid mask is_circle relaxation n st j k pj pk c :
  wf_matrix grid -> (2 <= n)%nat ->
  detail.run mask is_circle relaxation (rows grid) (cols grid)
    (detail.spawn (cols grid) n) schedule (detail.start_state n grid) = Some st ->
  j <> k ->
  detail.s_workers st !! j = Some pj -> detail.s_workers st !! k = Some pk ->
  next_write (rows grid) pk = Some c ->
  next_read is_circle (rows grid) (cols grid) pj <> Some c /\
  next_write (rows grid) pj <> Some c.
Proof.
  intros Hwf Hn Hrun Hjk Hj Hk Hw.
  destruct (sweep_handshake _ _ _ _ _ _ _ Hwf Hn Hrun) as [Hbands [Hlw _ Hpos Hord _]].
  destruct (lookup_lt_is_Some_2 (detail.spawn (cols grid) n) j) as [aj Haj].
  { rewrite <- Hlw. by eapply lookup_lt_Some. }
  destruct (lookup_lt_is_Some_2 (detail.spawn (cols grid) n) k) as [ak Hak].
  { rewrite <- Hlw. by eapply lookup_lt_Some. }
  destruct (Hpos _ _ _ Haj Hj) as [_ Hpj]. destruct (Hpos _ _ _ Hak Hk) as [_ Hpk].
  unfold next_write in Hw. destruct (detail.finished_pc (rows grid) pk); [done |].
  destruct (detail.pc_phase pk) as [| | | iyk rho] eqn:Hphk; try done.
  injection Hw as <-. destruct Hpk as [_ Hbk].
  assert (Hix : detail.pc_phase pj <> detail.Waiting ->
                detail.pc_ix pj <> detail.pc_ix pk).
  { intros Hrun'. destruct (lt_eq_lt_dec j k) as [[Hlt | ->] | Hlt]; [| done |].
    - destruct (Hord _ _ _ _ Hlt Hj Hk) as [_ H]. rewrite Hphk in H.
      specialize (H ltac:(done)). lia.
    - destruct (Hord _ _ _ _ Hlt Hk Hj) as [_ H]. specialize (H Hrun'). lia. }
  assert (Hband : forall iy, detail.y_start aj <= iy < detail.y_end aj -> iy <> iyk).
  { intros iy Hiy ->. apply Hjk. by eapply (bands_disjoint _ _ _ _ _ _ iyk Hbands). }
  unfold next_read, next_write. destruct (detail.finished_pc (rows grid) pj); [done |].
  destruct (detail.pc_phase pj) as [| iy | iy loaded | iy rho'] eqn:Hphj; try done.
  - destruct Hpj as [_ Hbj]. specialize (Hix ltac:(done)). specialize (Hband iy Hbj).
    split; [| done]. intros Hop. unfold detail.operands in Hop.
    destruct (length loaded) as [| [| [| [| [| ?]]]]]; simpl in Hop; try done;
      injection Hop as ? ?; congruence.
  - specialize (Hix ltac:(done)). split; intros [= ? ?]; congruence.
Qed.

Lemma sweep_has_no_data_race_witness :
  wf_matrix checkerboard_seeded /\ (2 <= 3)%nat /\
  detail.run checkerboard_mask true 1 (rows checkerboard_seeded)
    (cols checkerboard_seeded) (detail.spawn (cols checkerboard_seeded) 3)
    thread_0_first (detail.start_state 3 checkerboard_seeded) = Some storing_state /\
  (exists pj pk,
     detail.s_workers storing_state !! 1%nat = Some pj /\
     detail.s_workers storing_state !! 0%nat = Some pk /\
     next_write (rows checkerboard_seeded) pk = Some (2, 1) /\
     next_read true (rows checkerboard_seeded) (cols checkerboard_seeded) pj =
       Some (0, 1)) /\
  (0, 1) <> (2, 1).
Proof.
  assert (Hwf : wf_matrix checkerboard_seeded).
  { split; [by vm_compute |]. split; [by vm_compute |]. by vm_compute. }
  assert (Hrun : detail.run checkerboard_mask true 1 (rows checkerboard_seeded)
                   (cols checkerboard_seeded) (detail.spawn (cols checkerboard_seeded) 3)
                   thread_0_first (detail.start_state 3 checkerboard_seeded) =
                 Some storing_state) by by vm_compute.
  split; [exact Hwf |]. split; [lia |]. split; [exact Hrun |].
  split; [eexists _, _; repeat split; reflexivity |].
  intros Heq.
  refine (proj1 (sweep_has_no_data_race thread_0_first checkerboard_seeded
            checkerboard_mask true 1 3 storing_state 1 0 _ _ (2, 1) Hwf ltac:(lia) Hrun
            ltac:(lia) eq_refl eq_refl eq_refl) _).
  by rewrite <- Heq.
Defined.

(** ** The first guess by zonal average *)

(** X12. The zonal average is idempotent: applied to its own result with
    the same mask it changes nothing, since the means are taken over the
    pixels that are not masked, and these it never writes. *)
Theorem zonal_average_is_idempotent (grid : Matrix float) (mask : Matrix bool)
    num_threads num_threads' once :
  wf_matrix grid -> wf_matrix mask -> same_shape mask grid ->
  detail.set_zonal_average grid mask num_threads = Some once ->
  detail.set_zonal_average once mask num_threads' = Some once.
Proof.
  intros Hwf Hwfm Hsh H1.
  destruct (set_zonal_average_spec grid mask num_threads Hwf Hwfm Hsh)
    as (o & Ho & Hsho & Hat).
  assert (o = once) as -> by congruence.
  assert (Hwfo : wf_matrix once) by by eapply same_shape_wf.
  assert (Hshm : same_shape mask once) by by eapply same_shape_common.
  destruct (set_zonal_average_spec once mask num_threads' Hwfo Hwfm Hshm)
    as (twice & -> & Hsht & Hat2).
  f_equal. apply matrix_ext; [done | by eapply same_shape_wf | by destruct Hsht
                              | by destruct Hsht as (_ & ? & _) |].
  intros ix iy Hin. change (at_ twice (ix, iy) = at_ once (ix, iy)).
  rewrite Hat2. case_bool_decide as Hd; [| done]. destruct Hd as (Hy & Hx & Hm).
  destruct Hsho as (Hr & Hc & _).
  rewrite Hat, bool_decide_eq_true_2 by (rewrite <- Hr, <- Hc; done).
  do 2 f_equal. apply line_values_ext; [done |].
  intros c Hc'. rewrite Hat, bool_decide_eq_false_2; [done |].
  intros (_ & _ & ?). congruence.
Qed.

Lemma zonal_average_is_idempotent_witness :
  wf_matrix sparse_grid /\ wf_matrix (isNaN sparse_grid) /\
  same_shape (isNaN sparse_grid) sparse_grid /\
  detail.set_zonal_average sparse_grid (isNaN sparse_grid) 1 =
    Some (mkMatrix 2 2 [1; 1; 0; 0]%float) /\
  detail.set_zonal_average (mkMatrix 2 2 [1; 1; 0; 0]%float) (isNaN sparse_grid) 4 =
    Some (mkMatrix 2 2 [1; 1; 0; 0]%float).
Proof.
  assert (Hwf : wf_matrix sparse_grid).
  { split; [by vm_compute |]. split; [by vm_compute |]. by vm_compute. }
  assert (Hwfm : wf_matrix (isNaN sparse_grid)).
  { split; [by vm_compute |]. split; [by vm_compute |]. by vm_compute. }
  assert (Hsh : same_shape (isNaN sparse_grid) sparse_grid) by by repeat split.
  assert (E : detail.set_zonal_average sparse_grid (isNaN sparse_grid) 1 =
              Some (mkMatrix 2 2 [1; 1; 0; 0]%float)) by reflexivity.
  split; [exact Hwf |]. split; [exact Hwfm |]. split; [exact Hsh |]. split; [exact E |].
  exact (zonal_average_is_idempotent sparse_grid (isNaN sparse_grid) 1 4 _ Hwf Hwfm Hsh E).
Defined.

(** ** LOESS with an empty half-window *)

Lemma div_by_zero (v : float) :
  Prim2SF (v / 0)%float = S754_nan \/ exists s, Prim2SF (v / 0)%float = S754_infinity s.
Proof.
  rewrite FloatAxioms.div_spec. replace (Prim2SF 0%float) with (S754_zero false) by reflexivity.
  unfold SF64div, SFdiv. destruct (Prim2SF v) as [s | s | | s m e]; eauto.
Qed.

Lemma sqr_unbounded (q : float) :
  Prim2SF q = S754_nan \/ (exists s, Prim2SF q = S754_infinity s) ->
  unbounded (fill.sqr q).
Proof.
  unfold fill.sqr, unbounded. rewrite FloatAxioms.mul_spec.
  intros [-> | [s ->]]; [by left | right]. by destruct s.
Qed.

Lemma add_unbounded_l (a b : float) : unbounded a -> unbounded (a + b)%float.
Proof.
  unfold unbounded. rewrite FloatAxioms.add_spec. intros [-> | ->]; [by left |].
  destruct (Prim2SF b) as [s | [] | | s m e]; simpl; auto.
Qed.

Lemma add_unbounded_r (a b : float) : unbounded b -> unbounded (a + b)%float.
Proof.
  unfold unbounded. rewrite FloatAxioms.add_spec. intros [-> | ->].
  - left. by destruct (Prim2SF a).
  - destruct (Prim2SF a) as [s | [] | | s m e]; simpl; auto.
Qed.

Lemma sqrt_unbounded (a : float) : unbounded a -> unbounded (PrimFloat.sqrt a).
Proof. unfold unbounded. rewrite FloatAxioms.sqrt_spec. intros [-> | ->]; simpl; auto. Qed.

Lemma tri_cube_unbounded pow (d : float) : unbounded d -> fill.tri_cube pow d = 0%float.
Proof.
  unfold unbounded, fill.tri_cube. rewrite FloatAxioms.leb_spec.
  replace (Prim2SF 1%float) with (S754_finite false 4503599627370496 (-52))
    by reflexivity.
  by intros [-> | ->].
Qed.

Lemma distance_unbounded grid nx ny px py wx wy d :
  nx = 0%N \/ ny = 0%N ->
  fill.distance grid nx ny px py wx wy = Some d -> unbounded d.
Proof.
  intros Hn. unfold fill.distance.
  intros (cx & _ & (cy & _ & [= <-])%bind_Some)%bind_Some.
  apply sqrt_unbounded. destruct Hn as [-> | ->].
  - apply add_unbounded_l, sqr_unbounded. apply (div_by_zero (cx - px)).
  - apply add_unbounded_r, sqr_unbounded. apply (div_by_zero (cy - py)).
Qed.

Lemma samples_unbounded grid dist cells :
  (forall c d, dist c = Some d -> unbounded d) ->
  Forall (fun s : float * float => unbounded s.1) (samples grid dist cells).
Proof.
  intros Hd. unfold samples. induction cells as [| c cells IH]; csimpl; [constructor |].
  destruct (fill.value grid c.1 c.2) as [zi |]; csimpl; [| done].
  destruct (is_nan zi); [done |].
  destruct (dist c) as [d |] eqn:E; csimpl; [| done].
  constructor; [by eapply Hd | done].
Qed.

Lemma weighted_sums_unbounded pow (l : list (float * float)) (v : float) :
  Forall (fun s : float * float => unbounded s.1) l ->
  (weighted_sums pow l (v, 0%float)).2 = 0%float.
Proof.
  unfold weighted_sums. revert v. induction l as [| [d zi] l IH]; intros v Hl; [done |].
  apply Forall_cons in Hl as [Hd Hl]. simpl in *.
  rewrite (tri_cube_unbounded pow d Hd).
  change (0 + 0)%float with 0%float. by apply IH.
Qed.

(** X13. With a half-window of zero points along one of the axes LOESS
    fills nothing: the distance of every pixel of a window is then an
    infinity or a NaN, no weight is counted, and the result is the grid as
    it was, undefined pixels included. *)
Theorem loess_without_half_window_fills_nothing pow grid nx ny num_threads :
  grid2d_ok grid -> nx = 0%N \/ ny = 0%N ->
  exists result,
    fill.loess pow grid nx ny num_threads = Some result /\
    forall ix iy,
      0 <= ix < fill.axis_size (fill.x grid) -> 0 <= iy < fill.axis_size (fill.y grid) ->
      coeff result ix iy = fill.value grid ix iy.
Proof.
  intros Hok Hn.
  destruct (loess_spec pow grid nx ny num_threads Hok) as (result & Hres & _ & _ & Hcell).
  exists result. split; [done |]. intros ix iy Hx Hy. rewrite (Hcell ix iy Hx Hy).
  destruct (loess_cell_spec pow grid nx ny Hok ix iy Hx Hy)
    as (px & py & z & _ & _ & -> & ->).
  f_equal. destruct (is_nan z); [| done]. unfold weighted_average.
  rewrite weighted_sums_unbounded; [done |].
  apply samples_unbounded. intros c d. by apply distance_unbounded.
Qed.

Lemma loess_without_half_window_fills_nothing_witness :
  grid2d_ok unit_grid /\ (0%N = 0%N \/ 1%N = 0%N) /\
  exists result,
    fill.loess cube unit_grid 0 1 1 = Some result /\
    coeff result 1 0 = Some nan.
Proof.
  split; [exact grid2d_ok_unit_grid |]. split; [by left |].
  destruct (loess_without_half_window_fills_nothing cube unit_grid 0 1 1
              grid2d_ok_unit_grid ltac:(by left)) as (result & Hres & Hcell).
  exists result. split; [exact Hres |]. rewrite Hcell by (by vm_compute). reflexivity.
Defined.

(** ** Linear interpolation *)

Lemma binary_round_aux_opp s mx ex lx :
  binary_round_aux prec emax (negb s) mx ex lx =
  SFopp (binary_round_aux prec emax s mx ex lx).
Proof.
  unfold binary_round_aux.
  destruct (shr_fexp prec emax mx ex lx) as [mrs' e'].
  destruct (shr_fexp prec emax _ e' loc_Exact) as [mrs'' e''].
  destruct (shr_m mrs''); [done | | done]. by destruct (_ <=? _).
Qed.

Lemma binary_round_opp s m e :
  binary_round prec emax (negb s) m e = SFopp (binary_round prec emax s m e).
Proof.
  unfold binary_round. destruct (shl_align _ _ _) as [mz ez].
  apply binary_round_aux_opp.
Qed.

(** The quotients by zero of a difference and of the opposite difference
    are infinities of opposite signs, unless they are NaN. *)
Lemma sub_swap_div_zero (a x : spec_float) :
  SF64div (SF64sub a x) (S754_zero false) = S754_nan \/
  exists s,
    SF64div (SF64sub a x) (S754_zero false) = S754_infinity s /\
    SF64div (SF64sub x a) (S754_zero false) = S754_infinity (negb s).
Proof.
  unfold SF64div, SF64sub.
  destruct a as [sa | sa | | sa ma ea], x as [sx | sx | | sx mx ex];
    try (by left); try (right; eexists; split; simpl; [reflexivity |];
                        by rewrite ?xorb_false_r, ?negb_involutive).
  - destruct sa, sx; simpl; auto.
  - destruct sa, sx; simpl; eauto.
  - unfold SFsub. rewrite (Z.min_comm ex ea).
    set (ez := Z.min ea ex).
    set (p := cond_Zopp sa (Z.pos (shl_align ma ea ez).1)).
    set (q := cond_Zopp sx (Z.pos (shl_align mx ex ez).1)).
    replace (q - p)%Z with (- (p - q))%Z by lia.
    destruct (p - q)%Z as [| z | z]; simpl.
    + by left.
    + pose proof (binary_round_opp false z ez) as Hopp. simpl in Hopp. rewrite Hopp.
      destruct (binary_round prec emax false z ez) as [s | s | | s m e]; simpl;
        try (by left); right; eexists; (split; [reflexivity |]);
        by rewrite ?xorb_false_r, ?negb_involutive.
    + pose proof (binary_round_opp false z ez) as Hopp. simpl in Hopp. rewrite Hopp.
      destruct (binary_round prec emax false z ez) as [s | s | | s m e]; simpl;
        try (by left); right; eexists; (split; [reflexivity |]);
        by rewrite ?xorb_false_r, ?negb_involutive.
Qed.

Lemma sub_self (a : spec_float) :
  SF64sub a a = S754_nan \/ SF64sub a a = S754_zero false.
Proof.
  unfold SF64sub. destruct a as [[] | [] | | s m e]; simpl; auto.
  right. by rewrite Z.sub_diag.
Qed.

Lemma is_nan_true (v : float) : Prim2SF v = S754_nan -> is_nan v = true.
Proof. apply is_nan_spec. Qed.

(** X14. Between two points of the same abscissa [linear] has no value:
    whatever [x] and the two ordinates, the result is a NaN. *)
Theorem linear_of_coincident_points (x x0 y0 y1 : float) :
  is_nan (math.linear x x0 x0 y0 y1) = true.
Proof.
  apply is_nan_true. unfold math.linear.
  rewrite FloatAxioms.add_spec, FloatAxioms.mul_spec, !FloatAxioms.div_spec,
    FloatAxioms.mul_spec, FloatAxioms.add_spec, !FloatAxioms.div_spec,
    !FloatAxioms.sub_spec.
  set (a := Prim2SF x0). set (v := Prim2SF x).
  assert (Hnan_r : forall p, SF64add p S754_nan = S754_nan) by by intros [].
  assert (Hdiv_nan : forall p, SF64div p S754_nan = S754_nan) by by intros [].
  destruct (sub_self a) as [-> | ->].
  - rewrite !Hdiv_nan. reflexivity.
  - destruct (sub_swap_div_zero a v) as [-> | (s & -> & ->)]; [reflexivity |].
    replace (SF64add (S754_infinity s) (S754_infinity (negb s))) with S754_nan
      by (by destruct s).
    by rewrite Hdiv_nan, Hnan_r.
Qed.

(** X15. A NaN in any of its five arguments comes out of [linear] as a
    NaN: an undefined abscissa or ordinate is never turned into a
    number. *)
Theorem linear_propagates_nan (x x0 x1 y0 y1 : float) :
  is_nan x = true \/ is_nan x0 = true \/ is_nan x1 = true \/
  is_nan y0 = true \/ is_nan y1 = true ->
  is_nan (math.linear x x0 x1 y0 y1) = true.
Proof.
  intros H. apply is_nan_true. unfold math.linear.
  rewrite FloatAxioms.add_spec, FloatAxioms.mul_spec, !FloatAxioms.div_spec,
    FloatAxioms.mul_spec, FloatAxioms.add_spec, !FloatAxioms.div_spec,
    !FloatAxioms.sub_spec.
  assert (Hadd_r : forall p, SF64add p S754_nan = S754_nan) by by intros [].
  assert (Hdiv_r : forall p, SF64div p S754_nan = S754_nan) by by intros [].
  assert (Hmul_r : forall p, SF64mul p S754_nan = S754_nan) by by intros [].
  assert (Hsub_r : forall p, SF64sub p S754_nan = S754_nan) by by intros [].
  assert (Hsub_l : forall p, SF64sub S754_nan p = S754_nan) by done.
  assert (Hdiv_l : forall p, SF64div S754_nan p = S754_nan) by done.
  rewrite !is_nan_spec in H.
  destruct H as [-> | [-> | [-> | [-> | ->]]]].
  - by rewrite Hsub_r.
  - by rewrite !Hsub_r, !Hdiv_r.
  - by rewrite !Hsub_l, !Hdiv_r.
  - by rewrite Hmul_r.
  - by rewrite Hmul_r, Hdiv_l, Hadd_r.
Qed.

Lemma linear_propagates_nan_witness :
  (is_nan 1%float = true \/ is_nan 0%float = true \/ is_nan 2%float = true \/
   is_nan 5%float = true \/ is_nan nan = true) /\
  is_nan (math.linear 1 0 2 5 nan) = true.
Proof.
  assert (H : is_nan 1%float = true \/ is_nan 0%float = true \/ is_nan 2%float = true \/
              is_nan 5%float = true \/ is_nan nan = true) by (do 4 right; reflexivity).
  split; [exact H |]. exact (linear_propagates_nan 1 0 2 5 nan H).
Defined.

(** ** When a sweep returns *)

(** X16. A sweep returns exactly when it stays in range at every pixel of
    the grid: the pixel is in the mask and, when it is masked, its four
    neighbours are in the grid.  This holds with any number of threads,
    one at least, and any interleaving. *)
Theorem sweep_returns_iff_in_range schedule grid mask is_circle relaxation num_threads :
  wf_matrix grid -> num_threads <> 0%N ->
  is_Some (detail.gauss_seidel schedule grid mask is_circle relaxation num_threads) <->
  forall c, 0 <= c.1 < rows grid -> 0 <= c.2 < cols grid ->
    safe mask is_circle (rows grid) (cols grid) grid c = true.
Proof.
  intros Hwf Hn. rewrite gauss_seidel_threads by done. by apply worker_safe.
Qed.

Lemma sweep_returns_iff_in_range_witness :
  wf_matrix one_line /\ 2%N <> 0%N /\
  is_Some (detail.gauss_seidel [1; 0]%nat one_line (isNaN one_line) true 1 2) /\
  safe (isNaN one_line) true 1 2 one_line (0, 0) = true.
Proof.
  assert (Hwf : wf_matrix one_line).
  { split; [by vm_compute |]. split; [by vm_compute |]. by vm_compute. }
  assert (Hs : is_Some (detail.gauss_seidel [1; 0]%nat one_line (isNaN one_line) true 1 2)).
  { vm_compute. eauto. }
  split; [exact Hwf |]. split; [done |]. split; [exact Hs |].
  apply (proj1 (sweep_returns_iff_in_range [1; 0]%nat one_line (isNaN one_line) true 1 2
                  Hwf ltac:(done)) Hs (0, 0)); simpl; lia.
Defined.

Lemma hasNaN_cell (grid : Matrix float) :
  wf_matrix grid -> hasNaN grid = true ->
  exists c,
    0 <= c.1 < rows grid /\ 0 <= c.2 < cols grid /\ at_ (isNaN grid) c = Some true.
Proof.
  intros (Hr & Hc & Hl) H. unfold hasNaN in H.
  apply existsb_exists in H as (v & Hin & Hv).
  apply list_elem_of_In, list_elem_of_lookup in Hin as (i & Hi).
  assert (Hlt : (i < length (coeffs grid))%nat) by by eapply lookup_lt_Some.
  assert (Hpos : 0 < rows grid) by nia.
  pose proof (Z.mod_pos_bound (Z.of_nat i) (rows grid) Hpos) as Hmod.
  pose proof (Z.div_mod (Z.of_nat i) (rows grid) ltac:(lia)) as Hdiv.
  assert (Hq : 0 <= Z.of_nat i / rows grid < cols grid).
  { split; [apply Z.div_pos; lia |]. apply Z.div_lt_upper_bound; [lia |]. nia. }
  exists (Z.of_nat i mod rows grid, Z.of_nat i / rows grid). simpl.
  split; [done |]. split; [done |].
  unfold at_. rewrite coeff_isNaN. unfold coeff, offset. simpl.
  rewrite (proj2 (in_range_spec grid _ _)) by lia.
  replace (Z.to_nat _) with i by lia. rewrite Hi. simpl. by rewrite Hv.
Qed.

(** X17. On a grid that has an undefined pixel, with a budget of one
    iteration at least and a thread to run on, [fill::gauss_seidel]
    returns exactly when the grid has two columns at least, and two lines
    at least unless the x-axis wraps: on every other grid the first sweep
    reads a neighbour that the grid does not have. *)
Theorem fill_returns_iff_extents hardware_concurrency schedule grid first_guess
    is_circle max_iterations epsilon relaxation num_threads :
  wf_matrix grid -> hasNaN grid = true -> max_iterations <> 0%N ->
  effective_threads hardware_concurrency num_threads <> 0%N ->
  is_Some (fill.gauss_seidel hardware_concurrency schedule grid first_guess is_circle
             max_iterations epsilon relaxation num_threads) <->
  (2 <= rows grid \/ is_circle = true) /\ 2 <= cols grid.
Proof.
  intros Hwf Hnan Hmax Hn. rewrite fill_unfold by done.
  set (n := effective_threads hardware_concurrency num_threads) in *.
  destruct (seeded_shape grid first_guess n Hwf) as (start & -> & Hwfs & Hsh).
  destruct (isNaN_shape grid Hwf) as [Hwfm Hshm]. simpl.
  pose proof Hsh as (Hrows & Hcols & _).
  split.
  - destruct (N.to_nat max_iterations) as [| budget] eqn:Hb; [lia |]. simpl.
    intros [[[after k] r] H].
    destruct (detail.gauss_seidel _ _ _ _ _ _) as [[grid1 r1] |] eqn:Hsweep; [| done].
    assert (Hs : is_Some (detail.gauss_seidel (schedule 0%N) start (isNaN grid)
                            is_circle relaxation n)) by eauto.
    rewrite gauss_seidel_threads in Hs by done. rewrite worker_safe in Hs by done.
    destruct (hasNaN_cell grid Hwf Hnan) as (c & Hcx & Hcy & Hm).
    specialize (Hs c ltac:(lia) ltac:(lia)). unfold safe in Hs. rewrite Hm in Hs.
    rewrite !andb_true_iff, !in_range_spec in Hs.
    unfold detail.ix0, detail.iy0 in Hs. rewrite Hrows, Hcols in Hs.
    destruct is_circle; repeat case_match; (split; [auto; lia | lia]).
  - intros [Hx Hy].
    destruct (sweeps_spec schedule (isNaN grid) is_circle epsilon relaxation n start Hn
                Hwfm (same_shape_common _ _ _ Hshm Hsh))
      with (budget := N.to_nat max_iterations) (i := 0%nat) (grid := start) (r := 0%float)
      as (k & after & residual & Hrun & _);
      [by rewrite Hrows | by rewrite Hcols | done | done | apply same_shape_refl |].
    change (N.of_nat 0) with 0%N in Hrun. rewrite Hrun. eauto.
Qed.

Lemma fill_returns_iff_extents_witness :
  wf_matrix one_line /\ hasNaN one_line = true /\ 3%N <> 0%N /\
  effective_threads 2 0 <> 0%N /\
  is_Some (fill.gauss_seidel 2 (fun _ => [0; 1]%nat) one_line fill.kZero true 3
             epsilon_1e_6 1 0).
Proof.
  assert (Hwf : wf_matrix one_line).
  { split; [by vm_compute |]. split; [by vm_compute |]. by vm_compute. }
  split; [exact Hwf |]. split; [reflexivity |]. split; [done |]. split; [done |].
  apply (fill_returns_iff_extents 2 (fun _ => [0; 1]%nat) one_line fill.kZero true 3
           epsilon_1e_6 1 0 Hwf eq_refl); [done | done |].
  split; [by right | by vm_compute].
Defined.
